(** * Request-processing image server: queue, image store, turn gate

    A shallow embedding of the C sources of the server generations
    [hw5_src/server_pol.c] (FIFO/SJN queue), [hw6_src/server_img.c]
    (single image server) and [hw7_src/server_mimg.c] (multi-worker image
    server with the per-image turn gate), and the properties of the
    specification that are stated about them.

    Conventions.
    - [uint64_t] and [size_t] values are integers in [Z]; the wrap-around of
      unsigned arithmetic is written out with [wrap64].
    - A heap array is a list of slots; a slot is [None] while the memory is
      uninitialised (fresh from [malloc]/[realloc]).
    - A computation lives in the monad [M]: it threads the shared state and
      either finishes ([Done]), waits on a semaphore or on input ([Blocked]),
      or has no defined behaviour in C ([Undefined]): an access outside an
      array, the use of an uninitialised slot, a division by zero. *)

From Stdlib Require Import ZArith List Lia Bool String Ascii.
From stdpp Require Import base list.

Local Open Scope Z_scope.

(** ** Machine integers and array slots *)

Definition wrap64 (z : Z) : Z := z mod 2 ^ 64.

(** [a[i]] for an array [a] of slots and an unsigned index. *)
Definition slot_at {A} (a : list A) (i : Z) : option A :=
  if 0 <=? i then a !! Z.to_nat i else None.

(** [a[i] = x]; the caller checks the bounds. *)
Definition slot_set {A} (a : list A) (i : Z) (x : A) : list A :=
  <[Z.to_nat i := x]> a.

(** [realloc(a, n * sizeof ( * a))]: the first [n] slots are kept, the slots
    added are uninitialised. *)
Definition realloc {A} (a : list (option A)) (n : Z) : list (option A) :=
  take (Z.to_nat n) a ++ replicate (Z.to_nat n - length a)%nat None.

(** ** Wire data ([common.h]) *)

Record timespec := mk_timespec { tv_sec : Z; tv_nsec : Z }.

Definition timespec_ns (t : timespec) : Z := tv_sec t * 10 ^ 9 + tv_nsec t.
Definition ns_timespec (ns : Z) : timespec :=
  {| tv_sec := ns / 10 ^ 9; tv_nsec := ns mod 10 ^ 9 |}.

(** Modelled from the spec: [enum img_opcode] of [common.h], which is not
    among the sources. The spec lists the operation codes REGISTER,
    ROTATE90CW, BLUR, SHARPEN, VERT_EDGES, HORIZ_EDGES, RETRIEVE; the
    constructors carry the names the sources use. A value of the wire field
    that is none of them is [IMG_UNKNOWN]. *)
Inductive img_opcode :=
| IMG_REGISTER
| IMG_ROT90CLKW
| IMG_BLUR
| IMG_SHARPEN
| IMG_VERTEDGES
| IMG_HORIZEDGES
| IMG_RETRIEVE
| IMG_UNKNOWN (raw : Z).

Definition img_opcode_eqb (a b : img_opcode) : bool :=
  match a, b with
  | IMG_REGISTER, IMG_REGISTER | IMG_ROT90CLKW, IMG_ROT90CLKW
  | IMG_BLUR, IMG_BLUR | IMG_SHARPEN, IMG_SHARPEN
  | IMG_VERTEDGES, IMG_VERTEDGES | IMG_HORIZEDGES, IMG_HORIZEDGES
  | IMG_RETRIEVE, IMG_RETRIEVE => true
  | IMG_UNKNOWN x, IMG_UNKNOWN y => x =? y
  | _, _ => false
  end.

(** Modelled from the spec: [struct request] of [common.h], with the fields
    the servers read. *)
Record request := mk_request {
  req_id : Z;                  (* uint64_t *)
  req_timestamp : timespec;
  req_length : timespec;
  img_op : img_opcode;
  overwrite : Z;               (* uint8_t *)
  img_id : Z                   (* uint64_t *)
}.

Inductive ack_code := RESP_COMPLETED | RESP_REJECTED.

(** Modelled from the spec: [struct response] of [common.h]. A field is
    [None] until the code assigns it: [struct response resp;] declares a
    response whose fields are indeterminate. *)
Record response := mk_response {
  resp_req_id : option Z;
  resp_img_id : option Z;
  resp_ack : option ack_code
}.

Definition response_decl : response :=
  {| resp_req_id := None; resp_img_id := None; resp_ack := None |}.

(** Modelled from the spec: the image library ([imglib.h]) is not among the
    sources; the spec treats its operations as pure functions from image to
    image. *)
Class imglib := {
  image : Type;
  rotate90Clockwise : image -> image;
  blurImage : image -> image;
  sharpenImage : image -> image;
  detectVerticalEdges : image -> image;
  detectHorizontalEdges : image -> image
}.

(** ** Results of a computation *)

Inductive result (A : Type) :=
| Done (a : A)
| Blocked
| Undefined.
Arguments Done {A} a.
Arguments Blocked {A}.
Arguments Undefined {A}.

(** ** The monad of the server code

    A computation over a state of type [St]. *)

Definition SM (St A : Type) : Type := St -> result (A * St).

Definition ret {St A} (a : A) : SM St A := fun s => Done (a, s).

Definition bind {St A B} (m : SM St A) (f : A -> SM St B) : SM St B :=
  fun s =>
    match m s with
    | Done (a, s') => f a s'
    | Blocked => Blocked
    | Undefined => Undefined
    end.

Definition gets {St A} (f : St -> A) : SM St A := fun s => Done (f s, s).
Definition modify {St} (f : St -> St) : SM St unit := fun s => Done (tt, f s).
Definition undefined {St A} : SM St A := fun _ => Undefined.
Definition blocked {St A} : SM St A := fun _ => Blocked.

(** The value of an initialised slot; anything else has no defined
    behaviour. *)
Definition defined {St A} (o : option (option A)) : SM St A :=
  match o with
  | Some (Some a) => ret a
  | _ => undefined
  end.

Notation "x <- c1 ;; c2" := (bind c1 (fun x => c2))
  (at level 100, c1 at next level, c2 at level 200, only parsing,
   right associativity).
Notation "c1 ;; c2" := (bind c1 (fun _ => c2))
  (at level 100, c2 at level 200, only parsing, right associativity).


(** * The multi-worker image server ([hw7_src/server_mimg.c]) *)

Module Hw7.

Section Server.

Context {L : imglib}.

(** ** Data *)

Record request_meta := mk_request_meta {
  request_of : request;
  receipt_timestamp : option timespec;
  start_timestamp : option timespec;
  completion_timestamp : option timespec
}.

Inductive queue_policy := QUEUE_FIFO | QUEUE_SJN.

Record queue := mk_queue {
  wr_pos : Z;
  rd_pos : Z;
  max_size : Z;
  available : Z;
  policy : queue_policy;
  requests : list (option request_meta)
}.

(** [struct img_req_array]: [request_ids] holds the [count] entries in use
    (the unused tail of the buffer is not represented), so that [count] is
    the length of [request_ids]. *)
Record img_req_array := mk_img_req_array {
  request_ids : list Z;
  capacity : Z
}.

Definition count (a : img_req_array) : Z := Z.of_nat (length (request_ids a)).

(** The global semaphores of the program. *)
Inductive sem_name :=
| queue_mutex | queue_notify | printf_mutex
| arr_mutex | operation_mutex | conn_socket_mutex.

Record semaphores := mk_semaphores {
  v_queue_mutex : nat;
  v_queue_notify : nat;
  v_printf_mutex : nat;
  v_arr_mutex : nat;
  v_operation_mutex : nat;
  v_conn_socket_mutex : nat
}.

Definition sem_value (m : sem_name) (v : semaphores) : nat :=
  match m with
  | queue_mutex => v_queue_mutex v
  | queue_notify => v_queue_notify v
  | printf_mutex => v_printf_mutex v
  | arr_mutex => v_arr_mutex v
  | operation_mutex => v_operation_mutex v
  | conn_socket_mutex => v_conn_socket_mutex v
  end.

Definition sem_update (m : sem_name) (n : nat) (v : semaphores) : semaphores :=
  match m with
  | queue_mutex =>
      mk_semaphores n (v_queue_notify v) (v_printf_mutex v) (v_arr_mutex v)
        (v_operation_mutex v) (v_conn_socket_mutex v)
  | queue_notify =>
      mk_semaphores (v_queue_mutex v) n (v_printf_mutex v) (v_arr_mutex v)
        (v_operation_mutex v) (v_conn_socket_mutex v)
  | printf_mutex =>
      mk_semaphores (v_queue_mutex v) (v_queue_notify v) n (v_arr_mutex v)
        (v_operation_mutex v) (v_conn_socket_mutex v)
  | arr_mutex =>
      mk_semaphores (v_queue_mutex v) (v_queue_notify v) (v_printf_mutex v) n
        (v_operation_mutex v) (v_conn_socket_mutex v)
  | operation_mutex =>
      mk_semaphores (v_queue_mutex v) (v_queue_notify v) (v_printf_mutex v)
        (v_arr_mutex v) n (v_conn_socket_mutex v)
  | conn_socket_mutex =>
      mk_semaphores (v_queue_mutex v) (v_queue_notify v) (v_printf_mutex v)
        (v_arr_mutex v) (v_operation_mutex v) n
  end.

(** What the reads of the connection socket meet, in order: a request
    header, an image payload, or a failure of the read (the call returns
    -1 and writes nothing). *)
Inductive packet :=
| PktRequest (r : request)
| PktImage (i : image)
| PktError.

Inductive sent :=
| SentResponse (r : response)
| SentImage (i : image).

(** The lines of the standard output, by the [printf] call that writes them:
    [T<w> R<id>:<sent>,<op>,<overwrite>,<in>,<out>,<receipt>,<start>,<completion>],
    [X<id>:<sent>,<length>,<receipt>], [Q:[R<id>,...]] and the informative
    lines. The numbers of a line are the numbers as they are printed. *)
Inductive line :=
| LineT (worker : Z) (rid : Z) (sent_ts : timespec) (op : img_opcode)
        (ow : Z) (in_img out_img : Z)
        (receipt start completion : option timespec)
| LineX (rid : Z) (sent_ts len : timespec) (receipt : option timespec)
| LineQ (ids : list Z)
| LineInfo (msg : string).

(** Ghost events, recorded for the statement of the ordering properties:
    the admission of a request into the queue and the stamping of its start
    time by a worker. *)
Inductive event :=
| EvAdmit (r : request)
| EvStart (r : request) (t : timespec).

(** The state shared by the threads: the globals of the program, the queue
    of the connection, and the environment (clock, socket, standard
    output). *)
Record shared := mk_shared {
  the_queue : queue;
  sems : semaphores;
  images : list (option image);
  image_counter : Z;
  img_semaphores : list (option nat);
  wait_op : list (option img_req_array);
  clock : Z;
  inbound : list packet;
  outbound : list sent;
  stdout : list line;
  events : list event
}.

Definition set_the_queue (q : queue) (s : shared) : shared :=
  mk_shared q (sems s) (images s) (image_counter s) (img_semaphores s)
    (wait_op s) (clock s) (inbound s) (outbound s) (stdout s) (events s).
Definition set_sems (v : semaphores) (s : shared) : shared :=
  mk_shared (the_queue s) v (images s) (image_counter s) (img_semaphores s)
    (wait_op s) (clock s) (inbound s) (outbound s) (stdout s) (events s).
Definition set_images (a : list (option image)) (s : shared) : shared :=
  mk_shared (the_queue s) (sems s) a (image_counter s) (img_semaphores s)
    (wait_op s) (clock s) (inbound s) (outbound s) (stdout s) (events s).
Definition set_image_counter (n : Z) (s : shared) : shared :=
  mk_shared (the_queue s) (sems s) (images s) n (img_semaphores s)
    (wait_op s) (clock s) (inbound s) (outbound s) (stdout s) (events s).
Definition set_img_semaphores (a : list (option nat)) (s : shared) : shared :=
  mk_shared (the_queue s) (sems s) (images s) (image_counter s) a
    (wait_op s) (clock s) (inbound s) (outbound s) (stdout s) (events s).
Definition set_wait_op (a : list (option img_req_array)) (s : shared) : shared :=
  mk_shared (the_queue s) (sems s) (images s) (image_counter s)
    (img_semaphores s) a (clock s) (inbound s) (outbound s) (stdout s)
    (events s).
Definition set_clock (c : Z) (s : shared) : shared :=
  mk_shared (the_queue s) (sems s) (images s) (image_counter s)
    (img_semaphores s) (wait_op s) c (inbound s) (outbound s) (stdout s)
    (events s).
Definition set_inbound (i : list packet) (s : shared) : shared :=
  mk_shared (the_queue s) (sems s) (images s) (image_counter s)
    (img_semaphores s) (wait_op s) (clock s) i (outbound s) (stdout s)
    (events s).
Definition set_outbound (o : list sent) (s : shared) : shared :=
  mk_shared (the_queue s) (sems s) (images s) (image_counter s)
    (img_semaphores s) (wait_op s) (clock s) (inbound s) o (stdout s)
    (events s).
Definition set_stdout (o : list line) (s : shared) : shared :=
  mk_shared (the_queue s) (sems s) (images s) (image_counter s)
    (img_semaphores s) (wait_op s) (clock s) (inbound s) (outbound s) o
    (events s).
Definition set_events (e : list event) (s : shared) : shared :=
  mk_shared (the_queue s) (sems s) (images s) (image_counter s)
    (img_semaphores s) (wait_op s) (clock s) (inbound s) (outbound s)
    (stdout s) e.

(** ** The code of the server *)

#[local] Abbreviation M := (SM shared).

(** [a % b] on [size_t]; the division by zero has no defined behaviour. *)
Definition umod (a b : Z) : M Z :=
  if b =? 0 then undefined else ret (a mod b).

(** [a[i] = x] with the bounds of [a] checked. *)
Definition store {A} (a : list (option A)) (i : Z) (x : A) : M (list (option A)) :=
  match slot_at a i with
  | Some _ => ret (slot_set a i (Some x))
  | None => undefined
  end.

(** *** Semaphores *)

Definition sem_wait (m : sem_name) : M unit :=
  fun s =>
    match sem_value m (sems s) with
    | O => Blocked
    | S n => Done (tt, set_sems (sem_update m n (sems s)) s)
    end.

Definition sem_post (m : sem_name) : M unit :=
  modify (fun s => set_sems (sem_update m (S (sem_value m (sems s))) (sems s)) s).

(** [sem_init(&img_semaphores[i], 0, v)]. *)
Definition img_sem_init (i : Z) (v : nat) : M unit :=
  a <- gets img_semaphores ;;
  a' <- store a i v ;;
  modify (set_img_semaphores a').

(** [sem_wait(&img_semaphores[i])]. *)
Definition img_sem_wait (i : Z) : M unit :=
  a <- gets img_semaphores ;;
  v <- defined (slot_at a i) ;;
  match v with
  | O => blocked
  | S n => modify (set_img_semaphores (slot_set a i (Some n)))
  end.

(** [sem_post(&img_semaphores[i])]. *)
Definition img_sem_post (i : Z) : M unit :=
  a <- gets img_semaphores ;;
  v <- defined (slot_at a i) ;;
  modify (set_img_semaphores (slot_set a i (Some (S v)))).

(** *** Environment: clock, socket, standard output *)

(** Modelled from the spec: the clock ([clock_gettime(CLOCK_MONOTONIC, _)],
    an external collaborator) provides monotonic timestamps. A reading
    returns the current time in nanoseconds and leaves it as it is: two
    readings with no passing of time between them return the same time. The
    time passes between the steps of the threads (see [step]). *)
Definition clock_gettime : M timespec :=
  gets (fun s => ns_timespec (clock s)).

(** The outcome of [recv(conn_socket, &req->request, sizeof(struct request),
    0)] (line 535): a header is read into [req->request]; or the client has
    closed the connection and the call returns 0; or the call fails, returns
    -1 and leaves [req->request] as it was. *)
Inductive received :=
| RecvRequest (r : request)
| RecvClosed
| RecvFailed.

Definition recv_request : M received :=
  fun s =>
    match inbound s with
    | [] => Done (RecvClosed, s)
    | PktRequest r :: rest => Done (RecvRequest r, set_inbound rest s)
    | PktError :: rest => Done (RecvFailed, set_inbound rest s)
    | PktImage _ :: _ => Undefined
    end.

(** The test [in_bytes > 0] of lines 542 and 586. [in_bytes] is a [size_t]
    (line 505): the -1 of a failed [recv] is converted to [2^64 - 1], which
    is positive. *)
Definition in_bytes_positive (x : received) : bool :=
  match x with
  | RecvRequest _ => true
  | RecvClosed => false
  | RecvFailed => 0 <? wrap64 (-1)
  end.

(** What [printf] writes for a 64-bit unsigned argument under [%ld]: the
    bits read as a [long], so that a value from [2^63] up is printed as a
    negative number. *)
Definition as_long (z : Z) : Z :=
  if z <? 2 ^ 63 then z else z - 2 ^ 64.

(** Modelled from the spec: [recvImage] (image library) receives the image
    payload that follows a REGISTER header. *)
Definition recvImage : M image :=
  fun s =>
    match inbound s with
    | PktImage i :: rest => Done (i, set_inbound rest s)
    | _ => Undefined
    end.

Definition send (x : sent) : M unit :=
  modify (fun s => set_outbound (outbound s ++ [x]) s).

Definition printf (l : line) : M unit :=
  modify (fun s => set_stdout (stdout s ++ [l]) s).

Definition sync_printf (l : line) : M unit :=
  sem_wait printf_mutex ;;
  printf l ;;
  sem_post printf_mutex.

Definition ghost (e : event) : M unit :=
  modify (fun s => set_events (events s ++ [e]) s).

(** ** The bounded queue *)

Definition set_wr_pos (n : Z) (q : queue) : queue :=
  mk_queue n (rd_pos q) (max_size q) (available q) (policy q) (requests q).
Definition set_rd_pos (n : Z) (q : queue) : queue :=
  mk_queue (wr_pos q) n (max_size q) (available q) (policy q) (requests q).
Definition set_available (n : Z) (q : queue) : queue :=
  mk_queue (wr_pos q) (rd_pos q) (max_size q) n (policy q) (requests q).
Definition set_requests (a : list (option request_meta)) (q : queue) : queue :=
  mk_queue (wr_pos q) (rd_pos q) (max_size q) (available q) (policy q) a.

Definition modify_queue (f : queue -> queue) : M unit :=
  modify (fun s => set_the_queue (f (the_queue s)) s).

Definition queue_init (queue_size : Z) (pol : queue_policy) : queue :=
  {| rd_pos := 0;
     wr_pos := 0;
     max_size := queue_size;
     requests := replicate (Z.to_nat queue_size) None;
     available := queue_size;
     policy := pol |}.

(** The growth of a [struct img_req_array] that is full, and the append of a
    request ID (lines 172-176). *)
Definition img_req_array_push (a : img_req_array) (rid : Z) : img_req_array :=
  let cap :=
    if count a =? capacity a
    then (if capacity a =? 0 then 1 else wrap64 (capacity a * 2))
    else capacity a in
  {| request_ids := request_ids a ++ [rid]; capacity := cap |}.

Definition add_to_queue (to_add : request_meta) : M Z :=
  sem_wait queue_mutex ;;
  q <- gets the_queue ;;
  retval <-
    (if available q =? 0 then ret 1
     else
       a <- store (requests q) (wr_pos q) to_add ;;
       modify_queue (set_requests a) ;;
       wr <- umod (wrap64 (wr_pos q + 1)) (max_size q) ;;
       modify_queue (set_wr_pos wr) ;;
       modify_queue (set_available (wrap64 (available q - 1))) ;;
       sem_wait operation_mutex ;;
       tbl <- gets wait_op ;;
       img_arr <- defined (slot_at tbl (img_id (request_of to_add))) ;;
       modify (set_wait_op
                 (slot_set tbl (img_id (request_of to_add))
                    (Some (img_req_array_push img_arr (req_id (request_of to_add)))))) ;;
       sem_post operation_mutex ;;
       sem_post queue_notify ;;
       ret 0) ;;
  sem_post queue_mutex ;;
  ret retval.

Definition get_from_queue : M request_meta :=
  sem_wait queue_notify ;;
  sem_wait queue_mutex ;;
  q <- gets the_queue ;;
  retval <- defined (slot_at (requests q) (rd_pos q)) ;;
  rd <- umod (wrap64 (rd_pos q + 1)) (max_size q) ;;
  modify_queue (set_rd_pos rd) ;;
  modify_queue (set_available (wrap64 (available q + 1))) ;;
  sem_post queue_mutex ;;
  ret retval.

(** The loop of [dump_queue_status]: [n] iterations from slot [i]; the
    request IDs are printed with [%ld] (line 225). *)
Fixpoint dump_loop (n : nat) (i : Z) (q : queue) : M (list Z) :=
  match n with
  | O => ret []
  | S n' =>
      r <- defined (slot_at (requests q) i) ;;
      i' <- umod (wrap64 (i + 1)) (max_size q) ;;
      rest <- dump_loop n' i' q ;;
      ret (as_long (req_id (request_of r)) :: rest)
  end.

Definition dump_queue_status : M unit :=
  sem_wait queue_mutex ;;
  sem_wait printf_mutex ;;
  q <- gets the_queue ;;
  ids <- dump_loop (Z.to_nat (wrap64 (max_size q - available q))) (rd_pos q) q ;;
  printf (LineQ ids) ;;
  sem_post printf_mutex ;;
  sem_post queue_mutex.

(** ** The image store *)

(** [register_new_image], lines 238-259: the allocation of the slot and the
    installation of the received image, under [arr_mutex]. *)
Definition register_new_image_store : M unit :=
  sem_wait arr_mutex ;;
  modify (fun s => set_image_counter (wrap64 (image_counter s + 1)) s) ;;
  modify (fun s => set_images (realloc (images s) (image_counter s)) s) ;;
  modify (fun s => set_img_semaphores (realloc (img_semaphores s) (image_counter s)) s) ;;
  sem_wait operation_mutex ;;
  modify (fun s => set_wait_op (realloc (wait_op s) (image_counter s)) s) ;;
  n <- gets image_counter ;;
  tbl <- gets wait_op ;;
  tbl' <- store tbl (wrap64 (n - 1)) {| request_ids := []; capacity := 0 |} ;;
  modify (set_wait_op tbl') ;;
  sem_post operation_mutex ;;
  new_img <- recvImage ;;
  n <- gets image_counter ;;
  imgs <- gets images ;;
  imgs' <- store imgs (wrap64 (n - 1)) new_img ;;
  modify (set_images imgs') ;;
  n <- gets image_counter ;;
  img_sem_init (wrap64 (n - 1)) 1%nat ;;
  sem_post arr_mutex.

(** [register_new_image], lines 261-264: the response is filled after
    [arr_mutex] is released. *)
Definition register_new_image_resp (req : request) : M response :=
  n <- gets image_counter ;;
  ret {| resp_req_id := Some (req_id req);
         resp_img_id := Some (wrap64 (n - 1));
         resp_ack := Some RESP_COMPLETED |}.

(** A response sent under [conn_socket_mutex] (lines 266-268, 347-349,
    574-576). *)
Definition send_response (resp : response) : M unit :=
  sem_wait conn_socket_mutex ;;
  send (SentResponse resp) ;;
  sem_post conn_socket_mutex.

Definition register_new_image (req : request) : M unit :=
  register_new_image_store ;;
  resp <- register_new_image_resp req ;;
  send_response resp.

(** The [switch] of [worker_main], lines 308-324: it has no [default], an
    operation code outside the five transformations leaves [img] as it
    is. *)
Definition image_op (op : img_opcode) (img : image) : image :=
  match op with
  | IMG_ROT90CLKW => rotate90Clockwise img
  | IMG_BLUR => blurImage img
  | IMG_SHARPEN => sharpenImage img
  | IMG_VERTEDGES => detectVerticalEdges img
  | IMG_HORIZEDGES => detectHorizontalEdges img
  | _ => img
  end.

(** [worker_main], lines 326-337: the result is published under [arr_mutex];
    the value returned is the local [img_id] after the block. *)
Definition publish (r : request) (img_id_l : Z) (img : image) : M Z :=
  if img_opcode_eqb (img_op r) IMG_RETRIEVE then ret img_id_l
  else
    sem_wait arr_mutex ;;
    new_id <-
      (if negb (overwrite r =? 0) then
         imgs <- gets images ;;
         imgs' <- store imgs img_id_l img ;;
         modify (set_images imgs') ;;
         ret img_id_l
       else
         n <- gets image_counter ;;
         modify (set_image_counter (wrap64 (n + 1))) ;;
         modify (fun s => set_images (realloc (images s) (image_counter s)) s) ;;
         imgs <- gets images ;;
         imgs' <- store imgs n img ;;
         modify (set_images imgs') ;;
         ret n) ;;
    sem_post arr_mutex ;;
    ret new_id.

(** ** The worker thread ([worker_main])

    A step of a thread is one statement of the source that touches the
    shared state, with the statements on locals around it. The body of a
    function that runs under one of the global mutexes from its first to its
    last statement ([add_to_queue], [get_from_queue], [dump_queue_status], a
    [sem_wait]/[sem_post] pair around one block) is one step. The program
    counter names the lines of [server_mimg.c] that the next step runs.
    The pointer [img_array] of line 290 is the entry of the image in the
    ordering table as it is when the pointer is used. *)

Inductive worker_pc :=
| W_alive             (* 278-279 *)
| W_loop              (* 281 *)
| W_get               (* 282-287 *)
| W_sem_wait          (* 289 *)
| W_turn_test         (* 290-291 *)
| W_turn_post         (* 292 *)
| W_turn_wait         (* 293 *)
| W_turn_take         (* 296-299 *)
| W_stamp_start       (* 301 *)
| W_process           (* 303-324 *)
| W_publish           (* 326-337 *)
| W_sem_post          (* 338 *)
| W_stamp_completion  (* 340-345 *)
| W_respond           (* 347-349 *)
| W_payload           (* 352-360 *)
| W_trace             (* 362-369 *)
| W_dump              (* 371 *)
| W_exit.             (* 374 *)

(** The parameters and the locals of a worker. The locals are assigned
    before they are read; their initial value is immaterial. *)
Record worker := mk_worker {
  w_pc : worker_pc;
  worker_id : Z;
  worker_done : Z;
  w_req : request_meta;
  w_img_id : Z;
  w_img : option image;
  w_resp : response
}.

Definition w_at (pc : worker_pc) (w : worker) : worker :=
  mk_worker pc (worker_id w) (worker_done w) (w_req w) (w_img_id w) (w_img w)
    (w_resp w).
Definition set_w_req (r : request_meta) (w : worker) : worker :=
  mk_worker (w_pc w) (worker_id w) (worker_done w) r (w_img_id w) (w_img w)
    (w_resp w).
Definition set_w_img_id (i : Z) (w : worker) : worker :=
  mk_worker (w_pc w) (worker_id w) (worker_done w) (w_req w) i (w_img w)
    (w_resp w).
Definition set_w_img (i : option image) (w : worker) : worker :=
  mk_worker (w_pc w) (worker_id w) (worker_done w) (w_req w) (w_img_id w) i
    (w_resp w).
Definition set_w_resp (r : response) (w : worker) : worker :=
  mk_worker (w_pc w) (worker_id w) (worker_done w) (w_req w) (w_img_id w)
    (w_img w) r.

Definition set_start_timestamp (t : timespec) (r : request_meta) : request_meta :=
  mk_request_meta (request_of r) (receipt_timestamp r) (Some t)
    (completion_timestamp r).
Definition set_completion_timestamp (t : timespec) (r : request_meta) : request_meta :=
  mk_request_meta (request_of r) (receipt_timestamp r) (start_timestamp r)
    (Some t).

(** The condition of the loop of the turn gate (line 291). *)
Definition not_my_turn (img_array : img_req_array) (rid : Z) : bool :=
  (0 <? count img_array) && negb (hd 0 (request_ids img_array) =? rid).

(** Lines 296-299: the head of the ordering sequence is removed;
    [memmove] of [(count - 1) * 8] bytes with [count = 0] is out of any
    bound. *)
Definition turn_take (i : Z) : M unit :=
  sem_wait operation_mutex ;;
  tbl <- gets wait_op ;;
  img_array <- defined (slot_at tbl i) ;;
  match request_ids img_array with
  | [] => undefined
  | _ :: rest =>
      modify (set_wait_op
                (slot_set tbl i
                   (Some {| request_ids := rest; capacity := capacity img_array |})))
  end ;;
  sem_post operation_mutex.

(** Lines 343-345. *)
Definition completed_response (r : request) (img_id_l : Z) : response :=
  {| resp_req_id := Some (req_id r);
     resp_img_id := Some img_id_l;
     resp_ack := Some RESP_COMPLETED |}.

(** Lines 362-369: the worker ID and the overwrite flag are printed with
    [%d], the request ID and the two image IDs with [%ld]. *)
Definition worker_trace (w : worker) : line :=
  let r := request_of (w_req w) in
  LineT (worker_id w) (as_long (req_id r)) (req_timestamp r) (img_op r)
    (overwrite r) (as_long (img_id r)) (as_long (w_img_id w))
    (receipt_timestamp (w_req w))
    (start_timestamp (w_req w)) (completion_timestamp (w_req w)).

Definition worker_step (w : worker) : M worker :=
  let r := request_of (w_req w) in
  match w_pc w with
  | W_alive =>
      _ <- clock_gettime ;;
      sync_printf (LineInfo "[#WORKER#] Worker Thread Alive!") ;;
      ret (w_at W_loop w)
  | W_loop =>
      ret (w_at (if worker_done w =? 0 then W_get else W_exit) w)
  | W_get =>
      req <- get_from_queue ;;
      let w := set_w_img_id (img_id (request_of req)) (set_w_req req w) in
      ret (w_at (if worker_done w =? 0 then W_sem_wait else W_exit) w)
  | W_sem_wait =>
      img_sem_wait (w_img_id w) ;;
      ret (w_at W_turn_test w)
  | W_turn_test =>
      tbl <- gets wait_op ;;
      img_array <- defined (slot_at tbl (w_img_id w)) ;;
      ret (w_at (if not_my_turn img_array (req_id r)
                 then W_turn_post else W_turn_take) w)
  | W_turn_post =>
      img_sem_post (w_img_id w) ;;
      ret (w_at W_turn_wait w)
  | W_turn_wait =>
      img_sem_wait (w_img_id w) ;;
      ret (w_at W_turn_test w)
  | W_turn_take =>
      turn_take (w_img_id w) ;;
      ret (w_at W_stamp_start w)
  | W_stamp_start =>
      t <- clock_gettime ;;
      ghost (EvStart r t) ;;
      ret (w_at W_process (set_w_req (set_start_timestamp t (w_req w)) w))
  | W_process =>
      imgs <- gets images ;;
      img <- defined (slot_at imgs (w_img_id w)) ;;
      ret (w_at W_publish (set_w_img (Some (image_op (img_op r) img)) w))
  | W_publish =>
      match w_img w with
      | None => undefined
      | Some img =>
          new_id <- publish r (w_img_id w) img ;;
          ret (w_at W_sem_post (set_w_img_id new_id w))
      end
  | W_sem_post =>
      img_sem_post (w_img_id w) ;;
      ret (w_at W_stamp_completion w)
  | W_stamp_completion =>
      t <- clock_gettime ;;
      ret (w_at W_respond
             (set_w_resp (completed_response r (w_img_id w))
                (set_w_req (set_completion_timestamp t (w_req w)) w)))
  | W_respond =>
      send_response (w_resp w) ;;
      ret (w_at (if img_opcode_eqb (img_op r) IMG_RETRIEVE
                 then W_payload else W_trace) w)
  | W_payload =>
      sem_wait conn_socket_mutex ;;
      match w_img w with
      | None => undefined
      | Some img => send (SentImage img)
      end ;;
      sem_post conn_socket_mutex ;;
      ret (w_at W_trace w)
  | W_trace =>
      sync_printf (worker_trace w) ;;
      ret (w_at W_dump w)
  | W_dump =>
      dump_queue_status ;;
      ret (w_at W_loop w)
  | W_exit => blocked
  end.

(** [n] steps of a worker with no step of another thread in between. *)
Fixpoint worker_steps (n : nat) (w : worker) : M worker :=
  match n with
  | O => ret w
  | S n' =>
      w' <- worker_step w ;;
      worker_steps n' w'
  end.

(** ** The dispatcher thread ([handle_connection]) *)

Inductive dispatcher_pc :=
| D_recv              (* 535-545 *)
| D_reg_start         (* 546 *)
| D_reg_store         (* 548: 238-259 *)
| D_reg_resp          (* 548: 261-264 *)
| D_reg_send          (* 548: 266-268 *)
| D_reg_completion    (* 550 *)
| D_reg_trace         (* 552-560 *)
| D_reg_dump          (* 562-563 *)
| D_add               (* 566-569 *)
| D_rej_send          (* 570-576 *)
| D_rej_trace         (* 578-582 *)
| D_teardown          (* 587-592 *)
| D_done.

(** The locals of the dispatcher. [req] points to memory that [malloc]
    returns uninitialised (line 532): [d_req_read] tells whether a header
    has been read into [req->request]. *)
Record dispatcher := mk_dispatcher {
  d_pc : dispatcher_pc;
  d_workers : Z;              (* conn_params.workers *)
  d_req : request_meta;       (* *req *)
  d_req_read : bool;
  d_resp : response
}.

Definition d_at (pc : dispatcher_pc) (d : dispatcher) : dispatcher :=
  mk_dispatcher pc (d_workers d) (d_req d) (d_req_read d) (d_resp d).
Definition set_d_req (r : request_meta) (d : dispatcher) : dispatcher :=
  mk_dispatcher (d_pc d) (d_workers d) r (d_req_read d) (d_resp d).
Definition set_d_req_read (b : bool) (d : dispatcher) : dispatcher :=
  mk_dispatcher (d_pc d) (d_workers d) (d_req d) b (d_resp d).
Definition set_d_resp (r : response) (d : dispatcher) : dispatcher :=
  mk_dispatcher (d_pc d) (d_workers d) (d_req d) (d_req_read d) r.

Definition set_request_of (r : request) (m : request_meta) : request_meta :=
  mk_request_meta r (receipt_timestamp m) (start_timestamp m)
    (completion_timestamp m).
Definition set_receipt_timestamp (t : timespec) (m : request_meta) : request_meta :=
  mk_request_meta (request_of m) (Some t) (start_timestamp m)
    (completion_timestamp m).

(** Lines 570-573: [struct response resp;] then the assignments of [req_id]
    and [ack]; [img_id] is not assigned. *)
Definition rejected_response (r : request) : response :=
  {| resp_req_id := Some (req_id r);
     resp_img_id := resp_img_id response_decl;
     resp_ack := Some RESP_REJECTED |}.

(** Lines 578-582: the request ID is printed with [%ld]. *)
Definition rejection_trace (m : request_meta) : line :=
  LineX (as_long (req_id (request_of m))) (req_timestamp (request_of m))
    (req_length (request_of m)) (receipt_timestamp m).

(** Lines 552-560: the number of workers, the request ID and the two image
    IDs are printed with [%ld], the overwrite flag with [%d]. *)
Definition register_trace (d : dispatcher) (n : Z) : line :=
  let r := request_of (d_req d) in
  LineT (as_long (d_workers d)) (as_long (req_id r)) (req_timestamp r)
    (img_op r) (overwrite r) (as_long (img_id r)) (as_long (wrap64 (n - 1)))
    (receipt_timestamp (d_req d))
    (start_timestamp (d_req d)) (completion_timestamp (d_req d)).

(** The loop of [handle_connection] (lines 535-586), a statement at a time.
    At [D_recv], after a failed [recv] the test of [in_bytes] passes, and the
    request last read, still in [*req], is processed once more, with a new
    receipt timestamp. When no header has been read yet, the code branches on
    the uninitialised [req->request.img_op]: the use of an uninitialised
    object, to which the model gives no meaning. *)
Definition dispatcher_step (d : dispatcher) : M dispatcher :=
  let r := request_of (d_req d) in
  match d_pc d with
  | D_recv =>
      got <- recv_request ;;
      t <- clock_gettime ;;
      let d := match got with
               | RecvRequest r' =>
                   set_d_req_read true (set_d_req (set_request_of r' (d_req d)) d)
               | _ => d
               end in
      let d := set_d_req (set_receipt_timestamp t (d_req d)) d in
      if in_bytes_positive got then
        if d_req_read d then
          ret (d_at (if img_opcode_eqb (img_op (request_of (d_req d))) IMG_REGISTER
                     then D_reg_start else D_add) d)
        else undefined
      else ret (d_at D_teardown d)
  | D_reg_start =>
      t <- clock_gettime ;;
      ret (d_at D_reg_store (set_d_req (set_start_timestamp t (d_req d)) d))
  | D_reg_store =>
      register_new_image_store ;;
      ret (d_at D_reg_resp d)
  | D_reg_resp =>
      resp <- register_new_image_resp r ;;
      ret (d_at D_reg_send (set_d_resp resp d))
  | D_reg_send =>
      send_response (d_resp d) ;;
      ret (d_at D_reg_completion d)
  | D_reg_completion =>
      t <- clock_gettime ;;
      ret (d_at D_reg_trace (set_d_req (set_completion_timestamp t (d_req d)) d))
  | D_reg_trace =>
      n <- gets image_counter ;;
      sync_printf (register_trace d n) ;;
      ret (d_at D_reg_dump d)
  | D_reg_dump =>
      dump_queue_status ;;
      ret (d_at D_recv d)
  | D_add =>
      res <- add_to_queue (d_req d) ;;
      (if res =? 0 then ghost (EvAdmit r) else ret tt) ;;
      ret (d_at (if res =? 0 then D_recv else D_rej_send) d)
  | D_rej_send =>
      let resp := rejected_response r in
      send_response resp ;;
      ret (d_at D_rej_trace (set_d_resp resp d))
  | D_rej_trace =>
      sync_printf (rejection_trace (d_req d)) ;;
      ret (d_at D_recv d)
  | D_teardown =>
      sync_printf (LineInfo "INFO: Client disconnected.") ;;
      ret (d_at D_done d)
  | D_done => blocked
  end.

(** ** The threads together

    The state of the program is the shared state and the locals of the
    dispatcher and of the workers. A schedule names the thread that takes
    each step, and tells where the time passes: at a [Tick] the clock
    advances by one nanosecond. The executions of the program are the runs
    of its schedules. After the teardown of the connection [main] returns
    and the process ends: no thread steps any more. *)

Record machine := mk_machine {
  sh : shared;
  disp : dispatcher;
  pool : list worker
}.

Inductive tid :=
| Dispatcher
| Worker (i : nat)
| Tick.

Definition lift {A} (r : result (A * shared)) (k : A -> shared -> machine) :
  result machine :=
  match r with
  | Done (a, s) => Done (k a s)
  | Blocked => Blocked
  | Undefined => Undefined
  end.

Definition step (t : tid) (m : machine) : result machine :=
  match d_pc (disp m) with
  | D_done => Blocked
  | _ =>
      match t with
      | Dispatcher =>
          lift (dispatcher_step (disp m) (sh m))
            (fun d s => mk_machine s d (pool m))
      | Worker i =>
          match pool m !! i with
          | None => Blocked
          | Some w =>
              lift (worker_step w (sh m))
                (fun w' s => mk_machine s (disp m) (<[i := w']> (pool m)))
          end
      | Tick =>
          Done (mk_machine (set_clock (clock (sh m) + 1) (sh m)) (disp m) (pool m))
      end
  end.

Fixpoint run (sched : list tid) (m : machine) : result machine :=
  match sched with
  | [] => Done m
  | t :: rest =>
      match step t m with
      | Done m' => run rest m'
      | Blocked => Blocked
      | Undefined => Undefined
      end
  end.

(** The state when [handle_connection] enters its loop: [main] has
    initialised the global semaphores, the image store is empty, the queue
    is initialised and the workers are started. No header has been read
    into [*req]: [request_meta0] stands for its uninitialised content, which
    the code does not read before a [recv] has succeeded, unless the first
    [recv] fails. *)
Definition request0 : request :=
  mk_request 0 (mk_timespec 0 0) (mk_timespec 0 0) (IMG_UNKNOWN 0) 0 0.
Definition request_meta0 : request_meta :=
  mk_request_meta request0 None None None.

Definition worker_init (i : nat) : worker :=
  mk_worker W_alive (Z.of_nat i) 0 request_meta0 0 None response_decl.

Definition init (queue_size n_workers : Z) (pol : queue_policy)
    (input : list packet) : machine :=
  {| sh := {| the_queue := queue_init queue_size pol;
              sems := mk_semaphores 1 0 1 1 1 1;
              images := [];
              image_counter := 0;
              img_semaphores := [];
              wait_op := [];
              clock := 0;
              inbound := input;
              outbound := [];
              stdout := [];
              events := [] |};
     disp := mk_dispatcher D_recv n_workers request_meta0 false response_decl;
     pool := map worker_init (seq 0 (Z.to_nat n_workers)) |}.

(** ** Sequences of admissions and extractions

    The queue driven by one thread: the requests of a list are offered to
    [add_to_queue] in order, then [n] entries are extracted. *)

Fixpoint admit_all (rs : list request_meta) : M (list Z) :=
  match rs with
  | [] => ret []
  | r :: rest =>
      v <- add_to_queue r ;;
      vs <- admit_all rest ;;
      ret (v :: vs)
  end.

Fixpoint extract_n (n : nat) : M (list request_meta) :=
  match n with
  | O => ret []
  | S n' =>
      r <- get_from_queue ;;
      rs <- extract_n n' ;;
      ret (r :: rs)
  end.

(** ** The command line ([main], lines 599-649) *)

Record connection_params := mk_connection_params {
  queue_size : Z;
  workers : Z;
  conn_queue_policy : queue_policy
}.

Definition EXIT_SUCCESS : Z := 0.
Definition EXIT_FAILURE : Z := 1.

Section Main.

(** [strtol(_, NULL, 10)] of the C library. *)
Variable strtol : string -> Z.

(** The loop over the options: [getopt] hands over the option character
    and its argument; for a character that is not an option it hands over
    '?'. The result is the parameters of the connection, or the exit status
    of [main] when the loop returns from it. *)
Fixpoint parse_options (opts : list (ascii * string)) (p : connection_params) :
    connection_params + Z :=
  match opts with
  | [] => inl p
  | (opt, optarg) :: rest =>
      if Ascii.eqb opt "q" then
        parse_options rest
          (mk_connection_params (wrap64 (strtol optarg)) (workers p)
             (conn_queue_policy p))
      else if Ascii.eqb opt "w" then
        parse_options rest
          (mk_connection_params (queue_size p) (wrap64 (strtol optarg))
             (conn_queue_policy p))
      else if Ascii.eqb opt "p" then
        if String.eqb optarg "FIFO" then
          parse_options rest
            (mk_connection_params (queue_size p) (workers p) QUEUE_FIFO)
        else inr EXIT_FAILURE
      else parse_options rest p
  end.

(** [main] up to the creation of the socket: the parameters of the
    connection and the port, or the exit status. *)
Definition main_arguments (opts : list (ascii * string)) (positional : list string) :
    (connection_params * Z) + Z :=
  match parse_options opts (mk_connection_params 0 1 QUEUE_FIFO) with
  | inr status => inr status
  | inl p =>
      if queue_size p =? 0 then inr EXIT_FAILURE
      else
        match positional with
        | port :: _ => inl (p, strtol port mod 2 ^ 16)
        | [] => inr EXIT_FAILURE
        end
  end.

End Main.

End Server.

End Hw7.

(** * The FIFO/SJN server ([hw5_src/server_pol.c]) *)

Module Hw5.

Section Server.

(** The macro [TSPEC_TO_DOUBLE] of the time library is not among the
    sources: the type of its values and their comparisons are parameters.
    [double_lt] is [<] and [double_is_zero] is [== 0] on these values. *)
Variable double : Type.
Variable TSPEC_TO_DOUBLE : timespec -> double.
Variable double_lt : double -> double -> bool.
Variable double_is_zero : double -> bool.

(** The global [int QUEUE_SIZE], set by [main] from the [-q] option before
    the connection is handled. *)
Variable QUEUE_SIZE : Z.

Definition QUEUE_MAX : Z := 1500.

Record request_meta := mk_request_meta {
  req : request;
  reciept : option timespec
}.

Record queue := mk_queue {
  head : Z;
  tail : Z;
  items : list (option request_meta);
  size : Z
}.

Record shared := mk_shared {
  the_queue : queue;
  queue_mutex : nat;
  queue_notify : nat;
  stdout : list string
}.

#[local] Abbreviation M := (SM shared).

Definition set_the_queue (q : queue) (s : shared) : shared :=
  mk_shared q (queue_mutex s) (queue_notify s) (stdout s).
Definition set_queue_mutex (n : nat) (s : shared) : shared :=
  mk_shared (the_queue s) n (queue_notify s) (stdout s).
Definition set_queue_notify (n : nat) (s : shared) : shared :=
  mk_shared (the_queue s) (queue_mutex s) n (stdout s).

Definition sem_wait_mutex : M unit :=
  fun s =>
    match queue_mutex s with
    | O => Blocked
    | S n => Done (tt, set_queue_mutex n s)
    end.
Definition sem_post_mutex : M unit :=
  modify (fun s => set_queue_mutex (S (queue_mutex s)) s).
Definition sem_wait_notify : M unit :=
  fun s =>
    match queue_notify s with
    | O => Blocked
    | S n => Done (tt, set_queue_notify n s)
    end.
Definition sem_post_notify : M unit :=
  modify (fun s => set_queue_notify (S (queue_notify s)) s).

Definition printf (msg : string) : M unit :=
  modify (fun s => mk_shared (the_queue s) (queue_mutex s) (queue_notify s)
                     (stdout s ++ [msg])).

(** [a % b] on [int]: the remainder of the division that truncates; the
    values of the queue stay far from the bounds of [int]. *)
Definition imod (a b : Z) : M Z :=
  if b =? 0 then undefined else ret (Z.rem a b).

(** [items[i] = x] within the [QUEUE_MAX] slots of the array. *)
Definition store_item (a : list (option request_meta)) (i : Z) (x : request_meta) :
    M (list (option request_meta)) :=
  match slot_at a i with
  | Some _ => ret (slot_set a i (Some x))
  | None => undefined
  end.

Definition add_to_queue (to_add : request_meta) : M Z :=
  sem_wait_mutex ;;
  q <- gets the_queue ;;
  next_write <- imod (tail q + 1) QUEUE_SIZE ;;
  retval <-
    (if next_write =? head q then ret (-1)
     else
       (if size q =? 0 then
          a <- store_item (items q) 0 to_add ;;
          modify (set_the_queue (mk_queue 0 0 a (size q + 1))) ;;
          ret 0
        else
          a <- store_item (items q) next_write to_add ;;
          tl <- imod (tail q + 1) QUEUE_SIZE ;;
          modify (set_the_queue (mk_queue (head q) tl a (size q + 1))) ;;
          ret 0) ;;
       sem_post_notify ;;
       ret 0) ;;
  sem_post_mutex ;;
  ret retval.

(** The emptied queue gets its positions reset (lines 155-157, 180-182). *)
Definition reset_if_empty (q : queue) : queue :=
  if size q =? 0 then mk_queue (-1) (-1) (items q) (size q) else q.

(** The first loop of [sjn_get_from_queue] (lines 141-148), [n] iterations
    from the counter [i]: the index and the length of the shortest request
    seen. *)
Fixpoint sjn_scan (n : nat) (i : Z) (q : queue) (ind_sjn : Z) (length_sjn : double) :
    M (Z * double) :=
  match n with
  | O => ret (ind_sjn, length_sjn)
  | S n' =>
      index <- imod (head q + i) QUEUE_SIZE ;;
      e <- defined (slot_at (items q) index) ;;
      let cur_length := TSPEC_TO_DOUBLE (req_length (req e)) in
      if double_lt cur_length length_sjn
      then sjn_scan n' (i + 1) q index cur_length
      else sjn_scan n' (i + 1) q ind_sjn length_sjn
  end.

(** The second loop (lines 150-152): from the slot [i] back to the head,
    every slot takes the entry of the slot before it. The counter runs
    through the residues of [QUEUE_SIZE]: the loop that has not met the head
    after [QUEUE_SIZE] iterations never does, and does not return. *)
Fixpoint sjn_shift (fuel : nat) (i : Z) (hd : Z) (a : list (option request_meta)) :
    M (list (option request_meta)) :=
  if i =? hd then ret a
  else
    match fuel with
    | O => blocked
    | S fuel' =>
        prev <- imod (i - 1 + QUEUE_SIZE) QUEUE_SIZE ;;
        e <- defined (slot_at a prev) ;;
        a' <- store_item a i e ;;
        sjn_shift fuel' prev hd a'
    end.

(** The value returned is [None] when [retval] is returned as declared,
    without a value (the queue was empty). *)
Definition sjn_get_from_queue : M (option request_meta) :=
  sem_wait_notify ;;
  sem_wait_mutex ;;
  q <- gets the_queue ;;
  retval <-
    (if size q =? 0 then
       printf "Error: empty queue" ;;
       ret None
     else
       first <- defined (slot_at (items q) (head q)) ;;
       found <- sjn_scan (Z.to_nat (size q)) 0 q (head q)
                  (TSPEC_TO_DOUBLE (req_length (req first))) ;;
       let ind_sjn := fst found in
       retval <- defined (slot_at (items q) ind_sjn) ;;
       a <- sjn_shift (Z.to_nat QUEUE_SIZE) ind_sjn (head q) (items q) ;;
       hd <- imod (head q + 1) QUEUE_SIZE ;;
       modify (set_the_queue
                 (reset_if_empty (mk_queue hd (tail q) a (size q - 1)))) ;;
       (if double_is_zero (TSPEC_TO_DOUBLE (req_length (req retval)))
        then printf "Error: length of the request is equal to 0"
        else ret tt) ;;
       ret (Some retval)) ;;
  sem_post_mutex ;;
  ret retval.

Definition fifo_get_from_queue : M (option request_meta) :=
  sem_wait_notify ;;
  sem_wait_mutex ;;
  q <- gets the_queue ;;
  retval <-
    (if size q =? 0 then
       printf "ERROR: TRIED TO GET FROM EMPTY QUEUE" ;;
       ret None
     else
       retval <- defined (slot_at (items q) (head q)) ;;
       hd <- imod (head q + 1) QUEUE_SIZE ;;
       modify (set_the_queue
                 (reset_if_empty (mk_queue hd (tail q) (items q) (size q - 1)))) ;;
       ret (Some retval)) ;;
  sem_post_mutex ;;
  ret retval.

(** The queue of a connection before the first request
    ([handle_connection], lines 259-262); the slots of [items] are
    uninitialised. *)
Definition queue_start : queue :=
  mk_queue (-1) (-1) (replicate (Z.to_nat QUEUE_MAX) None) 0.

End Server.

End Hw5.

(** * The single image server ([hw6_src/server_img.c]) *)

Module Hw6.

(** The response to a request that is not admitted ([handle_connection],
    lines 338-343): [struct response rej_res;] and the assignments of its
    three fields; [ack = 1] is [RESP_REJECTED]. *)
Definition rejected_response (r : request) : response :=
  {| resp_req_id := Some (req_id r);
     resp_img_id := Some (img_id r);
     resp_ack := Some RESP_REJECTED |}.

End Hw6.

(** * The time library ([hw1_src/src/timelib.c])

    [worker_main] of [server_pol.c] serves a request by
    [get_elapsed_busywait]; [time_t] and [long] values are integers in [Z],
    the times of a run stay far from the bounds of the types. *)

Module Timelib.

(** The macro [NANO_IN_SEC] of [timelib.h], which is not among the sources:
    the number of nanoseconds in a second. *)
Definition NANO_IN_SEC : Z := 10 ^ 9.

(** [timespec_add(&a, &b)]: the value of [a] afterwards. [/] and [%] on
    [long] truncate. *)
Definition timespec_add (a b : timespec) : timespec :=
  let addl_seconds := tv_sec b in
  let nsec := tv_nsec a + tv_nsec b in
  if NANO_IN_SEC <? nsec then
    {| tv_sec := tv_sec a + (addl_seconds + Z.quot nsec NANO_IN_SEC);
       tv_nsec := Z.rem nsec NANO_IN_SEC |}
  else
    {| tv_sec := tv_sec a + addl_seconds; tv_nsec := nsec |}.

Definition timespec_cmp (a b : timespec) : Z :=
  if (tv_sec a =? tv_sec b) && (tv_nsec a =? tv_nsec b) then 0
  else if (tv_sec b <? tv_sec a)
          || ((tv_sec a =? tv_sec b) && (tv_nsec b <? tv_nsec a)) then 1
  else -1.

(** The environment of [get_elapsed_busywait]: the values that the
    successive calls of [clock_gettime(CLOCK_MONOTONIC, _)] return, and
    those that the successive readings of the cycle counter return
    ([get_clocks], a macro of [timelib.h] that is not among the sources). A
    call with no value left does not return. *)
Record env := mk_env {
  times : list timespec;
  cycles : list Z
}.

Definition clock_gettime : SM env timespec :=
  fun e =>
    match times e with
    | [] => Blocked
    | t :: rest => Done (t, mk_env rest (cycles e))
    end.

Definition get_clocks : SM env Z :=
  fun e =>
    match cycles e with
    | [] => Blocked
    | c :: rest => Done (c, mk_env (times e) rest)
    end.

(** The loop of lines 47-49, on the readings of the clock to come: the
    last reading and the readings left, if the loop ends. *)
Fixpoint busywait_loop (end_ begin : timespec) (readings : list timespec) :
    option (timespec * list timespec) :=
  if 0 <? timespec_cmp end_ begin then
    match readings with
    | [] => None
    | t :: rest => busywait_loop end_ t rest
    end
  else Some (begin, readings).

Definition get_elapsed_busywait (sec nsec : Z) : SM env Z :=
  begin <- clock_gettime ;;
  before <- get_clocks ;;
  let end_ := timespec_add (mk_timespec sec nsec) begin in
  _ <- (fun e =>
          match busywait_loop end_ begin (times e) with
          | None => Blocked
          | Some (b, rest) => Done (b, mk_env rest (cycles e))
          end) ;;
  after <- get_clocks ;;
  ret (wrap64 (after - before)).

End Timelib.

(** A term model of the image library, used to run the servers on concrete
    inputs: an uploaded image is named by a number, an operation is recorded
    on top of its argument. *)
Inductive sym_image :=
| Uploaded (n : Z)
| Applied (op : img_opcode) (i : sym_image).

Definition sym_imglib : imglib := {|
  image := sym_image;
  rotate90Clockwise := Applied IMG_ROT90CLKW;
  blurImage := Applied IMG_BLUR;
  sharpenImage := Applied IMG_SHARPEN;
  detectVerticalEdges := Applied IMG_VERTEDGES;
  detectHorizontalEdges := Applied IMG_HORIZEDGES
|}.

(** * Properties *)

(** ** Machine integers, arrays, timestamps *)

Lemma wrap64_small z : 0 <= z < 2 ^ 64 -> wrap64 z = z.
Proof. intros H. unfold wrap64. now apply Z.mod_small. Qed.

Lemma length_realloc {A} (a : list (option A)) n :
  length (realloc a n) = Z.to_nat n.
Proof. unfold realloc. rewrite length_app, length_take, length_replicate. lia. Qed.

Lemma realloc_lookup_old {A} (a : list (option A)) n (i : nat) :
  (i < length a)%nat -> (i < Z.to_nat n)%nat -> realloc a n !! i = a !! i.
Proof.
  intros Hi Hn. unfold realloc.
  rewrite lookup_app_l by (rewrite length_take; lia).
  rewrite lookup_take. destruct (decide (i < Z.to_nat n)%nat); [done | lia].
Qed.

Lemma realloc_lookup_new {A} (a : list (option A)) n (i : nat) :
  (length a <= i)%nat -> (i < Z.to_nat n)%nat -> realloc a n !! i = Some None.
Proof.
  intros Hi Hn. unfold realloc.
  rewrite lookup_app_r by (rewrite length_take; lia).
  rewrite length_take. apply lookup_replicate. split; [done | lia].
Qed.



(** ** The bounded queue of [server_mimg.c] *)

Module Hw7Facts.
Import Hw7.

Section Facts.

Context {L : imglib}.

#[local] Arguments slot_at : simpl never.
#[local] Arguments slot_set : simpl never.
#[local] Arguments wrap64 : simpl never.
#[local] Arguments realloc : simpl never.
#[local] Arguments Z.modulo : simpl never.
#[local] Arguments Z.sub : simpl never.
#[local] Arguments Z.add : simpl never.

Lemma slot_at_Some {A} (a : list A) i x :
  slot_at a i = Some x -> 0 <= i /\ (Z.to_nat i < length a)%nat.
Proof.
  unfold slot_at. destruct (0 <=? i) eqn:E; [|discriminate].
  intros H. apply lookup_lt_Some in H. lia.
Qed.

Lemma slot_at_in_range {A} (a : list A) i :
  0 <= i -> (Z.to_nat i < length a)%nat -> exists x, slot_at a i = Some x.
Proof.
  intros H0 H1. unfold slot_at.
  destruct (0 <=? i) eqn:E; [|lia].
  destruct (lookup_lt_is_Some_2 a (Z.to_nat i) H1) as [x Hx]. eauto.
Qed.

Lemma sem_wait_post_id m n v :
  sem_value m v = S n -> sem_update m (S n) (sem_update m n v) = v.
Proof. destruct v, m; simpl; intros ->; reflexivity. Qed.

Lemma sem_value_update m n v : sem_value m (sem_update m n v) = n.
Proof. destruct m; reflexivity. Qed.

Lemma sem_value_update_ne m m' n v :
  m <> m' -> sem_value m (sem_update m' n v) = sem_value m v.
Proof. destruct m, m'; simpl; congruence. Qed.

(** The state after an admission: the request is in the slot at the write
    position, the write position has advanced, one slot less is available,
    the request ID is at the end of the ordering sequence of the target
    image, and the not-empty semaphore is posted once. *)
Definition admitted (to_add : request_meta) (img_arr : img_req_array)
    (s : shared) : shared :=
  let q := the_queue s in
  let r := request_of to_add in
  set_sems (sem_update queue_notify (S (sem_value queue_notify (sems s))) (sems s))
    (set_wait_op
       (slot_set (wait_op s) (img_id r)
          (Some (img_req_array_push img_arr (req_id r))))
       (set_the_queue
          {| wr_pos := (wr_pos q + 1) mod max_size q;
             rd_pos := rd_pos q;
             max_size := max_size q;
             available := available q - 1;
             policy := policy q;
             requests := slot_set (requests q) (wr_pos q) (Some to_add) |}
          s)).

(** C2, rejection: with no slot available [add_to_queue] returns 1 and the
    whole shared state (queue, ordering table, semaphores) is as before. *)
Lemma add_to_queue_full (to_add : request_meta) (s : shared) :
  (0 < sem_value queue_mutex (sems s))%nat ->
  available (the_queue s) = 0 ->
  add_to_queue to_add s = Done (1, s).
Proof.
  intros Hm Ha. unfold add_to_queue, bind, sem_wait, sem_post, gets, modify, ret.
  destruct (sem_value queue_mutex (sems s)) as [|n] eqn:E; [lia|].
  cbn. rewrite Ha. cbn.
  destruct s as [q v ? ? ? ? ? ? ? ? ?], v; cbn in *. subst. reflexivity.
Qed.

(** The queue is a ring of [max_size] slots with its positions and its count
    of free slots in range. *)
Record queue_ok (q : queue) : Prop := {
  ok_max : 0 < max_size q < 2 ^ 64;
  ok_len : length (requests q) = Z.to_nat (max_size q);
  ok_wr : 0 <= wr_pos q < max_size q;
  ok_rd : 0 <= rd_pos q < max_size q;
  ok_avail : 0 <= available q <= max_size q
}.

Lemma add_to_queue_room (to_add : request_meta) (s : shared) img_arr :
  (0 < sem_value queue_mutex (sems s))%nat ->
  (0 < sem_value operation_mutex (sems s))%nat ->
  queue_ok (the_queue s) ->
  available (the_queue s) <> 0 ->
  slot_at (wait_op s) (img_id (request_of to_add)) = Some (Some img_arr) ->
  add_to_queue to_add s = Done (0, admitted to_add img_arr s).
Proof.
  intros Hm Ho [Hmax Hlen Hwr Hrd Hav] Ha Ht.
  unfold add_to_queue, admitted, bind, sem_wait, sem_post, gets, modify,
    modify_queue, store, umod, defined, ret.
  destruct (sem_value queue_mutex (sems s)) as [|n] eqn:E; [lia|].
  cbn. destruct (available (the_queue s) =? 0) eqn:Ea; [lia|].
  destruct (slot_at_in_range (requests (the_queue s)) (wr_pos (the_queue s)))
    as [x Hx]; [lia | lia |].
  rewrite Hx. cbn.
  destruct (max_size (the_queue s) =? 0) eqn:Em; [lia|]. cbn.
  cbn in Ho. destruct (v_operation_mutex (sems s)) as [|k] eqn:Eo; [lia|].
  cbn. rewrite Ht. cbn.
  rewrite !wrap64_small by lia.
  destruct s as [q v ? ? ? ? ? ? ? ? ?], v, q; cbn in *. subst. reflexivity.
Qed.

(** The state after an extraction: the read position has advanced, one more
    slot is available, the not-empty semaphore is taken once. *)
Definition extracted (s : shared) : shared :=
  let q := the_queue s in
  set_sems (sem_update queue_notify (pred (sem_value queue_notify (sems s))) (sems s))
    (set_the_queue
       {| wr_pos := wr_pos q;
          rd_pos := (rd_pos q + 1) mod max_size q;
          max_size := max_size q;
          available := available q + 1;
          policy := policy q;
          requests := requests q |}
       s).

Lemma get_from_queue_head (s : shared) (e : request_meta) :
  (0 < sem_value queue_notify (sems s))%nat ->
  (0 < sem_value queue_mutex (sems s))%nat ->
  queue_ok (the_queue s) ->
  available (the_queue s) < max_size (the_queue s) ->
  slot_at (requests (the_queue s)) (rd_pos (the_queue s)) = Some (Some e) ->
  get_from_queue s = Done (e, extracted s).
Proof.
  intros Hn Hm [Hmax Hlen Hwr Hrd Hav] Ha He.
  unfold get_from_queue, extracted, bind, sem_wait, sem_post, gets, modify,
    modify_queue, umod, defined, ret.
  cbn in Hn, Hm.
  destruct (sem_value queue_notify (sems s)) as [|n] eqn:En; [cbn in En; lia|].
  cbn. destruct (v_queue_mutex (sems s)) as [|k] eqn:Ek; [lia|].
  cbn. rewrite He. cbn.
  destruct (max_size (the_queue s) =? 0) eqn:Em; [lia|]. cbn.
  rewrite !wrap64_small by lia.
  destruct s as [q v ? ? ? ? ? ? ? ? ?], v, q; cbn in *. subst. reflexivity.
Qed.

(** *** The ring as a FIFO sequence *)

(** The slot of the [k]-th live entry, counted from the read position. *)
Definition ring_slot (q : queue) (k : nat) : Z :=
  (rd_pos q + Z.of_nat k) mod max_size q.

(** The queue holds the sequence [l] of requests, oldest first: its live
    span starts at the read position and ends before the write position. *)
Record queue_holds (q : queue) (l : list request_meta) : Prop := {
  holds_ok : queue_ok q;
  holds_avail : available q = max_size q - Z.of_nat (length l);
  holds_wr : wr_pos q = ring_slot q (length l);
  holds_live : forall k e, l !! k = Some e ->
                 slot_at (requests q) (ring_slot q k) = Some (Some e)
}.

Lemma mod_offset_ne m a k n :
  0 < m -> 0 <= k < n -> n < m -> (a + k) mod m <> (a + n) mod m.
Proof.
  intros Hm Hk Hn Heq.
  assert (H : (n - k) mod m = 0).
  { replace (n - k) with ((a + n) - (a + k)) by lia.
    rewrite Zminus_mod, Heq, Z.sub_diag. apply Z.mod_0_l. lia. }
  rewrite Z.mod_small in H by lia. lia.
Qed.

Lemma slot_at_set_eq {A} (a : list A) i x :
  0 <= i -> (Z.to_nat i < length a)%nat -> slot_at (slot_set a i x) i = Some x.
Proof.
  intros H0 H1. unfold slot_at, slot_set.
  destruct (0 <=? i) eqn:E; [|lia]. now apply list_lookup_insert_eq.
Qed.

Lemma slot_at_set_ne {A} (a : list A) i j x :
  0 <= i -> i <> j -> slot_at (slot_set a i x) j = slot_at a j.
Proof.
  intros H0 Hne. unfold slot_at, slot_set.
  destruct (0 <=? j) eqn:E; [|reflexivity]. apply list_lookup_insert_ne. lia.
Qed.

Lemma length_slot_set {A} (a : list A) i x : length (slot_set a i x) = length a.
Proof. unfold slot_set. apply length_insert. Qed.

Lemma queue_init_holds (n : Z) (pol : queue_policy) :
  0 < n < 2 ^ 64 -> queue_holds (queue_init n pol) [].
Proof.
  intros Hn. split; cbn.
  - split; cbn; try lia. now rewrite length_replicate.
  - lia.
  - unfold ring_slot; cbn. now rewrite Z.mod_0_l by lia.
  - intros k e Hk. discriminate.
Qed.

Lemma admitted_holds (to_add : request_meta) img_arr (s : shared) l :
  queue_holds (the_queue s) l ->
  available (the_queue s) <> 0 ->
  queue_holds (the_queue (admitted to_add img_arr s)) (l ++ [to_add]).
Proof.
  intros [[Hmax Hlen Hwr Hrd Hav] Ha Hw Hl] Hne.
  set (q := the_queue s) in *.
  assert (Hlt : Z.of_nat (length l) < max_size q) by lia.
  split; cbn; fold q.
  - split; cbn; try lia.
    + now rewrite length_slot_set.
    + apply Z.mod_pos_bound. lia.
  - rewrite length_app. cbn. lia.
  - unfold ring_slot; cbn. rewrite Hw. unfold ring_slot.
    rewrite length_app; cbn.
    rewrite Nat2Z.inj_add, Z.add_assoc. cbn.
    now rewrite Zplus_mod_idemp_l.
  - intros k e Hk. unfold ring_slot; cbn.
    destruct (decide (k < length l)%nat) as [Hkl|Hkl].
    + rewrite lookup_app_l in Hk by lia.
      rewrite slot_at_set_ne.
      * now apply Hl.
      * lia.
      * rewrite Hw. unfold ring_slot. intros Heq. symmetry in Heq. revert Heq.
        apply mod_offset_ne; lia.
    + assert (k = length l).
      { apply lookup_lt_Some in Hk. rewrite length_app in Hk. cbn in Hk. lia. }
      subst k. rewrite lookup_app_r, Nat.sub_diag in Hk by lia.
      cbn in Hk. injection Hk as <-.
      fold (ring_slot q (length l)). rewrite <- Hw.
      apply slot_at_set_eq; lia.
Qed.

Lemma holds_head (q : queue) e l :
  queue_holds q (e :: l) ->
  slot_at (requests q) (rd_pos q) = Some (Some e) /\ available q < max_size q.
Proof.
  intros [[Hmax Hlen Hwr Hrd Hav] Ha Hw Hl]. split.
  - specialize (Hl 0%nat e eq_refl). unfold ring_slot in Hl.
    cbn in Hl. now rewrite Z.add_0_r, Z.mod_small in Hl by lia.
  - cbn in Ha. lia.
Qed.

Lemma extracted_holds (s : shared) e l :
  queue_holds (the_queue s) (e :: l) ->
  queue_holds (the_queue (extracted s)) l.
Proof.
  intros [[Hmax Hlen Hwr Hrd Hav] Ha Hw Hl].
  set (q := the_queue s) in *. cbn [length] in *.
  assert (Hshift : forall k : nat,
             ((rd_pos q + 1) mod max_size q + Z.of_nat k) mod max_size q
             = ring_slot q (S k)).
  { intros k. unfold ring_slot. rewrite Zplus_mod_idemp_l. f_equal. lia. }
  split; cbn; fold q.
  - split; cbn; try lia. apply Z.mod_pos_bound. lia.
  - lia.
  - unfold ring_slot at 1; cbn. now rewrite Hshift.
  - intros k x Hk. unfold ring_slot at 1; cbn. rewrite Hshift.
    now apply Hl.
Qed.

(** [add_to_queue] returns 1 when no slot is available and in no other
    case, whatever the request. *)
Lemma add_to_queue_result (to_add : request_meta) (s s' : shared) (v : Z) :
  add_to_queue to_add s = Done (v, s') ->
  (available (the_queue s) = 0 /\ v = 1) \/
  (available (the_queue s) <> 0 /\ v = 0).
Proof.
  unfold add_to_queue, bind, sem_wait, sem_post, gets, modify, modify_queue,
    store, umod, defined, ret, undefined.
  destruct (sem_value queue_mutex (sems s)); [discriminate|]. cbn.
  destruct (available (the_queue s) =? 0) eqn:Ea.
  - cbn. intros H. injection H as <- _. left. split; [lia | reflexivity].
  - destruct (slot_at (requests (the_queue s)) (wr_pos (the_queue s)));
      [|discriminate].
    cbn. destruct (max_size (the_queue s) =? 0); [discriminate|]. cbn.
    destruct (v_operation_mutex (sems s)); [discriminate|]. cbn.
    destruct (slot_at (wait_op s) (img_id (request_of to_add))) as [[a|]|];
      try discriminate.
    cbn. intros H. injection H as <- _. right. split; [lia | reflexivity].
Qed.

(** C2. [add_to_queue] on a well-formed queue with its mutexes free. With no
    slot available it returns 1 (rejected) and leaves the shared state, the
    queue and the per-image ordering table included, as it was. Otherwise,
    for a request whose target image has an ordering sequence, it returns 0,
    writes the request at the write position, advances the write position
    modulo the capacity, decrements [available] by one, appends the request
    ID to the ordering sequence of the target image and to no other, and
    posts [queue_notify] once. *)
Theorem add_to_queue_admit_or_reject (to_add : request_meta) (s : shared) :
  (0 < sem_value queue_mutex (sems s))%nat ->
  (0 < sem_value operation_mutex (sems s))%nat ->
  queue_ok (the_queue s) ->
  let q := the_queue s in
  let r := request_of to_add in
  (available q = 0 -> add_to_queue to_add s = Done (1, s)) /\
  (available q <> 0 ->
   forall img_arr,
     slot_at (wait_op s) (img_id r) = Some (Some img_arr) ->
     exists s',
       add_to_queue to_add s = Done (0, s') /\
       slot_at (requests (the_queue s')) (wr_pos q) = Some (Some to_add) /\
       wr_pos (the_queue s') = (wr_pos q + 1) mod max_size q /\
       available (the_queue s') = available q - 1 /\
       rd_pos (the_queue s') = rd_pos q /\
       max_size (the_queue s') = max_size q /\
       (exists arr',
          slot_at (wait_op s') (img_id r) = Some (Some arr') /\
          request_ids arr' = request_ids img_arr ++ [req_id r]) /\
       (forall i, 0 <= i -> i <> img_id r ->
          slot_at (wait_op s') i = slot_at (wait_op s) i) /\
       sem_value queue_notify (sems s') = S (sem_value queue_notify (sems s)) /\
       sem_value queue_mutex (sems s') = sem_value queue_mutex (sems s) /\
       sem_value operation_mutex (sems s') = sem_value operation_mutex (sems s)).
Proof.
  intros Hm Ho Hok q r. subst q r. split.
  - intros Ha. now apply add_to_queue_full.
  - intros Ha img_arr Ht. exists (admitted to_add img_arr s).
    destruct (slot_at_Some _ _ _ Ht) as [Hi0 Hi1].
    pose proof Hok as [Hmax Hlen Hwr Hrd Hav].
    split; [now apply add_to_queue_room|].
    repeat split; cbn; try reflexivity.
    + apply slot_at_set_eq; lia.
    + eexists. split; [apply slot_at_set_eq; assumption|]. reflexivity.
    + intros i Hi Hne. apply slot_at_set_ne; [assumption|congruence].
Qed.

(** C3. [get_from_queue] on a queue that is not empty (the not-empty
    semaphore is available and the mutex is free): it returns the entry at
    the read position, advances the read position by one modulo the
    capacity and increments [available] by one, so that one live entry less
    remains; the remaining entries are the later ones, in their order. *)
Theorem get_from_queue_fifo (s : shared) (l : list request_meta) :
  (0 < sem_value queue_notify (sems s))%nat ->
  (0 < sem_value queue_mutex (sems s))%nat ->
  queue_holds (the_queue s) l ->
  available (the_queue s) < max_size (the_queue s) ->
  let q := the_queue s in
  exists e l' s',
    l = e :: l' /\
    slot_at (requests q) (rd_pos q) = Some (Some e) /\
    get_from_queue s = Done (e, s') /\
    rd_pos (the_queue s') = (rd_pos q + 1) mod max_size q /\
    available (the_queue s') = available q + 1 /\
    max_size (the_queue s') - available (the_queue s')
      = max_size q - available q - 1 /\
    queue_holds (the_queue s') l'.
Proof.
  intros Hn Hm Hh Ha q. subst q.
  destruct l as [|e l'].
  { destruct Hh as [_ Hav _ _]. cbn in Hav. lia. }
  exists e, l', (extracted s).
  destruct (holds_head _ _ _ Hh) as [He _].
  split; [reflexivity|]. split; [exact He|].
  split; [apply get_from_queue_head; try assumption; apply Hh|].
  split; [reflexivity|]. split; [reflexivity|]. split; [cbn; lia|].
  exact (extracted_holds s e l' Hh).
Qed.

(** *** Sequences of admissions and extractions *)

(** The image [i] has an ordering sequence in the table. *)
Definition registered (s : shared) (i : Z) : Prop :=
  exists arr, slot_at (wait_op s) i = Some (Some arr).

Lemma admitted_registered to_add img_arr s i :
  slot_at (wait_op s) (img_id (request_of to_add)) = Some (Some img_arr) ->
  registered s i -> registered (admitted to_add img_arr s) i.
Proof.
  intros Ht [arr Hi]. unfold registered; cbn.
  destruct (slot_at_Some _ _ _ Ht) as [H0 H1].
  destruct (slot_at_Some _ _ _ Hi) as [H2 H3].
  destruct (Z.eq_dec i (img_id (request_of to_add))) as [->|Hne].
  - eexists. now apply slot_at_set_eq.
  - exists arr. rewrite slot_at_set_ne; [assumption..|congruence].
Qed.

Lemma admit_all_holds (rs : list request_meta) : forall (s : shared) l,
  (0 < sem_value queue_mutex (sems s))%nat ->
  (0 < sem_value operation_mutex (sems s))%nat ->
  queue_holds (the_queue s) l ->
  Z.of_nat (length l + length rs) <= max_size (the_queue s) ->
  Forall (fun r => registered s (img_id (request_of r))) rs ->
  exists s',
    admit_all rs s = Done (map (fun _ => 0) rs, s') /\
    queue_holds (the_queue s') (l ++ rs) /\
    sem_value queue_notify (sems s')
      = (sem_value queue_notify (sems s) + length rs)%nat /\
    sem_value queue_mutex (sems s') = sem_value queue_mutex (sems s) /\
    policy (the_queue s') = policy (the_queue s).
Proof.
  induction rs as [|r rs IH]; intros s l Hm Ho Hh Hlen Hreg.
  - exists s. rewrite app_nil_r. cbn.
    split; [reflexivity|]. split; [assumption|]. split; [lia|].
    split; reflexivity.
  - inversion Hreg as [|? ? [arr Hr] Hrest]; subst.
    assert (Ha : available (the_queue s) <> 0).
    { destruct Hh as [_ Hav _ _]. cbn in Hlen. lia. }
    cbn. unfold bind at 1.
    rewrite (add_to_queue_room r s arr) by (try assumption; apply Hh).
    destruct (IH (admitted r arr s) (l ++ [r])) as (s' & Hrun & Hh' & Hn & Hq & Hp).
    + exact Hm.
    + exact Ho.
    + now apply admitted_holds.
    + rewrite length_app. cbn in *. lia.
    + eapply Forall_impl; [exact Hrest|]. intros x Hx.
      now apply admitted_registered.
    + exists s'. rewrite <- app_assoc in Hh'. cbn in Hh'.
      split; [unfold bind; rewrite Hrun; reflexivity|].
      split; [assumption|].
      split; [cbn in Hn |- *; lia|].
      split; [exact Hq | exact Hp].
Qed.

Lemma extract_n_holds (k : nat) : forall (s : shared) l,
  (k <= sem_value queue_notify (sems s))%nat ->
  (0 < sem_value queue_mutex (sems s))%nat ->
  queue_holds (the_queue s) l ->
  (k <= length l)%nat ->
  exists s',
    extract_n k s = Done (take k l, s') /\
    queue_holds (the_queue s') (drop k l).
Proof.
  induction k as [|k IH]; intros s l Hn Hm Hh Hk.
  - exists s. cbn. rewrite drop_0. now split.
  - destruct l as [|e l]; [cbn in Hk; lia|].
    destruct (holds_head _ _ _ Hh) as [He Ha].
    cbn. unfold bind at 1.
    rewrite (get_from_queue_head s e) by (try assumption; try lia; apply Hh).
    destruct (IH (extracted s) l) as (s' & Hrun & Hh').
    + cbn in *. lia.
    + exact Hm.
    + now apply extracted_holds with e.
    + cbn in Hk. lia.
    + exists s'. unfold bind. rewrite Hrun. now split.
Qed.

(** The queue with its policy tag replaced. *)
Definition with_policy (pol : queue_policy) (s : shared) : shared :=
  let q := the_queue s in
  set_the_queue
    (mk_queue (wr_pos q) (rd_pos q) (max_size q) (available q) pol (requests q)) s.

Lemma get_from_queue_policy (pol : queue_policy) (s : shared) :
  get_from_queue (with_policy pol s)
  = match get_from_queue s with
    | Done (e, s') => Done (e, with_policy pol s')
    | Blocked => Blocked
    | Undefined => Undefined
    end.
Proof.
  unfold get_from_queue, bind, sem_wait, sem_post, gets, modify, modify_queue,
    umod, defined, ret.
  cbn. destruct (v_queue_notify (sems s)); [reflexivity|].
  cbn. destruct (v_queue_mutex (sems s)); [reflexivity|].
  cbn. destruct (slot_at (requests (the_queue s)) (rd_pos (the_queue s)))
    as [[e|]|]; try reflexivity.
  cbn. destruct (max_size (the_queue s) =? 0); reflexivity.
Qed.

Lemma parse_options_policy strtol opts : forall p p',
  parse_options strtol opts p = inl p' ->
  conn_queue_policy p = QUEUE_FIFO -> conn_queue_policy p' = QUEUE_FIFO.
Proof.
  induction opts as [|[opt optarg] rest IH]; intros p p' Hp Hq; cbn in Hp.
  - now injection Hp as <-.
  - destruct (Ascii.eqb opt "q"); [now apply IH in Hp|].
    destruct (Ascii.eqb opt "w"); [now apply IH in Hp|].
    destruct (Ascii.eqb opt "p"); [|now apply IH in Hp].
    destruct (String.eqb optarg "FIFO"); [now apply IH in Hp|discriminate].
Qed.

Lemma parse_options_rejects strtol pre : forall p optarg rest,
  optarg <> "FIFO"%string ->
  parse_options strtol (pre ++ ("p"%char, optarg) :: rest) p = inr EXIT_FAILURE.
Proof.
  induction pre as [|[opt a] pre IH]; intros p optarg rest Hne; cbn.
  - destruct (String.eqb_spec optarg "FIFO"); [contradiction|reflexivity].
  - destruct (Ascii.eqb opt "q"); [now apply IH|].
    destruct (Ascii.eqb opt "w"); [now apply IH|].
    destruct (Ascii.eqb opt "p"); [|now apply IH].
    destruct (String.eqb a "FIFO"); [now apply IH|reflexivity].
Qed.

(** C10. The extraction of [server_mimg.c] never consults the policy tag of
    the queue: [get_from_queue] on a queue whose tag is replaced does what it
    does on the queue as it is; whatever the policy the queue was
    initialised with, the requests of an admitted sequence are extracted in
    the order of their admission; and the option loop of [main] accepts for
    [-p] the string FIFO only: any other value, SJN included, makes [main]
    return [EXIT_FAILURE], so that the parameters it hands over always
    carry the FIFO policy. *)
Theorem extraction_ignores_policy :
  (forall pol s,
     get_from_queue (with_policy pol s)
     = match get_from_queue s with
       | Done (e, s') => Done (e, with_policy pol s')
       | Blocked => Blocked
       | Undefined => Undefined
       end) /\
  (forall n pol (rs : list request_meta) (s : shared),
     the_queue s = queue_init n pol ->
     0 < n < 2 ^ 64 ->
     Z.of_nat (length rs) <= n ->
     (0 < sem_value queue_mutex (sems s))%nat ->
     (0 < sem_value operation_mutex (sems s))%nat ->
     Forall (fun r => registered s (img_id (request_of r))) rs ->
     exists s',
       bind (admit_all rs) (fun _ => extract_n (length rs)) s = Done (rs, s')) /\
  (forall strtol pre optarg rest p,
     optarg <> "FIFO"%string ->
     parse_options strtol (pre ++ ("p"%char, optarg) :: rest) p
     = inr EXIT_FAILURE) /\
  (forall strtol pre rest p,
     parse_options strtol (pre ++ ("p"%char, "SJN"%string) :: rest) p
     = inr EXIT_FAILURE) /\
  (forall strtol opts positional p port,
     main_arguments strtol opts positional = inl (p, port) ->
     conn_queue_policy p = QUEUE_FIFO).
Proof.
  split; [exact get_from_queue_policy|].
  split.
  { intros n pol rs s Hq Hn Hlen Hm Ho Hreg.
    pose proof (queue_init_holds n pol Hn) as Hh. rewrite <- Hq in Hh.
    destruct (admit_all_holds rs s [] Hm Ho Hh) as (s1 & Hrun & Hh1 & Hn1 & Hm1 & _).
    - rewrite Hq. cbn. lia.
    - exact Hreg.
    - destruct (extract_n_holds (length rs) s1 rs) as (s2 & Hrun2 & _).
      + lia.
      + lia.
      + exact Hh1.
      + lia.
      + exists s2. unfold bind. rewrite Hrun, Hrun2.
        now rewrite firstn_all. }
  split; [intros strtol pre optarg rest p; apply parse_options_rejects|].
  split; [intros strtol pre rest p; now apply parse_options_rejects|].
  intros strtol opts positional p port. unfold main_arguments.
  destruct (parse_options strtol opts _) as [p'|st] eqn:E; [|discriminate].
  destruct (queue_size p' =? 0); [discriminate|].
  destruct positional; [discriminate|].
  intros H. injection H as <- _.
  now apply (parse_options_policy strtol opts _ _ E).
Qed.

(** ** The image store of [server_mimg.c] *)

(** The store holds [image_counter] images: the array has that many slots
    and all of them are initialised. *)
Record store_ok (s : shared) : Prop := {
  store_counter : 0 <= image_counter s < 2 ^ 64;
  store_length : length (images s) = Z.to_nat (image_counter s);
  store_filled : forall k, (k < length (images s))%nat ->
                   exists img, images s !! k = Some (Some img)
}.

Lemma realloc_snoc {A} (a : list (option A)) n x :
  0 <= n -> length a = Z.to_nat n ->
  slot_set (realloc a (n + 1)) n (Some x) = a ++ [Some x].
Proof.
  intros Hn Hlen. unfold slot_set, realloc.
  rewrite take_ge by lia.
  replace (Z.to_nat (n + 1) - length a)%nat with 1%nat by lia. cbn.
  rewrite insert_app_r_alt by lia.
  now replace (Z.to_nat n - length a)%nat with 0%nat by lia.
Qed.

Lemma slot_at_realloc_last {A} (a : list (option A)) n :
  0 <= n -> exists x, slot_at (realloc a (n + 1)) n = Some x.
Proof.
  intros Hn. apply slot_at_in_range; [assumption|].
  rewrite length_realloc. lia.
Qed.

(** The state after lines 238-259 of [register_new_image]. *)
Definition after_register (img : image) (rest : list packet) (s : shared) : shared :=
  let n := image_counter s in
  set_img_semaphores (slot_set (realloc (img_semaphores s) (n + 1)) n (Some 1%nat))
    (set_images (slot_set (realloc (images s) (n + 1)) n (Some img))
       (set_inbound rest
          (set_wait_op
             (slot_set (realloc (wait_op s) (n + 1)) n
                (Some {| request_ids := []; capacity := 0 |}))
             (set_image_counter (n + 1) s)))).

Lemma register_new_image_store_done (s : shared) img rest :
  (0 < sem_value arr_mutex (sems s))%nat ->
  (0 < sem_value operation_mutex (sems s))%nat ->
  0 <= image_counter s -> image_counter s + 1 < 2 ^ 64 ->
  inbound s = PktImage img :: rest ->
  register_new_image_store s = Done (tt, after_register img rest s).
Proof.
  intros Ha Ho Hn Hn1 Hin.
  unfold register_new_image_store, after_register, img_sem_init, recvImage,
    bind, sem_wait, sem_post, gets, modify, store, ret.
  cbn in Ha, Ho.
  destruct (sem_value arr_mutex (sems s)) as [|a] eqn:Ea; [cbn in Ea; lia|].
  assert (Hw : wrap64 (image_counter s + 1) = image_counter s + 1)
    by (apply wrap64_small; lia).
  assert (Hw1 : wrap64 (image_counter s + 1 - 1) = image_counter s)
    by (rewrite wrap64_small; lia).
  cbn. destruct (v_operation_mutex (sems s)) as [|o] eqn:Eo; [lia|].
  cbn. rewrite ?Hw, ?Hw1.
  destruct (slot_at_realloc_last (wait_op s) _ Hn) as [x1 ->].
  cbn. rewrite Hin. cbn. rewrite ?Hw, ?Hw1.
  destruct (slot_at_realloc_last (images s) _ Hn) as [x2 ->].
  cbn. rewrite ?Hw, ?Hw1.
  destruct (slot_at_realloc_last (img_semaphores s) _ Hn) as [x3 ->].
  cbn.
  destruct s as [q v ? ? ? ? ? ? ? ? ?], v; cbn in *. subst. reflexivity.
Qed.

(** Any run of lines 238-259 that returns has received an image and has
    not wrapped the counter. *)
Lemma register_new_image_store_inv (s s' : shared) :
  0 <= image_counter s < 2 ^ 64 ->
  register_new_image_store s = Done (tt, s') ->
  exists img rest,
    inbound s = PktImage img :: rest /\
    image_counter s + 1 < 2 ^ 64 /\
    s' = after_register img rest s.
Proof.
  intros Hn Hrun.
  assert (Ha : (0 < sem_value arr_mutex (sems s))%nat).
  { unfold register_new_image_store, bind, sem_wait in Hrun.
    destruct (sem_value arr_mutex (sems s)); [discriminate | lia]. }
  assert (Ho : (0 < sem_value operation_mutex (sems s))%nat).
  { unfold register_new_image_store, bind, sem_wait, modify in Hrun.
    cbn in Hrun. cbn.
    destruct (v_arr_mutex (sems s)); [discriminate|]. cbn in Hrun.
    destruct (v_operation_mutex (sems s)); [discriminate | lia]. }
  destruct (Z.eq_dec (image_counter s + 1) (2 ^ 64)) as [Hw|Hw].
  { exfalso.
    unfold register_new_image_store, bind, sem_wait, sem_post, gets, modify,
      store, ret in Hrun.
    cbn in Ha, Ho.
    destruct (sem_value arr_mutex (sems s)) as [|a] eqn:Ea; [cbn in Ea; lia|].
    cbn in Hrun. destruct (v_operation_mutex (sems s)) as [|o]; [lia|].
    cbn in Hrun. rewrite Hw in Hrun.
    change (wrap64 (2 ^ 64)) with 0 in Hrun.
    change (wrap64 (0 - 1)) with (2 ^ 64 - 1) in Hrun.
    assert (Hnone : slot_at (realloc (wait_op s) 0) (2 ^ 64 - 1) = None).
    { destruct (slot_at (realloc (wait_op s) 0) (2 ^ 64 - 1)) eqn:E; [|reflexivity].
      apply slot_at_Some in E. rewrite length_realloc in E. lia. }
    rewrite Hnone in Hrun. discriminate. }
  destruct (inbound s) as [|[r|img|] rest] eqn:Hin.
  1, 2, 4: exfalso; revert Hrun;
    unfold register_new_image_store, recvImage, bind, sem_wait, sem_post,
      gets, modify, store, ret;
    cbn in Ha, Ho;
    (destruct (sem_value arr_mutex (sems s)) as [|a] eqn:Ea; [cbn in Ea; lia|]);
    cbn; (destruct (v_operation_mutex (sems s)) as [|o]; [lia|]);
    cbn; (destruct (slot_at _ _); [|discriminate]); cbn; rewrite Hin;
    discriminate.
  - exists img, rest. split; [reflexivity|]. split; [lia|].
    rewrite (register_new_image_store_done s img rest) in Hrun by (assumption || lia).
    now injection Hrun as <-.
Qed.


(** The state after the append of lines 331-334 of [worker_main]. *)
Definition after_output (img : image) (s : shared) : shared :=
  let n := image_counter s in
  set_images (slot_set (realloc (images s) (n + 1)) n (Some img))
    (set_image_counter (n + 1) s).

Lemma publish_retrieve (r : request) i img (s : shared) :
  img_opcode_eqb (img_op r) IMG_RETRIEVE = true ->
  publish r i img s = Done (i, s).
Proof. intros H. unfold publish. now rewrite H. Qed.

Lemma publish_overwrite (r : request) i img (s : shared) x :
  img_opcode_eqb (img_op r) IMG_RETRIEVE = false ->
  overwrite r <> 0 ->
  (0 < sem_value arr_mutex (sems s))%nat ->
  slot_at (images s) i = Some x ->
  publish r i img s = Done (i, set_images (slot_set (images s) i (Some img)) s).
Proof.
  intros Hop How Ha Hx. unfold publish. rewrite Hop.
  unfold bind, sem_wait, sem_post, gets, modify, store, ret.
  destruct (sem_value arr_mutex (sems s)) as [|a] eqn:Ea; [lia|].
  destruct (overwrite r =? 0) eqn:E; [lia|].
  cbn. rewrite Hx. cbn.
  destruct s as [q v ? ? ? ? ? ? ? ? ?], v; cbn in *. subst. reflexivity.
Qed.

Lemma publish_output (r : request) i img (s : shared) :
  img_opcode_eqb (img_op r) IMG_RETRIEVE = false ->
  overwrite r = 0 ->
  (0 < sem_value arr_mutex (sems s))%nat ->
  0 <= image_counter s -> image_counter s + 1 < 2 ^ 64 ->
  publish r i img s = Done (image_counter s, after_output img s).
Proof.
  intros Hop How Ha Hn Hn1. unfold publish, after_output. rewrite Hop, How.
  unfold bind, sem_wait, sem_post, gets, modify, store, ret.
  destruct (sem_value arr_mutex (sems s)) as [|a] eqn:Ea; [lia|].
  cbn. rewrite wrap64_small by lia.
  destruct (slot_at_realloc_last (images s) _ Hn) as [x ->].
  cbn.
  destruct s as [q v ? ? ? ? ? ? ? ? ?], v; cbn in *. subst. reflexivity.
Qed.

Lemma publish_output_inv (r : request) i img (s s' : shared) id :
  img_opcode_eqb (img_op r) IMG_RETRIEVE = false ->
  overwrite r = 0 ->
  0 <= image_counter s < 2 ^ 64 ->
  publish r i img s = Done (id, s') ->
  image_counter s + 1 < 2 ^ 64 /\ id = image_counter s /\ s' = after_output img s.
Proof.
  intros Hop How Hn Hrun.
  assert (Ha : (0 < sem_value arr_mutex (sems s))%nat).
  { unfold publish in Hrun. rewrite Hop in Hrun.
    unfold bind, sem_wait in Hrun.
    destruct (sem_value arr_mutex (sems s)); [discriminate | lia]. }
  destruct (Z.eq_dec (image_counter s + 1) (2 ^ 64)) as [Hw|Hw].
  - exfalso. revert Hrun. unfold publish. rewrite Hop, How.
    unfold bind, sem_wait, sem_post, gets, modify, store, ret.
    destruct (sem_value arr_mutex (sems s)) as [|a] eqn:Ea; [lia|].
    cbn. rewrite Hw. change (wrap64 (2 ^ 64)) with 0.
    assert (Hnone : slot_at (realloc (images s) 0) (image_counter s) = None).
    { destruct (slot_at (realloc (images s) 0) (image_counter s)) eqn:E;
        [|reflexivity].
      apply slot_at_Some in E. rewrite length_realloc in E. lia. }
    rewrite Hnone. discriminate.
  - rewrite publish_output in Hrun by (assumption || lia).
    injection Hrun as <- <-. split; [lia|]. split; reflexivity.
Qed.

Lemma after_output_store (s : shared) img :
  store_ok s -> image_counter s + 1 < 2 ^ 64 ->
  images (after_output img s) = images s ++ [Some img] /\
  image_counter (after_output img s) = image_counter s + 1 /\
  store_ok (after_output img s).
Proof.
  intros [Hc Hl Hf] Hn.
  assert (Himg : images (after_output img s) = images s ++ [Some img]).
  { cbn. apply realloc_snoc; [lia | exact Hl]. }
  split; [exact Himg|]. split; [reflexivity|].
  split.
  - cbn. lia.
  - rewrite Himg, length_app. cbn. lia.
  - rewrite Himg. intros k Hk. rewrite length_app in Hk. cbn in Hk.
    destruct (decide (k < length (images s))%nat) as [Hlt|Hge].
    + rewrite lookup_app_l by lia. now apply Hf.
    + exists img. rewrite lookup_app_r by lia.
      now replace (k - length (images s))%nat with 0%nat by lia.
Qed.

(** The response of a worker carries the local [img_id] after the
    publication: the target of the request for a RETRIEVE and for an
    operation that overwrites, the length of the store before the append
    otherwise; and a RETRIEVE leaves the shared state as it is. *)
Lemma worker_response_img_id (r : request) (img : image) (s : shared) :
  store_ok s -> image_counter s + 1 < 2 ^ 64 ->
  (0 < sem_value arr_mutex (sems s))%nat ->
  (exists x, slot_at (images s) (img_id r) = Some x) ->
  exists id s',
    publish r (img_id r) img s = Done (id, s') /\
    resp_img_id (completed_response r id) = Some id /\
    resp_ack (completed_response r id) = Some RESP_COMPLETED /\
    (img_opcode_eqb (img_op r) IMG_RETRIEVE = true -> id = img_id r /\ s' = s) /\
    (img_opcode_eqb (img_op r) IMG_RETRIEVE = false -> overwrite r <> 0 ->
     id = img_id r /\ image_counter s' = image_counter s /\
     length (images s') = length (images s)) /\
    (img_opcode_eqb (img_op r) IMG_RETRIEVE = false -> overwrite r = 0 ->
     id = Z.of_nat (length (images s)) /\
     images s' = images s ++ [Some img]).
Proof.
  intros Hok Hn Ha [x Hx]. pose proof Hok as [Hc Hl Hf].
  destruct (img_opcode_eqb (img_op r) IMG_RETRIEVE) eqn:Hop.
  - exists (img_id r), s. rewrite publish_retrieve by exact Hop.
    repeat (split; [reflexivity|]). split; [intros _; now split|].
    split; discriminate.
  - destruct (Z.eq_dec (overwrite r) 0) as [How|How].
    + exists (image_counter s), (after_output img s).
      rewrite publish_output by (assumption || lia).
      destruct (after_output_store s img Hok Hn) as (Himg & _ & _).
      repeat (split; [reflexivity|]). split; [discriminate|].
      split; [intros _ H; contradiction|].
      intros _ _. split; [lia | exact Himg].
    + exists (img_id r), (set_images (slot_set (images s) (img_id r) (Some img)) s).
      rewrite (publish_overwrite r (img_id r) img s x) by assumption.
      repeat (split; [reflexivity|]). split; [discriminate|].
      split; [|intros _ H; contradiction].
      intros _ _. split; [reflexivity|]. split; [reflexivity|].
      cbn. apply length_slot_set.
Qed.

(** ** Requests with an unknown operation code *)

Lemma slot_set_same {A} (a : list A) i x :
  slot_at a i = Some x -> slot_set a i x = a.
Proof.
  unfold slot_at, slot_set. destruct (0 <=? i); [|discriminate].
  apply list_insert_id.
Qed.

(** C8, as the code has it. The server validates neither the operation
    code nor the target image of a request. Whatever the request,
    [add_to_queue] returns 1 (the only cause of a REJECTED response, line
    569) when no slot of the queue is available and in no other case. The
    [switch] of the worker leaves the image as it is for an operation code
    that is unknown. A worker that holds such a request with the overwrite
    flag set, on a registered image, goes through the same steps as for any
    operation: it stores the target image back in its slot, so that the
    store is as before, releases the turn, and sends a COMPLETED response
    with the target image ID; nothing is printed before the trace line of a
    completion. *)
Theorem requests_are_not_validated :
  (forall (to_add : request_meta) (s s' : shared) v,
     add_to_queue to_add s = Done (v, s') ->
     (available (the_queue s) = 0 /\ v = 1) \/
     (available (the_queue s) <> 0 /\ v = 0)) /\
  (forall c img, image_op (IMG_UNKNOWN c) img = img) /\
  (forall (w : worker) (s : shared) c img v,
     let r := request_of (w_req w) in
     w_pc w = W_process ->
     img_op r = IMG_UNKNOWN c ->
     overwrite r <> 0 ->
     w_img_id w = img_id r ->
     slot_at (images s) (img_id r) = Some (Some img) ->
     slot_at (img_semaphores s) (img_id r) = Some (Some v) ->
     (0 < sem_value arr_mutex (sems s))%nat ->
     (0 < sem_value conn_socket_mutex (sems s))%nat ->
     exists w' s',
       worker_steps 5 w s = Done (w', s') /\
       w_pc w' = W_trace /\
       images s' = images s /\
       image_counter s' = image_counter s /\
       outbound s'
       = outbound s ++ [SentResponse (completed_response r (img_id r))] /\
       stdout s' = stdout s).
Proof.
  split; [exact add_to_queue_result|]. split; [reflexivity|].
  intros w s c img v r Hpc Hop How Hid Himg Hsem Ha Hc. subst r.
  destruct w as [pc wid wd [rq t1 t2 t3] li im rs]. cbn in *. subst pc li.
  destruct rq as [rid ts len op ow tgt]. cbn in *. subst op.
  destruct (slot_at_Some _ _ _ Himg) as [Ht0 Ht1].
  unfold worker_steps, worker_step, publish, send_response, img_sem_post,
    clock_gettime, send, bind, sem_wait, sem_post, gets, modify, store,
    defined, ret.
  cbn. rewrite Himg. cbn.
  destruct (v_arr_mutex (sems s)) as [|a] eqn:Ea; [lia|].
  destruct (ow =? 0) eqn:Eow; [lia|].
  cbn. rewrite Himg. cbn. rewrite Hsem. cbn.
  destruct (v_conn_socket_mutex (sems s)) as [|k] eqn:Ek; [lia|].
  cbn. eexists. eexists. split; [reflexivity|]. cbn.
  split; [reflexivity|].
  split; [now apply slot_set_same|].
  repeat split; reflexivity.
Qed.

End Facts.

(** *** The queue on concrete requests

    One image is registered; the queue has two slots. *)

#[local] Existing Instance sym_imglib.

Definition demo_request (id : Z) (op : img_opcode) (ow target : Z) : request :=
  mk_request id (mk_timespec 0 0) (mk_timespec 0 0) op ow target.

Definition demo_meta (id : Z) : request_meta :=
  mk_request_meta (demo_request id IMG_BLUR 1 0) (Some (mk_timespec 0 id)) None None.

Definition demo_array : img_req_array := {| request_ids := []; capacity := 0 |}.

Definition demo_empty : shared (L := sym_imglib) :=
  {| the_queue := queue_init 2 QUEUE_SJN;
     sems := mk_semaphores 1 0 1 1 1 1;
     images := [Some (Uploaded 0)];
     image_counter := 1;
     img_semaphores := [Some 1%nat];
     wait_op := [Some demo_array];
     clock := 0;
     inbound := [];
     outbound := [];
     stdout := [];
     events := [] |}.

Definition demo_one : shared (L := sym_imglib) :=
  admitted (demo_meta 1) demo_array demo_empty.

Definition demo_full : shared (L := sym_imglib) :=
  admitted (demo_meta 2) (img_req_array_push demo_array 1) demo_one.

Lemma demo_empty_holds : queue_holds (the_queue demo_empty) [].
Proof. apply queue_init_holds. lia. Qed.

Lemma demo_one_holds : queue_holds (the_queue demo_one) [demo_meta 1].
Proof.
  apply (admitted_holds (demo_meta 1) demo_array demo_empty [] demo_empty_holds).
  discriminate.
Qed.

Lemma demo_full_holds :
  queue_holds (the_queue demo_full) [demo_meta 1; demo_meta 2].
Proof.
  apply (admitted_holds (demo_meta 2) _ demo_one [demo_meta 1] demo_one_holds).
  discriminate.
Qed.

Lemma add_to_queue_admit_or_reject_witness :
  add_to_queue (demo_meta 3) demo_full = Done (1, demo_full) /\
  exists s', add_to_queue (demo_meta 1) demo_empty = Done (0, s').
Proof.
  split.
  - apply (add_to_queue_admit_or_reject (demo_meta 3) demo_full).
    + vm_compute. lia.
    + vm_compute. lia.
    + apply demo_full_holds.
    + reflexivity.
  - destruct (add_to_queue_admit_or_reject (demo_meta 1) demo_empty) as [_ H].
    + vm_compute. lia.
    + vm_compute. lia.
    + apply demo_empty_holds.
    + destruct (H ltac:(discriminate) demo_array eq_refl) as (s' & Hrun & _).
      exists s'. exact Hrun.
Defined.

Lemma get_from_queue_fifo_witness :
  exists s', get_from_queue demo_full = Done (demo_meta 1, s').
Proof.
  destruct (get_from_queue_fifo demo_full [demo_meta 1; demo_meta 2])
    as (e & l' & s' & Hl & _ & Hrun & _).
  - vm_compute. lia.
  - vm_compute. lia.
  - apply demo_full_holds.
  - vm_compute. reflexivity.
  - injection Hl as <- _. exists s'. exact Hrun.
Defined.

Lemma extraction_ignores_policy_witness :
  (exists s',
     bind (admit_all [demo_meta 1; demo_meta 2]) (fun _ => extract_n 2) demo_empty
     = Done ([demo_meta 1; demo_meta 2], s')) /\
  parse_options (fun _ => 4) [("q"%char, "4"%string); ("p"%char, "SJN"%string)]
    (mk_connection_params 0 1 QUEUE_FIFO)
  = inr EXIT_FAILURE.
Proof.
  destruct (extraction_ignores_policy (L := sym_imglib)) as (_ & Hseq & Hrej & _).
  split.
  - apply (Hseq 2 QUEUE_SJN [demo_meta 1; demo_meta 2] demo_empty).
    + reflexivity.
    + lia.
    + cbn. lia.
    + vm_compute. lia.
    + vm_compute. lia.
    + repeat constructor; exists demo_array; reflexivity.
  - apply (Hrej (fun _ => 4) [("q"%char, "4"%string)] "SJN"%string []).
    discriminate.
Defined.

Lemma demo_empty_store : store_ok demo_empty.
Proof.
  split.
  - cbn. lia.
  - reflexivity.
  - intros [|k] Hk; [eauto | cbn in Hk; lia].
Qed.

Definition demo_worker : worker (L := sym_imglib) :=
  mk_worker W_process 0 0
    (mk_request_meta (demo_request 9 (IMG_UNKNOWN 99) 1 0) None None None)
    0 None response_decl.

Lemma requests_are_not_validated_witness :
  exists w' s',
    worker_steps 5 demo_worker demo_empty = Done (w', s') /\
    images s' = images demo_empty /\
    outbound s'
    = [SentResponse {| resp_req_id := Some 9;
                       resp_img_id := Some 0;
                       resp_ack := Some RESP_COMPLETED |}].
Proof.
  destruct (requests_are_not_validated (L := sym_imglib)) as (_ & _ & Hw).
  destruct (Hw demo_worker demo_empty 99 (Uploaded 0) 1%nat)
    as (w' & s' & Hrun & _ & Himg & _ & Hout & _).
  - reflexivity.
  - reflexivity.
  - discriminate.
  - reflexivity.
  - reflexivity.
  - reflexivity.
  - vm_compute. lia.
  - vm_compute. lia.
  - exists w', s'. split; [exact Hrun|]. split; [exact Himg | exact Hout].
Defined.

End Hw7Facts.

(** ** The queue of [server_pol.c] *)

Module Hw5Facts.
Import Hw5.

Section Facts.

Variable double : Type.
Variable TSPEC_TO_DOUBLE : timespec -> double.
Variable double_lt : double -> double -> bool.
Variable double_is_zero : double -> bool.
Variable QUEUE_SIZE : Z.

(** [<] on the values of [TSPEC_TO_DOUBLE] is a strict weak order. *)
Hypothesis double_lt_irrefl : forall a, double_lt a a = false.
Hypothesis double_lt_trans :
  forall a b c, double_lt a b = true -> double_lt b c = true -> double_lt a c = true.
Hypothesis double_lt_cotrans :
  forall a b c, double_lt a b = true -> double_lt a c = true \/ double_lt c b = true.

(** The queue size of the command line fits the array of the queue. *)
Hypothesis QUEUE_SIZE_range : 0 < QUEUE_SIZE <= QUEUE_MAX.

#[local] Arguments slot_at : simpl never.
#[local] Arguments slot_set : simpl never.
#[local] Arguments Z.modulo : simpl never.
#[local] Arguments Z.rem : simpl never.
#[local] Arguments Z.sub : simpl never.
#[local] Arguments Z.add : simpl never.
#[local] Arguments Z.of_nat : simpl never.
#[local] Arguments Z.to_nat : simpl never.

(** The requested length of an entry as the scan compares it. *)
Definition key (e : request_meta) : double :=
  TSPEC_TO_DOUBLE (req_length (req e)).

(** The slot of the [k]-th live entry, counted from the head. *)
Definition ring_slot (q : queue) (k : nat) : Z :=
  (head q + Z.of_nat k) mod QUEUE_SIZE.

(** The queue holds the sequence [l] of requests, which is not empty,
    oldest first. *)
Record queue_holds (q : queue) (l : list request_meta) : Prop := {
  holds_len : length (items q) = Z.to_nat QUEUE_MAX;
  holds_head : 0 <= head q < QUEUE_SIZE;
  holds_size : size q = Z.of_nat (length l);
  holds_bound : 0 < size q <= QUEUE_SIZE;
  holds_tail : tail q = ring_slot q (length l - 1);
  holds_live : forall k e, l !! k = Some e ->
                 slot_at (items q) (ring_slot q k) = Some (Some e)
}.

Lemma ring_slot_range q k : 0 <= ring_slot q k < QUEUE_SIZE.
Proof. unfold ring_slot. apply Z.mod_pos_bound. lia. Qed.

Lemma ring_slot_0 q : 0 <= head q < QUEUE_SIZE -> ring_slot q 0 = head q.
Proof.
  intros H. unfold ring_slot. rewrite Z.add_0_r. now apply Z.mod_small.
Qed.

Lemma ring_slot_ne q j k :
  (j < k)%nat -> Z.of_nat k < QUEUE_SIZE -> ring_slot q j <> ring_slot q k.
Proof.
  intros Hjk Hk. unfold ring_slot. apply Hw7Facts.mod_offset_ne; lia.
Qed.

Lemma ring_slot_prev q k :
  (ring_slot q (S k) - 1 + QUEUE_SIZE) mod QUEUE_SIZE = ring_slot q k.
Proof.
  unfold ring_slot.
  replace ((head q + Z.of_nat (S k)) mod QUEUE_SIZE - 1 + QUEUE_SIZE)
    with ((head q + Z.of_nat (S k)) mod QUEUE_SIZE + (QUEUE_SIZE - 1)) by lia.
  rewrite Zplus_mod_idemp_l.
  replace (head q + Z.of_nat (S k) + (QUEUE_SIZE - 1))
    with (head q + Z.of_nat k + 1 * QUEUE_SIZE) by lia.
  apply Z.mod_add. lia.
Qed.

Lemma imod_nonneg (a : Z) (s : shared) :
  0 <= a -> imod a QUEUE_SIZE s = Done (a mod QUEUE_SIZE, s).
Proof.
  intros Ha. unfold imod.
  destruct (QUEUE_SIZE =? 0) eqn:E; [lia|].
  unfold ret. now rewrite Z.rem_mod_nonneg by lia.
Qed.

(** *** The scan for the shortest request *)

(** The scan on the sequence of the live entries: [i] is the position of
    the first entry of [l], [best_i] and [best] the position and the length
    of the shortest entry before it. *)
Fixpoint scan_list (l : list request_meta) (i best_i : nat) (best : double) :
    nat * double :=
  match l with
  | [] => (best_i, best)
  | e :: l' =>
      if double_lt (key e) best
      then scan_list l' (S i) i (key e)
      else scan_list l' (S i) best_i best
  end.

(** [k] is the position of the first shortest entry among the first [i]
    entries of [l], and [b] its length. *)
Definition first_shortest (l : list request_meta) (i k : nat) (b : double) : Prop :=
  (exists e, l !! k = Some e /\ key e = b) /\
  (forall j e', (j < i)%nat -> l !! j = Some e' -> double_lt (key e') b = false) /\
  (forall j e', (j < k)%nat -> l !! j = Some e' -> double_lt b (key e') = true).

Lemma scan_list_first_shortest (l : list request_meta) :
  forall l' i k b,
    drop i l = l' ->
    first_shortest l i k b ->
    first_shortest l (length l) (fst (scan_list l' i k b)) (snd (scan_list l' i k b)).
Proof.
  induction l' as [|e l' IH]; intros i k b Hd Hinv.
  - cbn. destruct Hinv as (He & Hmin & Hfirst).
    split; [exact He|]. split; [|exact Hfirst].
    intros j e' Hj Hl. apply (Hmin j e'); [|exact Hl].
    apply lookup_lt_Some in Hl.
    assert (length l <= i)%nat; [|lia].
    destruct (decide (i < length l)%nat) as [Hlt|]; [|lia].
    apply (f_equal length) in Hd. rewrite length_drop in Hd. cbn in Hd. lia.
  - assert (Hi : l !! i = Some e).
    { pose proof (lookup_drop l i 0) as H.
      rewrite Hd, Nat.add_0_r in H. now symmetry. }
    assert (Hd' : drop (S i) l = l').
    { rewrite <- (Nat.add_1_r i), <- drop_drop, Hd. reflexivity. }
    destruct Hinv as ((ek & Hek & Hkb) & Hmin & Hfirst).
    cbn. destruct (double_lt (key e) b) eqn:Elt.
    + apply IH; [exact Hd'|].
      split; [exists e; split; [exact Hi | reflexivity]|]. split.
      * intros j e' Hj Hl.
        destruct (decide (j = i)) as [->|Hne].
        { rewrite Hi in Hl. injection Hl as <-. apply double_lt_irrefl. }
        destruct (double_lt (key e') (key e)) eqn:E; [|reflexivity].
        rewrite <- (Hmin j e'); [|lia|exact Hl].
        symmetry. now apply double_lt_trans with (key e).
      * intros j e' Hj Hl.
        destruct (double_lt_cotrans _ _ (key e') Elt) as [H|H]; [exact H|].
        rewrite (Hmin j e') in H; [discriminate | lia | exact Hl].
    + apply IH; [exact Hd'|].
      split; [exists ek; split; assumption|]. split; [|exact Hfirst].
      intros j e' Hj Hl.
      destruct (decide (j = i)) as [->|Hne].
      { rewrite Hi in Hl. injection Hl as <-. exact Elt. }
      apply (Hmin j e'); [lia|exact Hl].
Qed.

#[local] Abbreviation scan := (sjn_scan double TSPEC_TO_DOUBLE double_lt QUEUE_SIZE).
#[local] Abbreviation shift := (sjn_shift QUEUE_SIZE).
#[local] Abbreviation sjn :=
  (sjn_get_from_queue double TSPEC_TO_DOUBLE double_lt double_is_zero QUEUE_SIZE).
#[local] Abbreviation fifo := (fifo_get_from_queue QUEUE_SIZE).

Lemma lookup_drop_cons {A} (l : list A) i e :
  l !! i = Some e -> drop i l = e :: drop (S i) l.
Proof.
  revert i. induction l as [|x l IH]; intros [|i] H; try discriminate.
  - cbn in H. injection H as ->. reflexivity.
  - cbn. now apply IH.
Qed.

Lemma sjn_scan_list (q : queue) l (s : shared) :
  queue_holds q l ->
  forall n i k len,
    (i + n = length l)%nat ->
    scan n (Z.of_nat i) q (ring_slot q k) len s
    = Done ((ring_slot q (fst (scan_list (drop i l) i k len)),
             snd (scan_list (drop i l) i k len)), s).
Proof.
  intros [Hlen Hhead Hsize Hbound Htail Hlive].
  induction n as [|n IH]; intros i k len Hi.
  - rewrite drop_ge by lia. reflexivity.
  - destruct (lookup_lt_is_Some_2 l i) as [e He]; [lia|].
    rewrite (lookup_drop_cons l i e He).
    cbn [sjn_scan scan_list]. unfold bind at 1.
    rewrite imod_nonneg by lia. fold (ring_slot q i).
    unfold bind at 1. rewrite (Hlive i e He). cbn [defined]. unfold ret at 1.
    fold (key e).
    replace (Z.of_nat i + 1) with (Z.of_nat (S i)) by lia.
    destruct (double_lt (key e) len).
    + apply IH. lia.
    + apply IH. lia.
Qed.

(** *** The shift of the predecessors *)

Lemma sjn_shift_spec (q : queue) l (s : shared) :
  0 <= head q < QUEUE_SIZE ->
  forall k fuel a,
    (k <= fuel)%nat ->
    Z.of_nat k < QUEUE_SIZE ->
    length a = Z.to_nat QUEUE_MAX ->
    (forall j e, (j < k)%nat -> l !! j = Some e ->
       slot_at a (ring_slot q j) = Some (Some e)) ->
    (k <= length l)%nat ->
    exists a',
      shift fuel (ring_slot q k) (head q) a s = Done (a', s) /\
      length a' = length a /\
      (forall j e, (j < k)%nat -> l !! j = Some e ->
         slot_at a' (ring_slot q (S j)) = Some (Some e)) /\
      (forall idx, (forall j, (1 <= j <= k)%nat -> idx <> ring_slot q j) ->
         slot_at a' idx = slot_at a idx).
Proof.
  intros Hhead. induction k as [|k IH]; intros fuel a Hfuel Hk Hlen Hlive Hkl.
  - exists a. rewrite ring_slot_0 by assumption.
    destruct fuel; cbn [sjn_shift]; rewrite Z.eqb_refl;
      (split; [reflexivity|]); (split; [reflexivity|]);
      (split; [intros; lia|]); reflexivity.
  - destruct fuel as [|fuel]; [lia|].
    cbn [sjn_shift].
    assert (Hne : ring_slot q (S k) <> head q).
    { rewrite <- (ring_slot_0 q Hhead). intros Heq. symmetry in Heq. revert Heq.
      apply ring_slot_ne; lia. }
    destruct (ring_slot q (S k) =? head q) eqn:E; [lia|].
    pose proof (ring_slot_range q (S k)) as Hr.
    destruct (lookup_lt_is_Some_2 l k) as [e He]; [lia|].
    unfold bind at 1. rewrite imod_nonneg by lia. rewrite ring_slot_prev.
    unfold bind at 1. rewrite (Hlive k e) by (lia || assumption).
    cbn [defined]. unfold ret at 1.
    unfold bind at 1. unfold store_item.
    destruct (Hw7Facts.slot_at_in_range a (ring_slot q (S k))) as [x Hx];
      [lia | unfold QUEUE_MAX in *; lia |].
    rewrite Hx. unfold ret at 1.
    destruct (IH fuel (slot_set a (ring_slot q (S k)) (Some e)))
      as (a' & Hrun & Hlen' & Hshift & Hrest).
    + lia.
    + lia.
    + now rewrite Hw7Facts.length_slot_set.
    + intros j e' Hj Hl.
      rewrite Hw7Facts.slot_at_set_ne.
      * apply Hlive; [lia | exact Hl].
      * lia.
      * intros Heq. symmetry in Heq. revert Heq. apply ring_slot_ne; lia.
    + lia.
    + exists a'. split; [exact Hrun|].
      split; [now rewrite Hlen', Hw7Facts.length_slot_set|].
      split.
      * intros j e' Hj Hl.
        destruct (decide (j = k)) as [->|Hjk].
        -- rewrite Hrest.
           ++ rewrite He in Hl. injection Hl as <-.
              apply Hw7Facts.slot_at_set_eq; [lia | unfold QUEUE_MAX in *; lia].
           ++ intros i Hi. apply not_eq_sym, ring_slot_ne; lia.
        -- apply Hshift; [lia | exact Hl].
      * intros idx Hidx. rewrite Hrest.
        -- apply Hw7Facts.slot_at_set_ne.
           ++ lia.
           ++ apply not_eq_sym, Hidx. lia.
        -- intros j Hj. apply Hidx. lia.
Qed.

(** *** The extraction *)

Lemma lookup_delete_nth {A} (l : list A) k j :
  (k < length l)%nat ->
  (take k l ++ drop (S k) l) !! j
  = if decide (j < k)%nat then l !! j else l !! S j.
Proof.
  intros Hk. destruct (decide (j < k)%nat) as [Hj|Hj].
  - rewrite lookup_app_l by (rewrite length_take; lia).
    rewrite lookup_take. destruct (decide (j < k)%nat); [reflexivity|lia].
  - rewrite lookup_app_r by (rewrite length_take; lia).
    rewrite length_take, lookup_drop. f_equal. lia.
Qed.

Lemma ring_slot_next (q : queue) a sz j :
  ring_slot (mk_queue ((head q + 1) mod QUEUE_SIZE) (tail q) a sz) j
  = ring_slot q (S j).
Proof.
  unfold ring_slot. cbn [head]. rewrite Zplus_mod_idemp_l. f_equal. lia.
Qed.

(** C4, as the code has it. [sjn_get_from_queue] on a queue that holds the
    sequence [l] of requests, which is not empty, returns the first entry of
    [l] whose requested length no entry of [l] is below: no entry is
    shorter, and the entries admitted before it are longer. One entry less
    is in the queue (one more slot is available). When entries remain, the
    read position has advanced by one modulo the queue size and the queue
    holds the other entries of [l] in their order, the predecessors of the
    entry returned one slot further; when the queue is emptied, the read and
    write positions are reset to -1. *)
Theorem sjn_get_from_queue_shortest (s : shared) (l : list request_meta) :
  queue_holds (the_queue s) l ->
  (0 < queue_notify s)%nat ->
  (0 < queue_mutex s)%nat ->
  let q := the_queue s in
  exists k e s',
    sjn s = Done (Some e, s') /\
    l !! k = Some e /\
    (forall j e', l !! j = Some e' -> double_lt (key e') (key e) = false) /\
    (forall j e', (j < k)%nat -> l !! j = Some e' ->
       double_lt (key e) (key e') = true) /\
    size (the_queue s') = size q - 1 /\
    queue_notify s' = pred (queue_notify s) /\
    queue_mutex s' = queue_mutex s /\
    ((1 < length l)%nat ->
     head (the_queue s') = (head q + 1) mod QUEUE_SIZE /\
     queue_holds (the_queue s') (take k l ++ drop (S k) l)) /\
    (length l = 1%nat ->
     head (the_queue s') = -1 /\ tail (the_queue s') = -1).
Proof.
  intros Hh Hn Hm q. subst q.
  pose proof Hh as [Hlen Hhead Hsize Hbound Htail Hlive].
  set (q := the_queue s) in *.
  destruct (lookup_lt_is_Some_2 l 0%nat) as [e0 He0]; [lia|].
  pose proof (sjn_scan_list q l) as Hscan.
  set (r := scan_list l 0 0 (key e0)).
  assert (Hfs : first_shortest l (length l) (fst r) (snd r)).
  { apply scan_list_first_shortest; [reflexivity|].
    split; [exists e0; split; [exact He0 | reflexivity]|].
    split; intros; lia. }
  destruct Hfs as ((e & He & Hkey) & Hmin & Hfirst).
  set (k := fst r) in *.
  assert (Hk : (k < length l)%nat) by (now apply lookup_lt_Some in He).
  destruct (sjn_shift_spec q l (set_queue_mutex (pred (queue_mutex s))
                                  (set_queue_notify (pred (queue_notify s)) s))
              Hhead k (Z.to_nat QUEUE_SIZE) (items q))
    as (a' & Hrun & Hlen' & Hshift & Hrest); try lia.
  { intros j e' _ Hl. now apply Hlive. }
  assert (Hl0 : slot_at (items q) (head q) = Some (Some e0)).
  { rewrite <- (ring_slot_0 q Hhead). now apply Hlive. }
  assert (Hscan0 : forall s0,
             scan (Z.to_nat (size q)) 0 q (head q) (key e0) s0
             = Done ((ring_slot q k, snd r), s0)).
  { intros s0. rewrite Hsize, Nat2Z.id.
    pose proof (Hscan s0 Hh (length l) 0%nat 0%nat (key e0)) as H.
    rewrite drop_0, ring_slot_0 in H by assumption. apply H. lia. }
  exists k, e.
  unfold sjn_get_from_queue, bind, sem_wait_notify, sem_wait_mutex.
  destruct (queue_notify s) as [|n] eqn:En; [lia|].
  cbn [queue_mutex set_queue_notify].
  destruct (queue_mutex s) as [|m] eqn:Em; [lia|].
  unfold gets at 1. cbn [the_queue set_queue_mutex set_queue_notify]. fold q.
  destruct (size q =? 0) eqn:Es; [lia|].
  rewrite Hl0. cbn [defined]. unfold ret at 1.
  fold (key e0). rewrite Hscan0. cbn [fst].
  rewrite (Hlive k e He). cbn [defined]. unfold ret at 1.
  cbn [pred] in Hrun. rewrite Hrun.
  rewrite imod_nonneg by lia.
  unfold modify at 1.
  cbn [the_queue set_the_queue queue_mutex queue_notify stdout].
  set (q1 := reset_if_empty
               (mk_queue ((head q + 1) mod QUEUE_SIZE) (tail q) a' (size q - 1))).
  assert (Hq1 : size q1 = size q - 1 /\
                ((1 < length l)%nat ->
                 head q1 = (head q + 1) mod QUEUE_SIZE /\
                 queue_holds q1 (take k l ++ drop (S k) l)) /\
                (length l = 1%nat -> head q1 = -1 /\ tail q1 = -1)).
  { subst q1. unfold reset_if_empty. cbn [size].
    destruct (size q - 1 =? 0) eqn:E1.
    - cbn. split; [reflexivity|]. split; [intros; lia|].
      intros _. split; reflexivity.
    - split; [reflexivity|]. split; [|intros; lia]. intros _.
      split; [reflexivity|].
      assert (Hl' : length (take k l ++ drop (S k) l) = (length l - 1)%nat).
      { rewrite length_app, length_take, length_drop. lia. }
      split; cbn [items head tail size].
      + now rewrite Hlen'.
      + apply Z.mod_pos_bound. lia.
      + rewrite Hl'. lia.
      + lia.
      + rewrite Hl', ring_slot_next, Htail. f_equal. lia.
      + intros j x Hj. rewrite ring_slot_next.
        rewrite lookup_delete_nth in Hj by exact Hk.
        destruct (decide (j < k)%nat) as [Hjk|Hjk].
        * now apply Hshift.
        * rewrite Hrest; [now apply Hlive|].
          intros i Hi. apply lookup_lt_Some in Hj.
          apply not_eq_sym, ring_slot_ne; lia. }
  destruct Hq1 as (Hsz & Hmany & Hone).
  assert (Hmin' : forall j e', l !! j = Some e' -> double_lt (key e') (key e) = false).
  { intros j e' Hl. rewrite Hkey.
    apply (Hmin j e'); [now apply lookup_lt_Some in Hl | exact Hl]. }
  assert (Hfirst' : forall j e', (j < k)%nat -> l !! j = Some e' ->
                      double_lt (key e) (key e') = true).
  { intros j e' Hj Hl. rewrite Hkey. now apply (Hfirst j e'). }
  destruct (double_is_zero (TSPEC_TO_DOUBLE (req_length (req e))));
    eexists; (split; [reflexivity|]); cbn;
    (split; [exact He|]); (split; [exact Hmin'|]); (split; [exact Hfirst'|]);
    (split; [exact Hsz|]); (split; [reflexivity|]); (split; [reflexivity|]);
    (split; [exact Hmany | exact Hone]).
Qed.

(** The FIFO extraction of the same server: the entry at the head is
    returned and one entry less is in the queue; the head advances by one
    modulo the queue size when entries remain and is reset to -1 with the
    tail when the queue is emptied. *)
Lemma fifo_get_from_queue_head (s : shared) (l : list request_meta) :
  queue_holds (the_queue s) l ->
  (0 < queue_notify s)%nat ->
  (0 < queue_mutex s)%nat ->
  let q := the_queue s in
  exists e s',
    fifo s = Done (Some e, s') /\
    l !! 0%nat = Some e /\
    slot_at (items q) (head q) = Some (Some e) /\
    size (the_queue s') = size q - 1 /\
    ((1 < length l)%nat ->
     head (the_queue s') = (head q + 1) mod QUEUE_SIZE /\
     queue_holds (the_queue s') (drop 1 l)) /\
    (length l = 1%nat ->
     head (the_queue s') = -1 /\ tail (the_queue s') = -1).
Proof.
  intros Hh Hn Hm q. subst q.
  pose proof Hh as [Hlen Hhead Hsize Hbound Htail Hlive].
  set (q := the_queue s) in *.
  destruct (lookup_lt_is_Some_2 l 0%nat) as [e He]; [lia|].
  assert (Hl0 : slot_at (items q) (head q) = Some (Some e)).
  { rewrite <- (ring_slot_0 q Hhead). now apply Hlive. }
  exists e.
  unfold fifo_get_from_queue, bind, sem_wait_notify, sem_wait_mutex.
  destruct (queue_notify s) as [|n] eqn:En; [lia|].
  cbn [queue_mutex set_queue_notify].
  destruct (queue_mutex s) as [|m] eqn:Em; [lia|].
  unfold gets at 1. cbn [the_queue set_queue_mutex set_queue_notify]. fold q.
  destruct (size q =? 0) eqn:Es; [lia|].
  rewrite Hl0. cbn [defined]. unfold ret at 1.
  rewrite imod_nonneg by lia.
  eexists. split; [reflexivity|]. cbn.
  split; [exact He|]. split; [reflexivity|].
  unfold reset_if_empty. cbn [size]. fold q.
  destruct (size q - 1 =? 0) eqn:E1.
  - cbn. split; [reflexivity|]. split; [intros; lia|].
    intros _. split; reflexivity.
  - split; [reflexivity|]. split; [|intros; lia]. intros _.
    split; [reflexivity|].
    split; cbn [items head tail size].
    + exact Hlen.
    + apply Z.mod_pos_bound. lia.
    + rewrite length_drop. lia.
    + lia.
    + rewrite length_drop, ring_slot_next, Htail. f_equal. lia.
    + intros j x Hj. rewrite ring_slot_next.
      rewrite lookup_drop in Hj. now apply Hlive.
Qed.

End Facts.

(** *** The queue on concrete requests

    The requested lengths are compared as numbers of nanoseconds. *)

Definition ns_lt (a b : Z) : bool := a <? b.
Definition ns_is_zero (a : Z) : bool := a =? 0.

Lemma ns_lt_irrefl a : ns_lt a a = false.
Proof. apply Z.ltb_irrefl. Qed.

Lemma ns_lt_trans a b c : ns_lt a b = true -> ns_lt b c = true -> ns_lt a c = true.
Proof. unfold ns_lt. rewrite !Z.ltb_lt. lia. Qed.

Lemma ns_lt_cotrans a b c : ns_lt a b = true -> ns_lt a c = true \/ ns_lt c b = true.
Proof. unfold ns_lt. rewrite !Z.ltb_lt. lia. Qed.

Definition meta (id len : Z) : request_meta :=
  mk_request_meta
    (mk_request id (mk_timespec 0 0) (mk_timespec len 0) (IMG_UNKNOWN 0) 0 0)
    None.

(** The state after the requests of [l] are added to the queue of a fresh
    connection, for a queue size of 4. *)
Definition after_adds (l : list request_meta) : shared :=
  fold_left
    (fun s r => match add_to_queue 4 r s with Done (_, s') => s' | _ => s end)
    l (mk_shared queue_start 1 0 []).

Definition three : list request_meta := [meta 1 5; meta 2 1; meta 3 1].

Lemma three_held : queue_holds 4 (the_queue (after_adds three)) three.
Proof.
  split.
  - reflexivity.
  - vm_compute. split; [discriminate | reflexivity].
  - reflexivity.
  - vm_compute. split; [reflexivity | discriminate].
  - reflexivity.
  - intros [|[|[|k]]] e Hk; try discriminate;
      cbn in Hk; injection Hk as <-; reflexivity.
Qed.

Lemma sjn_get_from_queue_shortest_witness :
  exists k e s',
    sjn_get_from_queue Z timespec_ns ns_lt ns_is_zero 4 (after_adds three)
    = Done (Some e, s') /\
    three !! k = Some e /\
    req_id (req e) = 2 /\
    head (the_queue s') = 1.
Proof.
  destruct (sjn_get_from_queue_shortest Z timespec_ns ns_lt ns_is_zero 4
              ns_lt_irrefl ns_lt_trans ns_lt_cotrans
              ltac:(unfold QUEUE_MAX; lia) (after_adds three) three three_held
              ltac:(vm_compute; lia) ltac:(vm_compute; lia))
    as (k & e & s' & Hrun & He & _ & _ & _ & _ & _ & Hmany & _).
  exists k, e, s'.
  split; [exact Hrun|]. split; [exact He|].
  vm_compute in Hrun. injection Hrun as <- <-.
  split; reflexivity.
Defined.

(** C4 as stated fails on a queue that holds one entry: the extraction
    empties the queue and the read position does not advance by one, it is
    reset to -1. *)
Lemma sjn_get_from_queue_resets_head :
  exists s',
    sjn_get_from_queue Z timespec_ns ns_lt ns_is_zero 4 (after_adds [meta 1 5])
    = Done (Some (meta 1 5), s') /\
    head (the_queue (after_adds [meta 1 5])) = 0 /\
    head (the_queue s') = -1 /\
    head (the_queue s') <> (head (the_queue (after_adds [meta 1 5])) + 1) mod 4.
Proof.
  eexists. split; [vm_compute; reflexivity|].
  split; [reflexivity|]. split; [reflexivity|]. vm_compute. discriminate.
Qed.

End Hw5Facts.

(** ** Executions of [server_mimg.c] on concrete inputs *)

Module Hw7Runs.
Import Hw7.

#[local] Existing Instance sym_imglib.

Definition req (id : Z) (op : img_opcode) (ow target : Z) : request :=
  mk_request id (mk_timespec 0 0) (mk_timespec 0 0) op ow target.

(** [n] steps in a row of the thread [t]. *)
Definition steps (t : tid) (n : nat) : list tid := repeat t n.

(** *** The outbound socket

    The client reads a response header and, after the header of a RETRIEVE
    that is completed, the image payload. [framed ids out] tells whether the
    stream [out] reads that way, [ids] being the IDs of the RETRIEVE
    requests: each of their headers is followed at once by a payload, and no
    payload stands elsewhere. *)
Fixpoint framed (ids : list Z) (out : list sent) : bool :=
  match out with
  | [] => true
  | SentImage _ :: _ => false
  | SentResponse r :: rest =>
      match resp_req_id r, resp_ack r with
      | Some id, Some RESP_COMPLETED =>
          if existsb (Z.eqb id) ids then
            match rest with
            | [] => true
            | SentImage _ :: rest' => framed ids rest'
            | SentResponse _ :: _ => false
            end
          else framed ids rest
      | _, _ => framed ids rest
      end
  end.

(** Two images are registered, then each is retrieved. *)
Definition two_retrieves : list packet :=
  [PktRequest (req 0 IMG_REGISTER 0 0); PktImage (Uploaded 10);
   PktRequest (req 1 IMG_REGISTER 0 0); PktImage (Uploaded 11);
   PktRequest (req 2 IMG_RETRIEVE 0 0);
   PktRequest (req 3 IMG_RETRIEVE 0 1)].

(** The dispatcher registers the images and admits the requests; worker 0
    runs up to the release of the socket after its header, then worker 1
    does, then each sends its payload. *)
Definition interleaved_retrieves : list tid :=
  steps Dispatcher 20 ++ steps (Worker 0) 12 ++ steps (Worker 1) 12
  ++ steps (Worker 0) 1 ++ steps (Worker 1) 1.

(** C9 fails on the code. With two workers that serve one RETRIEVE each,
    the header of the second response is on the socket between the header
    of the first and its payload: the worker releases [conn_socket_mutex]
    after the header (line 349) and takes it again for the payload
    (line 353). *)
Theorem retrieve_payload_interleaved :
  exists m,
    run interleaved_retrieves (init 4 2 QUEUE_FIFO two_retrieves) = Done m /\
    drop 2 (outbound (sh m))
    = [SentResponse (completed_response (req 2 IMG_RETRIEVE 0 0) 0);
       SentResponse (completed_response (req 3 IMG_RETRIEVE 0 1) 1);
       SentImage (Uploaded 10);
       SentImage (Uploaded 11)] /\
    framed [2; 3] (outbound (sh m)) = false.
Proof.
  eexists. split; [vm_compute; reflexivity|].
  split; reflexivity.
Qed.

(** With one worker the same requests are framed. *)
Example retrieve_payload_one_worker :
  exists m,
    run (steps Dispatcher 20 ++ steps (Worker 0) 29)
      (init 4 1 QUEUE_FIFO two_retrieves) = Done m /\
    framed [2; 3] (outbound (sh m)) = true.
Proof.
  eexists. split; [vm_compute; reflexivity|]. reflexivity.
Qed.

(** *** Rejection *)

(** One image, a queue of one slot, one worker that has not started: the
    second request finds the queue full. *)
Definition full_queue : list packet :=
  [PktRequest (req 0 IMG_REGISTER 0 0); PktImage (Uploaded 10);
   PktRequest (req 1 IMG_BLUR 1 0);
   PktRequest (req 2 IMG_SHARPEN 1 0)].

(** C7 fails on the code. The request 2 on the image 0 is rejected with one
    response and one X line, and the queue, the table and the store are as
    they were; but the image ID of the response is not the target of the
    request: the field is never assigned (lines 570-573). *)
Theorem rejection_leaves_img_id_unset :
  exists m m',
    run (steps Dispatcher 12) (init 1 1 QUEUE_FIFO full_queue) = Done m /\
    run (steps Dispatcher 2) m = Done m' /\
    outbound (sh m')
    = outbound (sh m)
      ++ [SentResponse {| resp_req_id := Some 2;
                          resp_img_id := None;
                          resp_ack := Some RESP_REJECTED |}] /\
    stdout (sh m')
    = stdout (sh m)
      ++ [LineX 2 (mk_timespec 0 0) (mk_timespec 0 0) (Some (mk_timespec 0 0))] /\
    the_queue (sh m') = the_queue (sh m) /\
    wait_op (sh m') = wait_op (sh m) /\
    images (sh m') = images (sh m) /\
    events (sh m') = events (sh m) /\
    resp_img_id (rejected_response (req 2 IMG_SHARPEN 1 0))
    <> Some (img_id (req 2 IMG_SHARPEN 1 0)) /\
    resp_img_id (Hw6.rejected_response (req 2 IMG_SHARPEN 1 0))
    = Some (img_id (req 2 IMG_SHARPEN 1 0)).
Proof.
  eexists. eexists. split; [vm_compute; reflexivity|].
  split; [vm_compute; reflexivity|].
  repeat (split; [reflexivity|]). split; [discriminate | reflexivity].
Qed.

(** *** Unknown operation codes *)

Definition unknown_operation (ow : Z) : list packet :=
  [PktRequest (req 0 IMG_REGISTER 0 0); PktImage (Uploaded 10);
   PktRequest (req 1 (IMG_UNKNOWN 99) ow 0)].

Definition is_rejection (x : sent) : bool :=
  match x with
  | SentResponse r =>
      match resp_ack r with
      | Some RESP_REJECTED => true
      | _ => false
      end
  | SentImage _ => false
  end.

Definition is_rejection_line (l : line) : bool :=
  match l with
  | LineX _ _ _ _ => true
  | _ => false
  end.

(** C8 as stated fails. A request with the operation code 99 is admitted
    and served like any other: the response is COMPLETED, no response is
    REJECTED, no X line nor any other diagnostic is printed; and without the
    overwrite flag the store is mutated, the target image is appended under
    the new ID 1. *)
Lemma unknown_opcode_is_completed :
  (exists m,
     run (steps Dispatcher 10 ++ steps (Worker 0) 14)
       (init 1 1 QUEUE_FIFO (unknown_operation 1)) = Done m /\
     last (outbound (sh m))
     = Some (SentResponse {| resp_req_id := Some 1;
                             resp_img_id := Some 0;
                             resp_ack := Some RESP_COMPLETED |}) /\
     existsb is_rejection (outbound (sh m)) = false /\
     existsb is_rejection_line (stdout (sh m)) = false) /\
  (exists m,
     run (steps Dispatcher 10 ++ steps (Worker 0) 9)
       (init 1 1 QUEUE_FIFO (unknown_operation 0)) = Done m /\
     images (sh m) = [Some (Uploaded 10); Some (Uploaded 10)] /\
     image_counter (sh m) = 2).
Proof.
  split.
  - eexists. split; [vm_compute; reflexivity|].
    repeat split; reflexivity.
  - eexists. split; [vm_compute; reflexivity|].
    split; reflexivity.
Qed.

(** *** The response to a registration *)

(** An image is registered, a rotation that does not overwrite is admitted
    on it, and a second image is registered. *)
Definition register_during_operation : list packet :=
  [PktRequest (req 0 IMG_REGISTER 0 0); PktImage (Uploaded 10);
   PktRequest (req 1 IMG_ROT90CLKW 0 0);
   PktRequest (req 2 IMG_REGISTER 0 0); PktImage (Uploaded 11)].

(** The worker is about to publish its output when the dispatcher installs
    the second image and releases [arr_mutex] (line 259); the worker
    publishes (lines 327-336); the dispatcher fills its response (line
    263). *)
Definition publication_before_response : list tid :=
  steps Dispatcher 10 ++ steps (Worker 0) 8 ++ steps Dispatcher 3
  ++ steps (Worker 0) 1 ++ steps Dispatcher 2.

(** C6 fails on the code. The second registration installs its image in
    the slot 1, the length of the store before it, and the response it
    sends carries the ID 2, which is the ID assigned to the output of the
    rotation: [register_new_image] reads [image_counter] for the response
    after it has released [arr_mutex]. *)
Theorem registration_response_race :
  exists m,
    run publication_before_response
      (init 4 1 QUEUE_FIFO register_during_operation) = Done m /\
    images (sh m)
    = [Some (Uploaded 10); Some (Uploaded 11);
       Some (Applied IMG_ROT90CLKW (Uploaded 10))] /\
    last (outbound (sh m))
    = Some (SentResponse {| resp_req_id := Some 2;
                            resp_img_id := Some 2;
                            resp_ack := Some RESP_COMPLETED |}) /\
    map w_img_id (pool m) = [2].
Proof.
  eexists. split; [vm_compute; reflexivity|].
  repeat split; reflexivity.
Qed.

End Hw7Runs.

(** ** The turn gate of [server_mimg.c]: per-image order of the starts *)

Module Hw7Gate.
Import Hw7 Hw7Facts.

Section Gate.

Context {L : imglib}.

#[local] Arguments slot_at : simpl never.
#[local] Arguments slot_set : simpl never.
#[local] Arguments wrap64 : simpl never.
#[local] Arguments realloc : simpl never.
#[local] Arguments Z.modulo : simpl never.
#[local] Arguments Z.sub : simpl never.
#[local] Arguments Z.add : simpl never.

#[local] Abbreviation M := (SM shared).

(** *** The property *)









(** *** Where a worker stands with respect to the gate *)

Inductive phase :=
| Idle        (* no request in hand, or the turn is released *)
| Waiting     (* a request in hand, before [sem_wait] returns *)
| Testing     (* the semaphore of the image is held, the turn is tested *)
| Taking      (* the turn is granted, the head is about to be removed *)
| Stamping    (* the head is removed, the start is about to be stamped *)
| Working     (* the start is stamped *)
| Releasing.  (* the result is published, the semaphore is about to be posted *)

Definition phase_of (pc : worker_pc) : phase :=
  match pc with
  | W_sem_wait | W_turn_wait => Waiting
  | W_turn_test | W_turn_post => Testing
  | W_turn_take => Taking
  | W_stamp_start => Stamping
  | W_process | W_publish => Working
  | W_sem_post => Releasing
  | _ => Idle
  end.

Definition pending (p : phase) : bool :=
  match p with
  | Waiting | Testing | Taking => true
  | _ => false
  end.

Definition holding (p : phase) : bool :=
  match p with
  | Testing | Taking | Stamping | Working | Releasing => true
  | _ => false
  end.

(** What the invariant reads of a worker: its phase, its request, its
    local [img_id] and its termination flag. *)
Record view := mk_view {
  v_ph : phase;
  v_req : request;
  v_local : Z;
  v_done : Z
}.

Definition wview (w : worker) : view :=
  mk_view (phase_of (w_pc w)) (request_of (w_req w)) (w_img_id w) (worker_done w).

Definition rid (v : view) : Z := req_id (v_req v).
Definition tgt (v : view) : Z := img_id (v_req v).

(** The ordering sequence and the semaphore of the image [i], where they
    are initialised. *)
Definition table (s : shared) (i : Z) : list Z :=
  match slot_at (wait_op s) i with
  | Some (Some a) => request_ids a
  | _ => []
  end.

Definition sem_of (s : shared) (i : Z) : option nat :=
  match slot_at (img_semaphores s) i with
  | Some (Some v) => Some v
  | _ => None
  end.


(** *** The invariant

    [gate_inv s vs waiting]: the shared state [s] and the views [vs] of the
    workers fit together; [waiting i] lists the requests admitted on the
    image [i] whose request IDs are in its ordering sequence, in the order
    of their admission. *)



(** *** Steps that leave the gate alone *)

(** [frame s s']: the step from [s] to [s'] changes none of the parts of the
    shared state that the invariant reads, and the clock does not go
    back. *)
Record frame (s s' : shared) : Prop := {
  fr_queue : the_queue s' = the_queue s;
  fr_notify : sem_value queue_notify (sems s') = sem_value queue_notify (sems s);
  fr_counter : image_counter s' = image_counter s;
  fr_sems : img_semaphores s' = img_semaphores s;
  fr_tab : wait_op s' = wait_op s;
  fr_events : events s' = events s;
  fr_clock : clock s <= clock s'
}.

Lemma frame_refl s : frame s s.
Proof. split; reflexivity || lia. Qed.

Lemma frame_trans s1 s2 s3 : frame s1 s2 -> frame s2 s3 -> frame s1 s3.
Proof.
  intros [q1 n1 c1 m1 t1 e1 k1] [q2 n2 c2 m2 t2 e2 k2].
  split; try congruence. lia.
Qed.

(** A computation whose runs are frames, and whose result satisfies [Q]. *)
Definition framed {A} (c : M A) (Q : A -> Prop) : Prop :=
  forall s a s', c s = Done (a, s') -> frame s s' /\ Q a.

Lemma framed_ret {A} (a : A) (Q : A -> Prop) : Q a -> framed (ret a) Q.
Proof. intros HQ s a' s' H. injection H as <- <-. split; [apply frame_refl | exact HQ]. Qed.

Lemma framed_bind {A B} (c : M A) (f : A -> M B) (P : A -> Prop) (Q : B -> Prop) :
  framed c P -> (forall a, P a -> framed (f a) Q) -> framed (bind c f) Q.
Proof.
  intros Hc Hf s b s' H. unfold bind in H.
  destruct (c s) as [[a s1]| |] eqn:E; try discriminate.
  destruct (Hc _ _ _ E) as [F1 HP].
  destruct (Hf a HP _ _ _ H) as [F2 HQ].
  split; [now apply frame_trans with s1 | exact HQ].
Qed.

Lemma framed_weaken {A} (c : M A) (P Q : A -> Prop) :
  framed c P -> (forall a, P a -> Q a) -> framed c Q.
Proof. intros Hc HPQ s a s' H. destruct (Hc _ _ _ H). split; auto. Qed.

Lemma framed_gets {A} (f : shared -> A) : framed (gets f) (fun _ => True).
Proof. intros s a s' H. injection H as <- <-. split; [apply frame_refl | exact I]. Qed.

Lemma framed_undefined {A} (Q : A -> Prop) : framed undefined Q.
Proof. intros s a s' H. discriminate. Qed.

Lemma framed_blocked {A} (Q : A -> Prop) : framed blocked Q.
Proof. intros s a s' H. discriminate. Qed.

Lemma framed_defined {A} (o : option (option A)) :
  framed (defined o) (fun a => o = Some (Some a)).
Proof.
  destruct o as [[a|]|]; cbn; try apply framed_undefined.
  now apply framed_ret.
Qed.

Lemma framed_umod a b : framed (umod a b) (fun _ => True).
Proof.
  unfold umod. destruct (b =? 0); [apply framed_undefined | now apply framed_ret].
Qed.

Lemma framed_sem_wait m : m <> queue_notify -> framed (sem_wait m) (fun _ => True).
Proof.
  intros Hm s a s' H. unfold sem_wait in H.
  destruct (sem_value m (sems s)); [discriminate|]. injection H as <- <-.
  split; [|exact I]. split; try reflexivity; try (cbn; lia).
  cbn [sems set_sems]. apply sem_value_update_ne. congruence.
Qed.

Lemma framed_sem_post m : m <> queue_notify -> framed (sem_post m) (fun _ => True).
Proof.
  intros Hm s a s' H. injection H as <- <-.
  split; [|exact I]. split; try reflexivity; try (cbn; lia).
  cbn [sems set_sems]. apply sem_value_update_ne. congruence.
Qed.

Lemma framed_clock_gettime : framed clock_gettime (fun _ => True).
Proof. apply framed_gets. Qed.

Lemma framed_recv_request : framed recv_request (fun _ => True).
Proof.
  intros s a s' H. unfold recv_request in H.
  destruct (inbound s) as [|[r|i|] rest]; try discriminate;
    injection H as <- <-; (split; [|exact I]);
    split; try reflexivity; cbn; lia.
Qed.

Lemma framed_send x : framed (send x) (fun _ => True).
Proof.
  intros s a s' H. injection H as <- <-.
  split; [|exact I]. split; try reflexivity; try (cbn; lia).
Qed.

Lemma framed_printf l : framed (printf l) (fun _ => True).
Proof.
  intros s a s' H. injection H as <- <-.
  split; [|exact I]. split; try reflexivity; try (cbn; lia).
Qed.

Lemma framed_true {A} (c : M A) (Q : A -> Prop) : framed c Q -> framed c (fun _ => True).
Proof. intros H. apply framed_weaken with Q; auto. Qed.

Lemma framed_seq {A B} (c : M A) (d : M B) (P : A -> Prop) (Q : B -> Prop) :
  framed c P -> framed d Q -> framed (bind c (fun _ => d)) Q.
Proof. intros Hc Hd. apply framed_bind with P; auto. Qed.

Lemma framed_sync_printf l : framed (sync_printf l) (fun _ => True).
Proof.
  unfold sync_printf.
  apply framed_seq with (fun _ => True); [now apply framed_sem_wait|].
  apply framed_seq with (fun _ => True); [apply framed_printf|].
  now apply framed_sem_post.
Qed.

Lemma framed_send_response r : framed (send_response r) (fun _ => True).
Proof.
  unfold send_response.
  apply framed_seq with (fun _ => True); [now apply framed_sem_wait|].
  apply framed_seq with (fun _ => True); [apply framed_send|].
  now apply framed_sem_post.
Qed.

Lemma framed_dump_loop n : forall i q, framed (dump_loop n i q) (fun _ => True).
Proof.
  induction n as [|n IH]; intros i q; cbn.
  - now apply framed_ret.
  - eapply framed_bind; [apply framed_defined|]. intros r _.
    eapply framed_bind; [apply framed_umod|]. intros i' _.
    eapply framed_bind; [apply IH|]. intros rest _.
    now apply framed_ret.
Qed.

Lemma framed_dump_queue_status : framed dump_queue_status (fun _ => True).
Proof.
  unfold dump_queue_status.
  apply framed_seq with (fun _ => True); [now apply framed_sem_wait|].
  apply framed_seq with (fun _ => True); [now apply framed_sem_wait|].
  eapply framed_bind; [apply framed_gets|]. intros q _.
  eapply framed_bind; [apply framed_dump_loop|]. intros ids _.
  apply framed_seq with (fun _ => True); [apply framed_printf|].
  apply framed_seq with (fun _ => True); now apply framed_sem_post.
Qed.

(** The passing of time is a frame. *)
Lemma frame_tick (s : shared) : frame s (set_clock (clock s + 1) s).
Proof. split; try reflexivity. cbn. lia. Qed.

(** *** Steps and a relation on the shared state

    [through R c]: the runs of the computation [c] go from a state to a
    state related to it by [R]. For a relation that is reflexive and
    transitive and that every update of one part of the state keeps, it
    holds of the code of the server, statement by statement. *)

Definition through (R : shared -> shared -> Prop) {A} (c : M A) : Prop :=
  forall s a s', c s = Done (a, s') -> R s s'.

Section Through.

Variable R : shared -> shared -> Prop.

Hypothesis R_refl : forall s, R s s.
Hypothesis R_trans : forall s1 s2 s3, R s1 s2 -> R s2 s3 -> R s1 s3.
Hypothesis R_queue : forall s q, R s (set_the_queue q s).
Hypothesis R_sems : forall s v, R s (set_sems v s).
Hypothesis R_img_semaphores : forall s a, R s (set_img_semaphores a s).
Hypothesis R_wait_op : forall s a, R s (set_wait_op a s).
Hypothesis R_inbound : forall s l, R s (set_inbound l s).
Hypothesis R_outbound : forall s l, R s (set_outbound l s).
Hypothesis R_stdout : forall s l, R s (set_stdout l s).
Hypothesis R_event : forall s e, R s (set_events (events s ++ [e]) s).

Lemma through_ret {A} (a : A) : through R (ret a).
Proof. intros s a' s' H. injection H as _ <-. apply R_refl. Qed.

Lemma through_gets {A} (f : shared -> A) : through R (gets f).
Proof. intros s a s' H. injection H as _ <-. apply R_refl. Qed.

Lemma through_undefined {A} : through R (@undefined shared A).
Proof. intros s a s' H. discriminate. Qed.

Lemma through_blocked {A} : through R (@blocked shared A).
Proof. intros s a s' H. discriminate. Qed.

Lemma through_bind {A B} (c : M A) (f : A -> M B) :
  through R c -> (forall a, through R (f a)) -> through R (bind c f).
Proof.
  intros Hc Hf s b s' H. unfold bind in H.
  destruct (c s) as [[a s1]| |] eqn:E; try discriminate.
  apply R_trans with s1; [now apply Hc with a | now apply (Hf a) with b].
Qed.

Lemma through_modify (f : shared -> shared) :
  (forall s, R s (f s)) -> through R (modify f).
Proof. intros Hf s a s' H. injection H as _ <-. apply Hf. Qed.

Lemma through_defined {A} (o : option (option A)) : through R (defined o).
Proof.
  destruct o as [[a|]|]; cbn; [apply through_ret | |]; apply through_undefined.
Qed.

Lemma through_umod a b : through R (umod a b).
Proof.
  unfold umod. destruct (b =? 0); [apply through_undefined | apply through_ret].
Qed.

Lemma through_store {A} (a : list (option A)) i x : through R (store a i x).
Proof.
  unfold store. destruct (slot_at a i); [apply through_ret | apply through_undefined].
Qed.

Lemma through_sem_wait m : through R (sem_wait m).
Proof.
  intros s a s' H. unfold sem_wait in H.
  destruct (sem_value m (sems s)); [discriminate|].
  injection H as _ <-. apply R_sems.
Qed.

Lemma through_sem_post m : through R (sem_post m).
Proof. apply through_modify. intros s. apply R_sems. Qed.

Lemma through_recv_request : through R recv_request.
Proof.
  intros s a s' H. unfold recv_request in H.
  destruct (inbound s) as [|[r|i|] rest]; try discriminate;
    injection H as _ <-; auto.
Qed.

Lemma through_recvImage : through R recvImage.
Proof.
  intros s a s' H. unfold recvImage in H.
  destruct (inbound s) as [|[r|i|] rest]; try discriminate.
  injection H as _ <-. auto.
Qed.

(** The steps of a proof that a piece of code goes through [R]. *)
Ltac thru_step :=
  first
    [ apply through_ret | apply through_gets | apply through_undefined
    | apply through_blocked | apply through_defined | apply through_umod
    | apply through_store | apply through_sem_wait | apply through_sem_post
    | apply through_recv_request | apply through_recvImage
    | apply through_bind; [|intros ?]
    | apply through_modify; intros ?; auto
    | match goal with
      | |- through _ (if ?b then _ else _) => destruct b
      | |- through _ (match ?x with _ => _ end) => destruct x
      end ].

Ltac thru := repeat thru_step.




Lemma through_clock_gettime : through R clock_gettime.
Proof. apply through_gets. Qed.





Lemma through_ghost e : through R (ghost e).
Proof. unfold ghost. thru. Qed.











(** With the updates of the store as well, [R] holds through every
    statement. *)
Hypothesis R_images : forall s a, R s (set_images a s).
Hypothesis R_image_counter : forall s n, R s (set_image_counter n s).





End Through.

(** *** Lists of events and of requests *)




















(** *** The table and the semaphores under an update *)


Lemma table_in_slot (s : shared) i x :
  In x (table s i) -> exists a, slot_at (wait_op s) i = Some (Some a).
Proof.
  unfold table. destruct (slot_at (wait_op s) i) as [[a|]|]; try contradiction.
  eauto.
Qed.

Lemma sem_of_slot (s : shared) i x :
  sem_of s i = Some x <-> slot_at (img_semaphores s) i = Some (Some x).
Proof.
  unfold sem_of. destruct (slot_at (img_semaphores s) i) as [[y|]|]; split;
    intros H; try discriminate; congruence.
Qed.





(** *** The view of one worker changes *)

Definition set_ph (p : phase) (v : view) : view :=
  mk_view p (v_req v) (v_local v) (v_done v).


Lemma sem_of_set_eq (s : shared) i x y :
  slot_at (img_semaphores s) i = Some x ->
  sem_of (set_img_semaphores (slot_set (img_semaphores s) i (Some y)) s) i = Some y.
Proof.
  intros H. apply slot_at_Some in H as [H0 H1]. unfold sem_of. cbn.
  now rewrite slot_at_set_eq.
Qed.

Lemma sem_of_set_ne (s : shared) i j y :
  0 <= i -> i <> j ->
  sem_of (set_img_semaphores (slot_set (img_semaphores s) i y) s) j = sem_of s j.
Proof. intros H0 Hne. unfold sem_of. cbn. now rewrite slot_at_set_ne. Qed.

(** *** The transitions of a worker *)



(** The state after an operation on the semaphore of the image [i]. *)
Definition with_sem (i : Z) (n : nat) (s : shared) : shared :=
  set_img_semaphores (slot_set (img_semaphores s) i (Some n)) s.

Lemma sem_of_with_sem_eq (s : shared) i x n :
  sem_of s i = Some x -> sem_of (with_sem i n s) i = Some n.
Proof. intros H. apply sem_of_slot in H. now apply sem_of_set_eq with (Some x). Qed.

Lemma sem_of_with_sem_ne (s : shared) i j x n :
  sem_of s i = Some x -> i <> j -> sem_of (with_sem i n s) j = sem_of s j.
Proof.
  intros H Hne. apply sem_of_slot, slot_at_Some in H as [H0 _].
  now apply sem_of_set_ne.
Qed.



(** What an extraction that returns has done. *)
Lemma get_from_queue_inv (s s' : shared) lq e :
  queue_holds (the_queue s) lq ->
  sem_value queue_notify (sems s) = length lq ->
  get_from_queue s = Done (e, s') ->
  exists lq', lq = e :: lq' /\ s' = extracted s.
Proof.
  intros Hq Hn H. destruct lq as [|e0 lq'].
  - unfold get_from_queue, bind, sem_wait in H. rewrite Hn in H. discriminate.
  - destruct (holds_head _ _ _ Hq) as [Hs Ha].
    destruct (sem_value queue_mutex (sems s)) as [|m] eqn:Em.
    + unfold get_from_queue, bind, sem_wait in H. rewrite Hn in H.
      cbn in H, Em. rewrite Em in H. discriminate.
    + rewrite (get_from_queue_head s e0) in H.
      * injection H as <- <-. eauto.
      * rewrite Hn. cbn. lia.
      * lia.
      * apply Hq.
      * exact Ha.
      * exact Hs.
Qed.


(** The state after an update of the ordering sequence of the image [i]. *)
Definition with_tab (i : Z) (a : img_req_array) (s : shared) : shared :=
  set_wait_op (slot_set (wait_op s) i (Some a)) s.





(** The state after the start of the request [r] is stamped (line 301). *)
Definition stamped (r : request) (s : shared) : shared :=
  set_events (events s ++ [EvStart r (ns_timespec (clock s))]) s.





(** *** Registration of an image *)

Lemma slot_at_realloc {A} (a : list (option A)) m i y :
  slot_at (realloc a m) i = Some (Some y) <->
  i < m /\ slot_at a i = Some (Some y).
Proof.
  unfold slot_at, realloc.
  destruct (0 <=? i) eqn:E0;
    [|split; [discriminate | intros [_ H]; discriminate]].
  apply Z.leb_le in E0. split.
  - intros H.
    destruct (decide (Z.to_nat i < length (take (Z.to_nat m) a))%nat) as [Hlt|Hge].
    + rewrite lookup_app_l in H by assumption. rewrite length_take in Hlt.
      rewrite lookup_take in H.
      destruct (decide (Z.to_nat i < Z.to_nat m)%nat); [|lia].
      split; [lia | exact H].
    + rewrite lookup_app_r in H by lia.
      apply lookup_replicate in H as [H _]. discriminate.
  - intros [Hm H]. pose proof (lookup_lt_Some _ _ _ H) as Hlt.
    rewrite lookup_app_l by (rewrite length_take; lia).
    rewrite lookup_take.
    destruct (decide (Z.to_nat i < Z.to_nat m)%nat); [exact H | lia].
Qed.

(** The initialised slots of an array after the registration of the image
    [n], when every slot initialised so far is below [n]. *)
Lemma slot_at_registered {A} (a : list (option A)) n x i :
  0 <= n ->
  (forall j y, slot_at a j = Some (Some y) -> j < n) ->
  match slot_at (slot_set (realloc a (n + 1)) n (Some x)) i with
  | Some (Some y) => Some y
  | _ => None
  end
  = if i =? n then Some x
    else match slot_at a i with Some (Some y) => Some y | _ => None end.
Proof.
  intros Hn Hbelow. destruct (Z.eqb_spec i n) as [->|Hne].
  - rewrite slot_at_set_eq; [reflexivity | assumption |].
    rewrite length_realloc. lia.
  - rewrite slot_at_set_ne by auto.
    destruct (slot_at (realloc a (n + 1)) i) as [[y|]|] eqn:E1.
    + apply slot_at_realloc in E1 as [_ ->]. reflexivity.
    + destruct (slot_at a i) as [[y'|]|] eqn:E2; try reflexivity.
      assert (E : slot_at (realloc a (n + 1)) i = Some (Some y')).
      { apply slot_at_realloc. split; [|exact E2].
        specialize (Hbelow _ _ E2). lia. }
      rewrite E in E1. discriminate.
    + destruct (slot_at a i) as [[y'|]|] eqn:E2; try reflexivity.
      assert (E : slot_at (realloc a (n + 1)) i = Some (Some y')).
      { apply slot_at_realloc. split; [|exact E2].
        specialize (Hbelow _ _ E2). lia. }
      rewrite E in E1. discriminate.
Qed.





(** *** Admission of a request *)

(** The state after an admission, with its event. *)
Definition admitted_ev (to_add : request_meta) (img_arr : img_req_array)
    (s : shared) : shared :=
  set_events (events s ++ [EvAdmit (request_of to_add)])
    (admitted to_add img_arr s).


(** *** What the statements of the gate do *)

Lemma img_sem_wait_inv (i : Z) (s s' : shared) :
  img_sem_wait i s = Done (tt, s') ->
  exists n, sem_of s i = Some (S n) /\ s' = with_sem i n s.
Proof.
  unfold img_sem_wait, bind, gets, modify, defined, sem_of, with_sem. intros H.
  destruct (slot_at (img_semaphores s) i) as [[[|n]|]|]; try discriminate.
  injection H as <-. eauto.
Qed.

Lemma img_sem_post_inv (i : Z) (s s' : shared) :
  img_sem_post i s = Done (tt, s') ->
  exists x, sem_of s i = Some x /\ s' = with_sem i (S x) s.
Proof.
  unfold img_sem_post, bind, gets, modify, defined, sem_of, with_sem. intros H.
  destruct (slot_at (img_semaphores s) i) as [[x|]|]; try discriminate.
  injection H as <-. eauto.
Qed.

Lemma turn_take_inv (i : Z) (s s' : shared) :
  turn_take i s = Done (tt, s') ->
  exists arr x rest,
    slot_at (wait_op s) i = Some (Some arr) /\
    request_ids arr = x :: rest /\
    s' = with_tab i {| request_ids := rest; capacity := capacity arr |} s.
Proof.
  unfold turn_take, bind, sem_wait, sem_post, gets, modify, defined, undefined,
    with_tab.
  intros H.
  destruct (sem_value operation_mutex (sems s)) as [|n] eqn:En; [discriminate|].
  cbn in H.
  destruct (slot_at (wait_op s) i) as [[arr|]|]; try discriminate.
  destruct arr as [[|x rest] cap]; cbn in H; [discriminate|].
  injection H as <-. exists (mk_img_req_array (x :: rest) cap), x, rest.
  split; [reflexivity|]. split; [reflexivity|].
  destruct s as [q v ? ? ? ? ? ? ? ? ?], v; cbn in *. subst. reflexivity.
Qed.

Lemma framed_store {A} (a : list (option A)) i x :
  framed (store a i x) (fun _ => True).
Proof.
  unfold store. destruct (slot_at a i); [now apply framed_ret | apply framed_undefined].
Qed.

Lemma framed_set_images a : framed (modify (set_images a)) (fun _ => True).
Proof.
  intros s x s' H. injection H as <- <-.
  split; [|exact I]. split; try reflexivity; try (cbn; lia).
Qed.

Lemma publish_inv (r : request) i img (s s' : shared) id :
  0 <= image_counter s < 2 ^ 64 ->
  publish r i img s = Done (id, s') ->
  (id = i /\ frame s s') \/
  (id = image_counter s /\ image_counter s + 1 < 2 ^ 64 /\
   s' = after_output img s).
Proof.
  intros Hc H. destruct (img_opcode_eqb (img_op r) IMG_RETRIEVE) eqn:Eop.
  - rewrite publish_retrieve in H by assumption. injection H as <- <-.
    left. split; [reflexivity | apply frame_refl].
  - destruct (Z.eq_dec (overwrite r) 0) as [Eo|Eo].
    + right. destruct (publish_output_inv r i img s s' id Eop Eo Hc H) as (? & ? & ?).
      auto.
    + left. assert (Hf : framed (publish r i img) (fun id => id = i)).
      { unfold publish. rewrite Eop.
        destruct (overwrite r =? 0) eqn:E0; [apply Z.eqb_eq in E0; contradiction|].
        cbn [negb].
        apply framed_seq with (fun _ => True); [now apply framed_sem_wait|].
        eapply framed_bind with (P := fun x => x = i).
        - eapply framed_bind; [apply framed_gets|]. intros imgs _.
          eapply framed_bind; [apply framed_store|]. intros imgs' _.
          apply framed_seq with (fun _ => True); [apply framed_set_images|].
          now apply framed_ret.
        - intros x ->.
          apply framed_seq with (fun _ => True); [now apply framed_sem_post|].
          now apply framed_ret. }
      destruct (Hf _ _ _ H). auto.
Qed.

Lemma add_to_queue_inv (to_add : request_meta) (s s' : shared) v :
  queue_ok (the_queue s) ->
  add_to_queue to_add s = Done (v, s') ->
  (v = 1 /\ s' = s) \/
  (v = 0 /\ available (the_queue s) <> 0 /\
   exists img_arr,
     slot_at (wait_op s) (img_id (request_of to_add)) = Some (Some img_arr) /\
     s' = admitted to_add img_arr s).
Proof.
  intros Hok H.
  destruct (sem_value queue_mutex (sems s)) as [|m] eqn:Em.
  { unfold add_to_queue, bind, sem_wait in H. rewrite Em in H. discriminate. }
  destruct (Z.eq_dec (available (the_queue s)) 0) as [Ea|Ea].
  { rewrite add_to_queue_full in H by (assumption || lia).
    injection H as <- <-. now left. }
  right.
  destruct (sem_value operation_mutex (sems s)) as [|o] eqn:Eo;
    [|destruct (slot_at (wait_op s) (img_id (request_of to_add)))
        as [[img_arr|]|] eqn:Es].
  2:{ rewrite (add_to_queue_room to_add s img_arr) in H by (assumption || lia).
      injection H as <- <-. eauto. }
  all: exfalso; destruct Hok as [Hmax Hlen Hwr Hrd Hav];
    unfold add_to_queue, bind, sem_wait, sem_post, gets, modify,
      modify_queue, store, umod, defined, ret in H;
    rewrite Em in H; cbn in H;
    destruct (available (the_queue s) =? 0) eqn:Eav; [lia|];
    destruct (slot_at_in_range (requests (the_queue s)) (wr_pos (the_queue s)))
      as [x Hx]; [lia | lia |];
    rewrite Hx in H; cbn in H;
    destruct (max_size (the_queue s) =? 0) eqn:Emx; [lia|]; cbn in H;
    cbn in Eo; rewrite ?Eo in H; cbn in H; rewrite ?Es in H; discriminate.
Qed.

(** *** A step of a worker keeps the invariant *)

(** The steps of a worker away from the gate. *)
Definition quiet (pc : worker_pc) : bool :=
  match pc with
  | W_alive | W_loop | W_process | W_stamp_completion | W_respond | W_payload
  | W_trace | W_dump => true
  | _ => false
  end.

Lemma worker_step_quiet (w : worker) :
  quiet (w_pc w) = true ->
  framed (worker_step w) (fun w' => wview w' = wview w).
Proof.
  unfold worker_step, wview. destruct (w_pc w) eqn:E; try discriminate; intros _.
  - eapply framed_bind; [apply framed_clock_gettime|]. intros t _.
    apply framed_seq with (fun _ => True); [apply framed_sync_printf|].
    now apply framed_ret.
  - apply framed_ret. now destruct (worker_done w =? 0).
  - eapply framed_bind; [apply framed_gets|]. intros imgs _.
    eapply framed_bind; [apply framed_defined|]. intros img _.
    now apply framed_ret.
  - eapply framed_bind; [apply framed_clock_gettime|]. intros t _.
    now apply framed_ret.
  - apply framed_seq with (fun _ => True); [apply framed_send_response|].
    apply framed_ret.
    now destruct (img_opcode_eqb (img_op (request_of (w_req w))) IMG_RETRIEVE).
  - apply framed_seq with (fun _ => True); [now apply framed_sem_wait|].
    apply framed_seq with (fun _ => True).
    { destruct (w_img w); [apply framed_send | apply framed_undefined]. }
    apply framed_seq with (fun _ => True); [now apply framed_sem_post|].
    now apply framed_ret.
  - apply framed_seq with (fun _ => True); [apply framed_sync_printf|].
    now apply framed_ret.
  - apply framed_seq with (fun _ => True); [apply framed_dump_queue_status|].
    now apply framed_ret.
Qed.



(** *** A step of the dispatcher keeps the invariant *)

(** The steps of the dispatcher that neither install an image nor admit a
    request. *)
Definition calm (pc : dispatcher_pc) : bool :=
  match pc with
  | D_reg_store | D_add | D_done => false
  | _ => true
  end.

Lemma dispatcher_step_calm (d : dispatcher) :
  calm (d_pc d) = true ->
  framed (dispatcher_step d) (fun _ => True).
Proof.
  unfold dispatcher_step, register_new_image_resp.
  destruct (d_pc d) eqn:E; try discriminate; intros _.
  - eapply framed_bind; [apply framed_recv_request|]. intros got _.
    eapply framed_bind; [apply framed_clock_gettime|]. intros t _.
    cbv zeta. destruct (in_bytes_positive got); [|now apply framed_ret].
    destruct (d_req_read _); [now apply framed_ret | apply framed_undefined].
  - eapply framed_bind; [apply framed_clock_gettime|]. intros t _.
    now apply framed_ret.
  - eapply framed_bind with (P := fun _ => True).
    { eapply framed_bind; [apply framed_gets|]. intros n _. now apply framed_ret. }
    intros resp _. now apply framed_ret.
  - apply framed_seq with (fun _ => True); [apply framed_send_response|].
    now apply framed_ret.
  - eapply framed_bind; [apply framed_clock_gettime|]. intros t _.
    now apply framed_ret.
  - eapply framed_bind; [apply framed_gets|]. intros n _.
    apply framed_seq with (fun _ => True); [apply framed_sync_printf|].
    now apply framed_ret.
  - apply framed_seq with (fun _ => True); [apply framed_dump_queue_status|].
    now apply framed_ret.
  - apply framed_seq with (fun _ => True); [apply framed_send_response|].
    now apply framed_ret.
  - apply framed_seq with (fun _ => True); [apply framed_sync_printf|].
    now apply framed_ret.
  - apply framed_seq with (fun _ => True); [apply framed_sync_printf|].
    now apply framed_ret.
Qed.


(** *** The events of an execution *)







(** *** The executions of the program keep the invariant *)



Lemma slot_at_nil {A} (i : Z) : slot_at (@nil A) i = None.
Proof. unfold slot_at. now destruct (0 <=? i). Qed.

Lemma init_view (n_workers : Z) k v :
  map wview (map worker_init (seq 0 (Z.to_nat n_workers))) !! k = Some v ->
  v = mk_view Idle request0 0 0.
Proof.
  intros H. apply list_elem_of_lookup_2, list_elem_of_In in H.
  apply in_map_iff in H as (w & <- & H).
  apply in_map_iff in H as (i & <- & _). reflexivity.
Qed.


(** *** A check of the admissions of a sequence of events *)




(** *** Pairs of requests *)





End Gate.

(** *** Two workers at the gate of one image *)

#[local] Existing Instance sym_imglib.









End Hw7Gate.

(** ** The image IDs along an execution ([server_mimg.c])

    The IDs that the store assigns, read off the store itself: a step
    assigns the ID [i] when the slot [i] of [images] holds an image after
    the step and held none before. *)

Module Hw7Store.
Import Hw7 Hw7Facts Hw7Gate.

Section Store.

Context {L : imglib}.

#[local] Arguments slot_at : simpl never.
#[local] Arguments slot_set : simpl never.
#[local] Arguments wrap64 : simpl never.
#[local] Arguments realloc : simpl never.
#[local] Arguments Z.modulo : simpl never.
#[local] Arguments Z.sub : simpl never.
#[local] Arguments Z.add : simpl never.

(** The slot [i] of the array holds an image. *)
Definition holds_image (a : list (option image)) (i : nat) : bool :=
  match a !! i with
  | Some (Some _) => true
  | _ => false
  end.

(** The image IDs that a step from [s] to [s'] assigns. *)
Definition new_ids (s s' : shared) : list Z :=
  map Z.of_nat
    (List.filter
       (fun i => holds_image (images s') i && negb (holds_image (images s) i))
       (seq 0 (length (images s')))).

(** An execution, with the image IDs that its steps assign, in order. *)
Fixpoint run_ids (sched : list tid) (m : machine) : result (list Z * machine) :=
  match sched with
  | [] => Done ([], m)
  | t :: rest =>
      match step t m with
      | Done m' =>
          match run_ids rest m' with
          | Done (ids, mf) => Done (new_ids (sh m) (sh m') ++ ids, mf)
          | Blocked => Blocked
          | Undefined => Undefined
          end
      | Blocked => Blocked
      | Undefined => Undefined
      end
  end.

Lemma run_ids_run (sched : list tid) : forall m ids mf,
  run_ids sched m = Done (ids, mf) -> run sched m = Done mf.
Proof.
  induction sched as [|t sched IH]; intros m ids mf H; cbn in *.
  - now injection H as _ <-.
  - destruct (step t m) as [m1| |]; try discriminate.
    destruct (run_ids sched m1) as [[ids1 m2]| |] eqn:E; try discriminate.
    injection H as _ <-. now apply IH with ids1.
Qed.

(** *** What a step does to the store *)











(** *** The IDs that a step assigns *)










End Store.

(** *** Two registrations and an output *)

#[local] Existing Instance sym_imglib.


End Hw7Store.


(** ** The time library *)

Module TimelibFacts.
Import Timelib.

(** A time whose nanoseconds are below one second. *)
Definition normal (t : timespec) : Prop := 0 <= tv_nsec t < NANO_IN_SEC.

Ltac nano := unfold normal, timespec_ns, NANO_IN_SEC in *;
             change (10 ^ 9) with 1000000000 in *.

(** X1. [timespec_add] adds the times: the time that the result stands for,
    in nanoseconds, is the sum of the times of its arguments, whatever their
    fields. *)
Theorem timespec_add_total (a b : timespec) :
  timespec_ns (timespec_add a b) = timespec_ns a + timespec_ns b.
Proof.
  unfold timespec_add.
  destruct (NANO_IN_SEC <? tv_nsec a + tv_nsec b) eqn:E; cbn [tv_sec tv_nsec timespec_ns].
  - pose proof (Z.quot_rem' (tv_nsec a + tv_nsec b) NANO_IN_SEC) as H.
    nano. cbn [tv_sec tv_nsec]. lia.
  - nano. cbn [tv_sec tv_nsec]. lia.
Qed.

(** X2. [timespec_add] on two times with nanoseconds below one second
    carries at most one second, and leaves the nanoseconds below one second
    except when they add up to one second exactly: the test of line 63 is
    [>], the sum [NANO_IN_SEC] is left in [tv_nsec] without a carry. *)
Theorem timespec_add_carry (a b : timespec) :
  normal a -> normal b ->
  let r := timespec_add a b in
  0 <= tv_nsec r <= NANO_IN_SEC /\
  (tv_nsec r = NANO_IN_SEC <-> tv_nsec a + tv_nsec b = NANO_IN_SEC) /\
  (tv_nsec a + tv_nsec b <= NANO_IN_SEC ->
   tv_sec r = tv_sec a + tv_sec b /\ tv_nsec r = tv_nsec a + tv_nsec b) /\
  (NANO_IN_SEC < tv_nsec a + tv_nsec b ->
   tv_sec r = tv_sec a + tv_sec b + 1 /\
   tv_nsec r = tv_nsec a + tv_nsec b - NANO_IN_SEC).
Proof.
  intros Ha Hb r. subst r. unfold timespec_add.
  destruct (NANO_IN_SEC <? tv_nsec a + tv_nsec b) eqn:E; cbn [tv_sec tv_nsec].
  - apply Z.ltb_lt in E.
    assert (Hq : Z.quot (tv_nsec a + tv_nsec b) NANO_IN_SEC = 1).
    { nano. symmetry.
      apply (Z.quot_unique _ _ 1 (tv_nsec a + tv_nsec b - 1000000000)); lia. }
    assert (Hr : Z.rem (tv_nsec a + tv_nsec b) NANO_IN_SEC
                 = tv_nsec a + tv_nsec b - NANO_IN_SEC).
    { pose proof (Z.quot_rem' (tv_nsec a + tv_nsec b) NANO_IN_SEC) as H.
      rewrite Hq in H. lia. }
    rewrite Hq, Hr. nano. repeat split; lia.
  - apply Z.ltb_ge in E. nano. repeat split; lia.
Qed.

Lemma timespec_add_carry_witness :
  timespec_add (mk_timespec 1 600000000) (mk_timespec 2 400000000)
  = mk_timespec 3 1000000000 /\
  tv_nsec (timespec_add (mk_timespec 1 600000000) (mk_timespec 2 400000000))
  = NANO_IN_SEC.
Proof.
  split; [reflexivity|].
  apply (timespec_add_carry (mk_timespec 1 600000000) (mk_timespec 2 400000000)).
  - unfold normal; cbn; unfold NANO_IN_SEC; lia.
  - unfold normal; cbn; unfold NANO_IN_SEC; lia.
  - reflexivity.
Defined.

(** The test of the loop of [get_elapsed_busywait]: [end] is later than
    [begin]. *)
Lemma timespec_cmp_later (a b : timespec) :
  0 <= tv_nsec a <= NANO_IN_SEC -> normal b ->
  (0 <? timespec_cmp a b) = (timespec_ns b <? timespec_ns a).
Proof.
  intros Ha Hb. unfold timespec_cmp.
  destruct (Z.eqb_spec (tv_sec a) (tv_sec b)) as [Es|Es];
    destruct (Z.eqb_spec (tv_nsec a) (tv_nsec b)) as [En|En];
    destruct (Z.ltb_spec (tv_sec b) (tv_sec a)) as [Ls|Ls];
    destruct (Z.ltb_spec (tv_nsec b) (tv_nsec a)) as [Ln|Ln];
    cbn; symmetry; nano; (apply Z.ltb_lt || apply Z.ltb_ge); lia.
Qed.

(** X3. [timespec_cmp] on times with nanoseconds below one second is the
    comparison of the times: 0 for equal times, 1 when the first is later,
    -1 when the second is; and swapping the arguments negates the result,
    whatever the fields. *)
Theorem timespec_cmp_order (a b : timespec) :
  timespec_cmp b a = - timespec_cmp a b /\
  (normal a -> normal b ->
   (timespec_cmp a b = 0 <-> timespec_ns a = timespec_ns b) /\
   (timespec_cmp a b = 1 <-> timespec_ns b < timespec_ns a) /\
   (timespec_cmp a b = -1 <-> timespec_ns a < timespec_ns b)).
Proof.
  unfold timespec_cmp. split; [|intros Ha Hb];
    destruct (Z.eqb_spec (tv_sec a) (tv_sec b)) as [Es|Es];
    destruct (Z.eqb_spec (tv_nsec a) (tv_nsec b)) as [En|En];
    destruct (Z.eqb_spec (tv_sec b) (tv_sec a)) as [Es'|Es'];
    destruct (Z.eqb_spec (tv_nsec b) (tv_nsec a)) as [En'|En'];
    destruct (Z.ltb_spec (tv_sec b) (tv_sec a)) as [Ls|Ls];
    destruct (Z.ltb_spec (tv_nsec b) (tv_nsec a)) as [Ln|Ln];
    destruct (Z.ltb_spec (tv_sec a) (tv_sec b)) as [Ls'|Ls'];
    destruct (Z.ltb_spec (tv_nsec a) (tv_nsec b)) as [Ln'|Ln'];
    cbn; try lia; nano; repeat split; intros; lia.
Qed.

Lemma timespec_cmp_order_witness :
  timespec_cmp (mk_timespec 2 5) (mk_timespec 1 999999999) = 1 /\
  timespec_ns (mk_timespec 1 999999999) < timespec_ns (mk_timespec 2 5).
Proof.
  split; [reflexivity|].
  apply (timespec_cmp_order (mk_timespec 2 5) (mk_timespec 1 999999999)).
  - unfold normal; cbn; unfold NANO_IN_SEC; lia.
  - unfold normal; cbn; unfold NANO_IN_SEC; lia.
  - reflexivity.
Defined.

(** The end of the wait as [get_elapsed_busywait] computes it (line 46). *)
Lemma timespec_add_end (a b : timespec) :
  normal a -> normal b ->
  timespec_ns (timespec_add a b) = timespec_ns a + timespec_ns b /\
  0 <= tv_nsec (timespec_add a b) <= NANO_IN_SEC.
Proof.
  intros Ha Hb. unfold timespec_add.
  destruct (NANO_IN_SEC <? tv_nsec a + tv_nsec b) eqn:E;
    cbn [tv_sec tv_nsec timespec_ns].
  - apply Z.ltb_lt in E.
    pose proof (Z.quot_rem' (tv_nsec a + tv_nsec b) NANO_IN_SEC) as H.
    pose proof (Z.rem_bound_pos (tv_nsec a + tv_nsec b) NANO_IN_SEC) as Hr.
    nano. cbn [tv_sec tv_nsec]. lia.
  - apply Z.ltb_ge in E. nano. cbn [tv_sec tv_nsec]. lia.
Qed.

Lemma busywait_loop_target (end_ t : timespec) (post : list timespec) :
  0 <= tv_nsec end_ <= NANO_IN_SEC ->
  normal t -> timespec_ns end_ <= timespec_ns t ->
  forall pre begin,
    normal begin -> timespec_ns begin < timespec_ns end_ ->
    Forall normal pre ->
    Forall (fun x => timespec_ns x < timespec_ns end_) pre ->
    busywait_loop end_ begin (pre ++ t :: post) = Some (t, post).
Proof.
  intros He Ht Hle pre. induction pre as [|x pre IH]; intros begin Hb Hlt Hn Hp.
  - cbn. rewrite (timespec_cmp_later _ _ He Hb).
    destruct (Z.ltb_spec (timespec_ns begin) (timespec_ns end_)); [|lia].
    destruct post; cbn; rewrite (timespec_cmp_later _ _ He Ht);
      destruct (Z.ltb_spec (timespec_ns t) (timespec_ns end_)); (lia || reflexivity).
  - cbn. rewrite (timespec_cmp_later _ _ He Hb).
    destruct (Z.ltb_spec (timespec_ns begin) (timespec_ns end_)); [|lia].
    apply Forall_cons in Hn as [Hx Hn]. apply Forall_cons in Hp as [Hxp Hp].
    now apply IH.
Qed.

(** X4. [get_elapsed_busywait] returns at the first reading of the clock
    that is at least the requested length after its first reading, and not
    before: with the readings [pre ++ t :: post] to come, those of [pre]
    earlier than the target and [t] at the target or later, it consumes
    [pre] and [t] and reports the difference of its two readings of the
    cycle counter. *)
Theorem busywait_returns_at_target (sec nsec : Z) (pre : list timespec)
    (t : timespec) (post : list timespec) (c0 c1 : Z) (crest : list Z) :
  0 <= nsec < NANO_IN_SEC ->
  Forall normal (pre ++ [t]) ->
  let target := timespec_ns (hd t pre) + (sec * NANO_IN_SEC + nsec) in
  Forall (fun x => timespec_ns x < target) pre ->
  target <= timespec_ns t ->
  get_elapsed_busywait sec nsec (mk_env (pre ++ t :: post) (c0 :: c1 :: crest))
  = Done (wrap64 (c1 - c0), mk_env post crest).
Proof.
  intros Hn Hnorm target Hpre Ht.
  apply Forall_app in Hnorm as [Hnp Hnt].
  apply Forall_cons in Hnt as [Hnt _].
  unfold get_elapsed_busywait, bind, clock_gettime, get_clocks, ret.
  destruct pre as [|first pre]; cbn [app times cycles hd] in *.
  - set (end_ := timespec_add (mk_timespec sec nsec) t).
    destruct (timespec_add_end (mk_timespec sec nsec) t Hn Hnt) as [Hns He].
    fold end_ in Hns, He.
    assert (Hns' : timespec_ns end_ = target).
    { rewrite Hns. unfold target. nano. cbn. lia. }
    clear Hns. rename Hns' into Hns.
    destruct post; cbn; rewrite (timespec_cmp_later _ _ He Hnt);
      destruct (Z.ltb_spec (timespec_ns t) (timespec_ns end_)); (lia || reflexivity).
  - set (end_ := timespec_add (mk_timespec sec nsec) first).
    apply Forall_cons in Hnp as [Hnf Hnp]. apply Forall_cons in Hpre as [Hf Hpre].
    destruct (timespec_add_end (mk_timespec sec nsec) first Hn Hnf) as [Hns He].
    fold end_ in Hns, He.
    assert (Hns' : timespec_ns end_ = target).
    { rewrite Hns. unfold target. nano. cbn. lia. }
    clear Hns. rename Hns' into Hns.
    rewrite (busywait_loop_target end_ t post He Hnt); try rewrite Hns; auto.
Qed.

Lemma busywait_returns_at_target_witness :
  get_elapsed_busywait 0 5
    (mk_env [mk_timespec 0 10; mk_timespec 0 12; mk_timespec 0 15; mk_timespec 0 20]
       [100; 250; 300])
  = Done (150, mk_env [mk_timespec 0 20] [300]).
Proof.
  apply (busywait_returns_at_target 0 5 [mk_timespec 0 10; mk_timespec 0 12]
           (mk_timespec 0 15) [mk_timespec 0 20] 100 250 [300]).
  - unfold NANO_IN_SEC; lia.
  - repeat constructor; unfold NANO_IN_SEC; cbn; lia.
  - repeat constructor; vm_compute; reflexivity.
  - vm_compute. discriminate.
Defined.

End TimelibFacts.

(** ** More of [server_mimg.c]: the queue as a bounded FIFO, the dump of the
    queue, a registration, a rejection, an operation *)

Module Hw7More.
Import Hw7 Hw7Facts Hw7Gate.

Section More.

Context {L : imglib}.

#[local] Arguments slot_at : simpl never.
#[local] Arguments slot_set : simpl never.
#[local] Arguments wrap64 : simpl never.
#[local] Arguments realloc : simpl never.
#[local] Arguments Z.modulo : simpl never.
#[local] Arguments Z.sub : simpl never.
#[local] Arguments Z.add : simpl never.

#[local] Abbreviation M := (SM shared).

(** *** [dump_queue_status] *)

Lemma ring_slot_succ (q : queue) (k : nat) :
  queue_ok q ->
  wrap64 (ring_slot q k + 1) mod max_size q = ring_slot q (S k).
Proof.
  intros [Hmax Hlen Hwr Hrd Hav]. unfold ring_slot.
  pose proof (Z.mod_pos_bound (rd_pos q + Z.of_nat k) (max_size q)) as Hb.
  rewrite wrap64_small by lia.
  rewrite Zplus_mod_idemp_l. f_equal. lia.
Qed.

Lemma dump_loop_holds (s : shared) (q : queue) (l : list request_meta) :
  queue_holds q l ->
  forall n k, (k + n = length l)%nat ->
    dump_loop n (ring_slot q k) q s
    = Done (map (fun e => as_long (req_id (request_of e))) (drop k l), s).
Proof.
  intros Hh n. induction n as [|n IH]; intros k Hk.
  - rewrite drop_ge by lia. reflexivity.
  - destruct (lookup_lt_is_Some_2 l k) as [e He]; [lia|].
    rewrite (drop_S _ _ _ He). cbn [dump_loop map].
    unfold bind at 1. rewrite (holds_live _ _ Hh _ _ He). cbn [defined ret].
    unfold bind at 1, umod.
    pose proof (holds_ok _ _ Hh) as Hok. pose proof Hok as [Hmax _ _ _ _].
    destruct (max_size q =? 0) eqn:E0; [lia|]. cbn [ret].
    rewrite (ring_slot_succ _ _ Hok).
    unfold bind. rewrite (IH (S k)) by lia. reflexivity.
Qed.

(** X5. [dump_queue_status] on a queue that holds the sequence [l] prints one
    line [Q:[...]] with the request IDs of [l], oldest first, as [%ld]
    prints them: a request ID below [2^63] as it is, a request ID from
    [2^63] up as the negative number [ID - 2^64]. It leaves the queue and
    the rest of the shared state as they are. *)
Theorem dump_queue_status_lists (s : shared) (l : list request_meta) :
  queue_holds (the_queue s) l ->
  (0 < sem_value queue_mutex (sems s))%nat ->
  (0 < sem_value printf_mutex (sems s))%nat ->
  dump_queue_status s
  = Done (tt, set_stdout
                (stdout s
                 ++ [LineQ (map (fun e => as_long (req_id (request_of e))) l)]) s) /\
  (forall id, 0 <= id < 2 ^ 63 -> as_long id = id) /\
  (forall id, 2 ^ 63 <= id < 2 ^ 64 -> as_long id = id - 2 ^ 64 /\ as_long id < 0).
Proof.
  intros Hh Hm Hp.
  split; cycle 1.
  { unfold as_long. split; intros id Hid.
    - destruct (Z.ltb_spec id (2 ^ 63)); lia.
    - destruct (Z.ltb_spec id (2 ^ 63)); lia. }
  pose proof (holds_ok _ _ Hh) as [Hmax Hlen Hwr Hrd Hav].
  pose proof (holds_avail _ _ Hh) as Ha.
  unfold dump_queue_status, bind, sem_wait, sem_post, gets, modify, printf.
  cbn in Hm, Hp.
  destruct (sem_value queue_mutex (sems s)) as [|m] eqn:Em; [cbn in Em; lia|].
  cbn. destruct (v_printf_mutex (sems s)) as [|p] eqn:Ep; [lia|].
  cbn.
  replace (wrap64 (max_size (the_queue s) - available (the_queue s)))
    with (Z.of_nat (length l)) by (rewrite wrap64_small; lia).
  rewrite Nat2Z.id.
  assert (H0 : rd_pos (the_queue s) = ring_slot (the_queue s) 0).
  { unfold ring_slot. rewrite Z.add_0_r, Z.mod_small; lia. }
  rewrite H0.
  match goal with
  | |- context [dump_loop _ _ _ ?s1] =>
      rewrite (dump_loop_holds s1 (the_queue s) l Hh (length l) 0) by lia
  end.
  cbn. destruct s as [q v ? ? ? ? ? ? ? ? ?], v; cbn in *. subst. reflexivity.
Qed.

(** *** The queue under any sequence of admissions and extractions *)

Inductive queue_op :=
| OpAdd (r : request_meta)
| OpGet.

Inductive outcome :=
| Added (v : Z)
| Got (e : request_meta).

(** The operations of [ops] run on the queue in order, by one thread. *)
Fixpoint run_ops (ops : list queue_op) : M (list outcome) :=
  match ops with
  | [] => ret []
  | OpAdd r :: rest =>
      v <- add_to_queue r ;;
      os <- run_ops rest ;;
      ret (Added v :: os)
  | OpGet :: rest =>
      e <- get_from_queue ;;
      os <- run_ops rest ;;
      ret (Got e :: os)
  end.

(** The reference: a FIFO sequence of at most [cap] requests. An admission
    appends (0) or, when [cap] requests are held, is refused (1); an
    extraction takes the oldest request and has no outcome on the empty
    sequence. *)
Fixpoint fifo_model (cap : nat) (l : list request_meta) (ops : list queue_op) :
    option (list outcome * list request_meta) :=
  match ops with
  | [] => Some ([], l)
  | OpAdd r :: rest =>
      if (length l <? cap)%nat then
        match fifo_model cap (l ++ [r]) rest with
        | Some (os, l') => Some (Added 0 :: os, l')
        | None => None
        end
      else
        match fifo_model cap l rest with
        | Some (os, l') => Some (Added 1 :: os, l')
        | None => None
        end
  | OpGet :: rest =>
      match l with
      | [] => None
      | e :: l' =>
          match fifo_model cap l' rest with
          | Some (os, l'') => Some (Got e :: os, l'')
          | None => None
          end
      end
  end.

Definition targets_registered (s : shared) (ops : list queue_op) : Prop :=
  Forall (fun o => match o with
                   | OpAdd r => registered s (img_id (request_of r))
                   | OpGet => True
                   end) ops.

Lemma targets_registered_admitted s to_add img_arr ops :
  slot_at (wait_op s) (img_id (request_of to_add)) = Some (Some img_arr) ->
  targets_registered s ops ->
  targets_registered (admitted to_add img_arr s) ops.
Proof.
  intros Hs H. unfold targets_registered in *.
  eapply Forall_impl; [exact H|].
  intros [r|]; [|auto]. now apply admitted_registered.
Qed.

Lemma get_from_queue_empty (s : shared) :
  sem_value queue_notify (sems s) = 0%nat -> get_from_queue s = Blocked.
Proof. intros H. unfold get_from_queue, bind, sem_wait. now rewrite H. Qed.

(** X6. The ring of [server_mimg.c] is a bounded FIFO queue. From a queue
    that holds the sequence [l], any sequence of [add_to_queue] and
    [get_from_queue] calls has the outcomes of the reference FIFO of
    capacity [max_size]: an admission returns 0 and appends while fewer than
    [max_size] requests are held and returns 1 otherwise, an extraction
    returns the oldest request held, and waits on the empty queue; the ring
    holds the sequence of the reference afterwards. *)
Theorem queue_refines_fifo (ops : list queue_op) : forall (s : shared) l,
  queue_holds (the_queue s) l ->
  sem_value queue_notify (sems s) = length l ->
  (0 < sem_value queue_mutex (sems s))%nat ->
  (0 < sem_value operation_mutex (sems s))%nat ->
  targets_registered s ops ->
  match fifo_model (Z.to_nat (max_size (the_queue s))) l ops with
  | Some (outs, l') =>
      exists s',
        run_ops ops s = Done (outs, s') /\
        queue_holds (the_queue s') l' /\
        sem_value queue_notify (sems s') = length l'
  | None => run_ops ops s = Blocked
  end.
Proof.
  induction ops as [|[r|] ops IH]; intros s l Hh Hn Hm Ho Hreg.
  - cbn. exists s. auto.
  - apply Forall_cons in Hreg as [[img_arr Hr] Hreg].
    pose proof (holds_ok _ _ Hh) as [Hmax Hlen Hwr Hrd Hav].
    pose proof (holds_avail _ _ Hh) as Ha.
    cbn [fifo_model run_ops].
    destruct (Nat.ltb_spec (length l) (Z.to_nat (max_size (the_queue s)))) as [Hlt|Hge].
    + assert (Hne : available (the_queue s) <> 0) by lia.
      pose proof (add_to_queue_room r s img_arr Hm Ho (holds_ok _ _ Hh) Hne Hr) as Hadd.
      specialize (IH (admitted r img_arr s) (l ++ [r])).
      change (max_size (the_queue (admitted r img_arr s)))
        with (max_size (the_queue s)) in IH.
      destruct (fifo_model _ (l ++ [r]) ops) as [[os l']|].
      * destruct IH as (s' & Hrun & Hh' & Hn').
        -- now apply admitted_holds.
        -- cbn. cbn in Hn. rewrite Hn, length_app. cbn. lia.
        -- exact Hm.
        -- exact Ho.
        -- now apply targets_registered_admitted.
        -- exists s'. unfold bind. rewrite Hadd, Hrun. auto.
      * unfold bind. rewrite Hadd, IH; auto.
        -- now apply admitted_holds.
        -- cbn. cbn in Hn. rewrite Hn, length_app. cbn. lia.
        -- now apply targets_registered_admitted.
    + assert (He : available (the_queue s) = 0) by lia.
      pose proof (add_to_queue_full r s Hm He) as Hadd.
      specialize (IH s l Hh Hn Hm Ho Hreg).
      destruct (fifo_model _ l ops) as [[os l']|].
      * destruct IH as (s' & Hrun & Hh' & Hn').
        exists s'. unfold bind. rewrite Hadd, Hrun. auto.
      * unfold bind. now rewrite Hadd, IH.
  - apply Forall_cons in Hreg as [_ Hreg].
    cbn [fifo_model run_ops]. destruct l as [|e l].
    + unfold bind. now rewrite get_from_queue_empty.
    + destruct (holds_head _ _ _ Hh) as [Hs Ha].
      assert (Hget : get_from_queue s = Done (e, extracted s)).
      { apply get_from_queue_head; auto; [rewrite Hn; cbn; lia | apply Hh]. }
      specialize (IH (extracted s) l).
      change (max_size (the_queue (extracted s)))
        with (max_size (the_queue s)) in IH.
      destruct (fifo_model _ l ops) as [[os l']|].
      * destruct IH as (s' & Hrun & Hh' & Hn').
        -- now apply extracted_holds with e.
        -- cbn. cbn in Hn. now rewrite Hn.
        -- exact Hm.
        -- exact Ho.
        -- exact Hreg.
        -- exists s'. unfold bind. rewrite Hget, Hrun. auto.
      * unfold bind. rewrite Hget, IH; auto.
        -- now apply extracted_holds with e.
        -- cbn. cbn in Hn. now rewrite Hn.
Qed.

(** *** A registration that no worker interleaves with *)

(** X7. [register_new_image], run with no step of a worker in between,
    receives the image, stores it under the ID [image_counter], initialises
    the semaphore of the image to 1 and its ordering sequence to the empty
    one, and sends one COMPLETED response that carries that ID. *)
Theorem register_new_image_alone (req : request) (s : shared) img rest :
  0 <= image_counter s -> image_counter s + 1 < 2 ^ 64 ->
  (0 < sem_value arr_mutex (sems s))%nat ->
  (0 < sem_value operation_mutex (sems s))%nat ->
  (0 < sem_value conn_socket_mutex (sems s))%nat ->
  inbound s = PktImage img :: rest ->
  let n := image_counter s in
  let resp := {| resp_req_id := Some (req_id req);
                 resp_img_id := Some n;
                 resp_ack := Some RESP_COMPLETED |} in
  let s' := set_outbound (outbound s ++ [SentResponse resp])
              (after_register img rest s) in
  register_new_image req s = Done (tt, s') /\
  image_counter s' = n + 1 /\
  slot_at (images s') n = Some (Some img) /\
  slot_at (img_semaphores s') n = Some (Some 1%nat) /\
  slot_at (wait_op s') n = Some (Some {| request_ids := []; capacity := 0 |}) /\
  inbound s' = rest /\
  the_queue s' = the_queue s.
Proof.
  intros H0 H1 Ha Ho Hc Hin n resp s'. subst n resp s'.
  split.
  - unfold register_new_image, bind.
    rewrite (register_new_image_store_done s img rest Ha Ho H0 H1 Hin).
    unfold register_new_image_resp, send_response, bind, gets, ret, sem_wait,
      sem_post, send, modify.
    cbn in Hc. cbn.
    destruct (v_conn_socket_mutex (sems s)) as [|k] eqn:Ek; [lia|].
    cbn. replace (wrap64 (image_counter s + 1 - 1)) with (image_counter s)
      by (rewrite wrap64_small; lia).
    destruct s as [q v ? ? ? ? ? ? ? ? ?], v; cbn in *. subst. reflexivity.
  - cbn. split; [reflexivity|].
    repeat split; try reflexivity;
      apply slot_at_set_eq; try assumption; rewrite length_realloc; lia.
Qed.

(** *** A rejection *)

(** X8. A request that finds the queue full is rejected in three steps of
    the dispatcher, from any state: one response with the request ID and
    REJECTED goes out, with its image ID as declared (lines 570-573 do not
    assign it), one X line is printed, the dispatcher is back at [recv], and
    the queue, the ordering table, the store and the workers are as they
    were. *)
Theorem rejection_in_general (m : machine) :
  d_pc (disp m) = D_add ->
  available (the_queue (sh m)) = 0 ->
  (0 < sem_value queue_mutex (sems (sh m)))%nat ->
  (0 < sem_value conn_socket_mutex (sems (sh m)))%nat ->
  (0 < sem_value printf_mutex (sems (sh m)))%nat ->
  let r := request_of (d_req (disp m)) in
  let resp := {| resp_req_id := Some (req_id r);
                 resp_img_id := None;
                 resp_ack := Some RESP_REJECTED |} in
  run [Dispatcher; Dispatcher; Dispatcher] m
  = Done {| sh := set_stdout (stdout (sh m) ++ [rejection_trace (d_req (disp m))])
                    (set_outbound (outbound (sh m) ++ [SentResponse resp]) (sh m));
            disp := d_at D_recv (set_d_resp resp (disp m));
            pool := pool m |}.
Proof.
  intros Hpc Hav Hm Hc Hp r resp. subst r resp.
  destruct m as [s d ws]. cbn [sh disp pool] in *.
  unfold run, step. cbn [disp sh pool]. rewrite Hpc.
  unfold dispatcher_step at 1. rewrite Hpc. unfold bind at 1.
  rewrite (add_to_queue_full (d_req d) s Hm Hav). cbn [lift].
  cbn.
  unfold send_response, sync_printf, bind, sem_wait, sem_post, send, printf,
    modify, ret.
  cbn in Hc, Hp. cbn.
  destruct (v_conn_socket_mutex (sems s)) as [|k] eqn:Ek; [lia|].
  cbn. destruct (v_printf_mutex (sems s)) as [|p] eqn:Ep; [lia|].
  cbn. destruct s as [q v ? ? ? ? ? ? ? ? ?], v, d; cbn in *. subst. reflexivity.
Qed.

(** *** An operation served by a worker that no other thread interleaves
    with *)

Lemma worker_steps_step (n : nat) (w w1 : worker) (s s1 : shared) :
  worker_step w s = Done (w1, s1) ->
  worker_steps (S n) w s = worker_steps n w1 s1.
Proof. intros H. cbn [worker_steps]. unfold bind. now rewrite H. Qed.

(** The steps of lines 289-338, one by one. *)

Lemma step_sem_wait (w : worker) (s : shared) n :
  w_pc w = W_sem_wait ->
  slot_at (img_semaphores s) (w_img_id w) = Some (Some (S n)) ->
  worker_step w s = Done (w_at W_turn_test w, with_sem (w_img_id w) n s).
Proof.
  intros Hpc Hs. unfold worker_step. rewrite Hpc.
  unfold img_sem_wait, bind, gets. rewrite Hs. reflexivity.
Qed.

Lemma step_turn_test_pass (w : worker) (s : shared) arr rest :
  w_pc w = W_turn_test ->
  slot_at (wait_op s) (w_img_id w) = Some (Some arr) ->
  request_ids arr = req_id (request_of (w_req w)) :: rest ->
  worker_step w s = Done (w_at W_turn_take w, s).
Proof.
  intros Hpc Hs Hids. unfold worker_step. rewrite Hpc.
  unfold bind, gets. rewrite Hs. cbn [defined ret].
  unfold not_my_turn. rewrite Hids. cbn [hd].
  now rewrite Z.eqb_refl, andb_false_r.
Qed.

Lemma step_turn_take (w : worker) (s : shared) arr x rest :
  w_pc w = W_turn_take ->
  slot_at (wait_op s) (w_img_id w) = Some (Some arr) ->
  request_ids arr = x :: rest ->
  (0 < sem_value operation_mutex (sems s))%nat ->
  worker_step w s
  = Done (w_at W_stamp_start w,
          with_tab (w_img_id w)
            {| request_ids := rest; capacity := capacity arr |} s).
Proof.
  intros Hpc Hs Hids Ho. unfold worker_step. rewrite Hpc.
  unfold turn_take, bind, sem_wait, sem_post, gets, modify, with_tab.
  destruct (sem_value operation_mutex (sems s)) as [|o] eqn:Eo; [lia|].
  cbn [wait_op set_sems]. rewrite Hs. cbn [defined ret]. rewrite Hids.
  cbn. destruct s as [q v ? ? ? ? ? ? ? ? ?], v; cbn in *. subst. reflexivity.
Qed.

Lemma step_stamp_start (w : worker) (s : shared) :
  w_pc w = W_stamp_start ->
  worker_step w s
  = Done (w_at W_process
            (set_w_req (set_start_timestamp (ns_timespec (clock s)) (w_req w)) w),
          stamped (request_of (w_req w)) s).
Proof. intros Hpc. unfold worker_step. rewrite Hpc. reflexivity. Qed.

Lemma step_process (w : worker) (s : shared) img :
  w_pc w = W_process ->
  slot_at (images s) (w_img_id w) = Some (Some img) ->
  worker_step w s
  = Done (w_at W_publish
            (set_w_img (Some (image_op (img_op (request_of (w_req w))) img)) w), s).
Proof.
  intros Hpc Hs. unfold worker_step. rewrite Hpc.
  unfold bind, gets. rewrite Hs. reflexivity.
Qed.

Lemma step_publish_overwrite (w : worker) (s : shared) img x :
  w_pc w = W_publish ->
  w_img w = Some img ->
  img_opcode_eqb (img_op (request_of (w_req w))) IMG_RETRIEVE = false ->
  overwrite (request_of (w_req w)) <> 0 ->
  (0 < sem_value arr_mutex (sems s))%nat ->
  slot_at (images s) (w_img_id w) = Some x ->
  worker_step w s
  = Done (w_at W_sem_post (set_w_img_id (w_img_id w) w),
          set_images (slot_set (images s) (w_img_id w) (Some img)) s).
Proof.
  intros Hpc Him Hop How Ha Hs. unfold worker_step. rewrite Hpc, Him.
  unfold bind.
  now rewrite (publish_overwrite _ (w_img_id w) img s x Hop How Ha Hs).
Qed.

Lemma step_sem_post (w : worker) (s : shared) x :
  w_pc w = W_sem_post ->
  slot_at (img_semaphores s) (w_img_id w) = Some (Some x) ->
  worker_step w s = Done (w_at W_stamp_completion w, with_sem (w_img_id w) (S x) s).
Proof.
  intros Hpc Hs. unfold worker_step. rewrite Hpc.
  unfold img_sem_post, bind, gets. rewrite Hs. reflexivity.
Qed.

(** X9. An overwriting operation, from the wait on the semaphore of the
    image to its release (lines 289-338), by a worker whose request is at
    the head of the ordering sequence of the image and whose image is free:
    the image stored under the target ID is replaced by the result of the
    requested transformation of the image that was there, no other image
    changes and no ID is allocated, the head of the ordering sequence is
    removed, the start is stamped with the time of the clock, and the
    semaphore of the image is free again. *)
Theorem overwriting_operation_alone (w : worker) (s : shared) arr rest img :
  let r := request_of (w_req w) in
  let i := img_id r in
  w_pc w = W_sem_wait ->
  w_img_id w = i ->
  img_opcode_eqb (img_op r) IMG_RETRIEVE = false ->
  overwrite r <> 0 ->
  slot_at (img_semaphores s) i = Some (Some 1%nat) ->
  slot_at (wait_op s) i = Some (Some arr) ->
  request_ids arr = req_id r :: rest ->
  slot_at (images s) i = Some (Some img) ->
  (0 < sem_value operation_mutex (sems s))%nat ->
  (0 < sem_value arr_mutex (sems s))%nat ->
  exists w' s',
    worker_steps 7 w s = Done (w', s') /\
    w_pc w' = W_stamp_completion /\
    w_img_id w' = i /\
    start_timestamp (w_req w') = Some (ns_timespec (clock s)) /\
    slot_at (images s') i = Some (Some (image_op (img_op r) img)) /\
    (forall j, j <> i -> slot_at (images s') j = slot_at (images s) j) /\
    image_counter s' = image_counter s /\
    slot_at (wait_op s') i
    = Some (Some {| request_ids := rest; capacity := capacity arr |}) /\
    slot_at (img_semaphores s') i = Some (Some 1%nat) /\
    events s' = events s ++ [EvStart r (ns_timespec (clock s))] /\
    the_queue s' = the_queue s /\
    outbound s' = outbound s.
Proof.
  intros r i Hpc Hid Hop How Hsem Htab Hids Himg Ho Ha.
  destruct (slot_at_Some _ _ _ Hsem) as [Hi0 Hi1].
  destruct (slot_at_Some _ _ _ Htab) as [_ Hi2].
  destruct (slot_at_Some _ _ _ Himg) as [_ Hi3].
  set (w1 := w_at W_turn_test w).
  set (s1 := with_sem i 0 s).
  set (w2 := w_at W_turn_take w1).
  set (w3 := w_at W_stamp_start w2).
  set (s3 := with_tab i {| request_ids := rest; capacity := capacity arr |} s1).
  set (w4 := w_at W_process
               (set_w_req (set_start_timestamp (ns_timespec (clock s3)) (w_req w3)) w3)).
  set (s4 := stamped (request_of (w_req w3)) s3).
  set (w5 := w_at W_publish (set_w_img (Some (image_op (img_op r) img)) w4)).
  set (w6 := w_at W_sem_post (set_w_img_id i w5)).
  set (s6 := set_images (slot_set (images s4) i (Some (image_op (img_op r) img))) s4).
  set (w7 := w_at W_stamp_completion w6).
  set (s7 := with_sem i 1 s6).
  assert (E1 : worker_step w s = Done (w1, s1)).
  { subst w1 s1. rewrite <- Hid. apply step_sem_wait; [exact Hpc|].
    rewrite Hid. exact Hsem. }
  assert (E2 : worker_step w1 s1 = Done (w2, s1)).
  { apply (step_turn_test_pass w1 s1 arr rest); [reflexivity | | exact Hids].
    change (w_img_id w1) with (w_img_id w). rewrite Hid. exact Htab. }
  assert (E3 : worker_step w2 s1 = Done (w3, s3)).
  { subst w3 s3. rewrite <- Hid.
    apply (step_turn_take w2 s1 arr (req_id r) rest);
      [reflexivity | | exact Hids | exact Ho].
    change (w_img_id w2) with (w_img_id w). rewrite Hid. exact Htab. }
  assert (E4 : worker_step w3 s3 = Done (w4, s4)).
  { now apply step_stamp_start. }
  assert (E5 : worker_step w4 s4 = Done (w5, s4)).
  { apply (step_process w4 s4 img); [reflexivity|].
    change (w_img_id w4) with (w_img_id w). rewrite Hid. exact Himg. }
  assert (E6 : worker_step w5 s4 = Done (w6, s6)).
  { subst w6 s6. rewrite <- Hid.
    apply (step_publish_overwrite w5 s4 _ (Some img));
      [reflexivity | reflexivity | exact Hop | exact How | exact Ha |].
    change (w_img_id w5) with (w_img_id w). rewrite Hid. exact Himg. }
  assert (E7 : worker_step w6 s6 = Done (w7, s7)).
  { subst w7 s7.
    apply (step_sem_post w6 s6 0); [reflexivity|].
    change (w_img_id w6) with i.
    change (img_semaphores s6) with (slot_set (img_semaphores s) i (Some 0%nat)).
    now apply slot_at_set_eq. }
  exists w7, s7. split.
  { rewrite (worker_steps_step _ _ _ _ _ E1), (worker_steps_step _ _ _ _ _ E2),
      (worker_steps_step _ _ _ _ _ E3), (worker_steps_step _ _ _ _ _ E4),
      (worker_steps_step _ _ _ _ _ E5), (worker_steps_step _ _ _ _ _ E6),
      (worker_steps_step _ _ _ _ _ E7).
    reflexivity. }
  split; [reflexivity|]. split; [reflexivity|]. split; [reflexivity|].
  split.
  { change (images s7) with (slot_set (images s) i (Some (image_op (img_op r) img))).
    now apply slot_at_set_eq. }
  split.
  { intros j Hj.
    change (images s7) with (slot_set (images s) i (Some (image_op (img_op r) img))).
    apply slot_at_set_ne; auto. }
  split; [reflexivity|].
  split.
  { change (wait_op s7)
      with (slot_set (wait_op s) i
              (Some {| request_ids := rest; capacity := capacity arr |})).
    now apply slot_at_set_eq. }
  split.
  { change (img_semaphores s7)
      with (slot_set (slot_set (img_semaphores s) i (Some 0%nat)) i (Some 1%nat)).
    apply slot_at_set_eq; [assumption | now rewrite length_slot_set]. }
  split; [reflexivity|]. split; reflexivity.
Qed.

(** X10. After an operation that does not overwrite, the worker posts the
    semaphore that its local [img_id] names, and line 332 has set it to the
    new image ID: when the semaphores allocated are no more than
    [image_counter], as [register_new_image] leaves them, that semaphore is
    outside the array and the call of line 338 has no defined behaviour,
    the semaphore of the target image is not released. *)
Theorem output_operation_post (w : worker) (s : shared) img :
  let r := request_of (w_req w) in
  w_pc w = W_publish ->
  w_img w = Some img ->
  img_opcode_eqb (img_op r) IMG_RETRIEVE = false ->
  overwrite r = 0 ->
  (0 < sem_value arr_mutex (sems s))%nat ->
  0 <= image_counter s -> image_counter s + 1 < 2 ^ 64 ->
  (length (img_semaphores s) <= Z.to_nat (image_counter s))%nat ->
  worker_steps 1 w s
  = Done (w_at W_sem_post (set_w_img_id (image_counter s) w), after_output img s) /\
  img_semaphores (after_output img s) = img_semaphores s /\
  worker_steps 2 w s = Undefined.
Proof.
  intros r Hpc Him Hop How Ha H0 H1 Hlen. subst r.
  assert (Hstep : worker_step w s
                  = Done (w_at W_sem_post (set_w_img_id (image_counter s) w),
                          after_output img s)).
  { unfold worker_step. rewrite Hpc, Him. unfold bind.
    now rewrite (publish_output _ (w_img_id w) img s Hop How Ha H0 H1). }
  split; [|split; [reflexivity|]].
  - cbn [worker_steps]. unfold bind. now rewrite Hstep.
  - rewrite (worker_steps_step _ _ _ _ _ Hstep).
    cbn [worker_steps]. unfold bind, worker_step. cbn.
    unfold img_sem_post, bind, gets. cbn.
    unfold slot_at. destruct (0 <=? image_counter s) eqn:E; [|reflexivity].
    rewrite lookup_ge_None_2 by lia. reflexivity.
Qed.

End More.

(** *** On concrete states *)

#[local] Existing Instance sym_imglib.

(** The state that a schedule leads to. *)
Definition state_after (sched : list tid) (m : machine) : machine :=
  match run sched m with
  | Done m' => m'
  | _ => m
  end.

(** The queue holds the request 1 and a request whose ID is the largest
    64-bit number. *)
Definition demo_large : shared (L := sym_imglib) :=
  admitted (demo_meta (2 ^ 64 - 1)) (img_req_array_push demo_array 1) demo_one.

Lemma demo_large_holds :
  queue_holds (the_queue demo_large) [demo_meta 1; demo_meta (2 ^ 64 - 1)].
Proof.
  apply (admitted_holds (demo_meta (2 ^ 64 - 1)) _ demo_one [demo_meta 1]
           demo_one_holds).
  discriminate.
Qed.

Lemma dump_queue_status_lists_witness :
  dump_queue_status demo_large
  = Done (tt, set_stdout (stdout demo_large ++ [LineQ [1; -1]]) demo_large).
Proof.
  apply (dump_queue_status_lists demo_large [demo_meta 1; demo_meta (2 ^ 64 - 1)]).
  - apply demo_large_holds.
  - cbn. lia.
  - cbn. lia.
Defined.

(** Two slots: the third admission is refused, the slot freed by an
    extraction is used again. *)
Lemma queue_refines_fifo_witness :
  exists s',
    run_ops [OpAdd (demo_meta 1); OpAdd (demo_meta 2); OpAdd (demo_meta 3);
             OpGet; OpAdd (demo_meta 3); OpGet; OpGet] demo_empty
    = Done ([Added 0; Added 0; Added 1; Got (demo_meta 1); Added 0;
             Got (demo_meta 2); Got (demo_meta 3)], s') /\
    queue_holds (the_queue s') [] /\
    sem_value queue_notify (sems s') = 0%nat.
Proof.
  apply (queue_refines_fifo
           [OpAdd (demo_meta 1); OpAdd (demo_meta 2); OpAdd (demo_meta 3);
            OpGet; OpAdd (demo_meta 3); OpGet; OpGet] demo_empty []).
  - apply demo_empty_holds.
  - reflexivity.
  - cbn. lia.
  - cbn. lia.
  - repeat constructor; exists demo_array; reflexivity.
Defined.

Definition demo_upload : shared (L := sym_imglib) :=
  set_inbound [PktImage (Uploaded 7)] demo_empty.

Lemma register_new_image_alone_witness :
  exists s',
    register_new_image (demo_request 9 IMG_REGISTER 0 0) demo_upload = Done (tt, s') /\
    images s' = [Some (Uploaded 0); Some (Uploaded 7)] /\
    outbound s' = [SentResponse {| resp_req_id := Some 9;
                                   resp_img_id := Some 1;
                                   resp_ack := Some RESP_COMPLETED |}].
Proof.
  destruct (register_new_image_alone (demo_request 9 IMG_REGISTER 0 0) demo_upload
              (Uploaded 7) []) as (Hrun & _); try (cbn; lia); try reflexivity.
  eexists. split; [exact Hrun|]. split; reflexivity.
Defined.

(** One slot, taken by a first request: the dispatcher is about to admit a
    second one. *)
Definition at_full_queue : machine :=
  Eval vm_compute in
    state_after (repeat Dispatcher 11) (init 1 1 QUEUE_FIFO Hw7Runs.full_queue).

Lemma rejection_in_general_witness :
  exists m,
    run [Dispatcher; Dispatcher; Dispatcher] at_full_queue = Done m /\
    d_pc (disp m) = D_recv /\
    last (outbound (sh m))
    = Some (SentResponse {| resp_req_id := Some 2;
                            resp_img_id := None;
                            resp_ack := Some RESP_REJECTED |}) /\
    the_queue (sh m) = the_queue (sh at_full_queue).
Proof.
  eexists. split.
  - apply (rejection_in_general at_full_queue);
      (reflexivity || (cbn; lia)).
  - repeat split; reflexivity.
Defined.

(** A blur of the image 0 is admitted and taken by the worker 0. *)
Definition blur_taken : machine :=
  Eval vm_compute in
    state_after (repeat Dispatcher 10 ++ repeat (Worker 0) 3)
      (init 2 1 QUEUE_FIFO
         [PktRequest (Hw7Runs.req 0 IMG_REGISTER 0 0); PktImage (Uploaded 10);
          PktRequest (Hw7Runs.req 1 IMG_BLUR 1 0)]).

Definition blur_worker : worker (L := sym_imglib) :=
  match pool blur_taken with
  | w :: _ => w
  | [] => worker_init 0
  end.

Lemma overwriting_operation_alone_witness :
  exists w' s',
    worker_steps 7 blur_worker (sh blur_taken) = Done (w', s') /\
    images s' = [Some (Applied IMG_BLUR (Uploaded 10))] /\
    img_semaphores s' = [Some 1%nat].
Proof.
  destruct (overwriting_operation_alone blur_worker (sh blur_taken)
              {| request_ids := [1]; capacity := 1 |} [] (Uploaded 10))
    as (w' & s' & Hrun & _); try reflexivity; try discriminate;
    try (vm_compute; lia).
  exists w', s'. split; [exact Hrun|].
  vm_compute in Hrun. injection Hrun as <- <-. split; reflexivity.
Defined.

(** A rotation of the image 0 that does not overwrite is about to be
    published by the worker 0. *)
Definition rotation_done : machine :=
  Eval vm_compute in
    state_after (repeat Dispatcher 10 ++ repeat (Worker 0) 8)
      (init 4 1 QUEUE_FIFO Hw7Runs.register_during_operation).

Definition rotation_worker : worker (L := sym_imglib) :=
  match pool rotation_done with
  | w :: _ => w
  | [] => worker_init 0
  end.

Definition rotation_state : shared (L := sym_imglib) := sh rotation_done.

Lemma output_operation_post_witness :
  worker_steps 2 rotation_worker rotation_state = Undefined /\
  img_semaphores rotation_state = [Some 0%nat].
Proof.
  split; [|reflexivity].
  apply (output_operation_post rotation_worker rotation_state
           (Applied IMG_ROT90CLKW (Uploaded 10)));
    try reflexivity; vm_compute; (lia || discriminate).
Defined.

End Hw7More.

(** ** What every execution of [server_mimg.c] keeps

    The invariants below hold in every execution with a defined behaviour,
    whatever the client sends: they do not depend on the request IDs. *)

Module Hw7Safety.
Import Hw7 Hw7Facts Hw7Gate.

Section Safety.

Context {L : imglib}.

#[local] Arguments slot_at : simpl never.
#[local] Arguments slot_set : simpl never.
#[local] Arguments wrap64 : simpl never.
#[local] Arguments realloc : simpl never.
#[local] Arguments Z.modulo : simpl never.
#[local] Arguments Z.sub : simpl never.
#[local] Arguments Z.add : simpl never.

(** The worker is between the return of its [sem_wait] on the semaphore of
    the image (line 289 or 293) and its [sem_post] of line 338. *)
Definition in_section (w : worker) : bool := holding (phase_of (w_pc w)).

(** [safe_inv s vs]: the shared state [s] and the views [vs] of the workers
    fit together. *)
Record safe_inv (s : shared) (vs : list view) : Prop := {
  sf_counter : 0 <= image_counter s < 2 ^ 64;
  sf_semlen : (length (img_semaphores s) <= Z.to_nat (image_counter s))%nat;
  sf_sem : forall i x, sem_of s i = Some x -> (x <= 1)%nat;
  sf_done : forall k v, vs !! k = Some v -> v_done v = 0;
  sf_local : forall k v, vs !! k = Some v ->
               pending (v_ph v) || holding (v_ph v) = true ->
               v_ph v <> Releasing -> v_local v = tgt v;
  sf_release : forall k v, vs !! k = Some v -> v_ph v = Releasing ->
                 v_local v = tgt v \/
                 (sem_of s (v_local v) = None /\ v_local v < image_counter s);
  sf_hold : forall k v, vs !! k = Some v -> holding (v_ph v) = true ->
              sem_of s (tgt v) = Some 0%nat;
  sf_excl : forall k1 k2 v1 v2,
              vs !! k1 = Some v1 -> vs !! k2 = Some v2 -> k1 <> k2 ->
              holding (v_ph v1) = true -> holding (v_ph v2) = true ->
              tgt v1 <> tgt v2;
  sf_queue : exists lq,
               queue_holds (the_queue s) lq /\
               sem_value queue_notify (sems s) = length lq
}.

Ltac open_safe H :=
  destruct H as [Hc Hlen Hsem Hdone Hloc Hrel Hhold Hexcl Hq].

Ltac view_case Hj :=
  apply list_lookup_insert_Some in Hj as [(<- & <- & _) | (? & Hj)].

Lemma sem_of_below (s : shared) i x :
  (length (img_semaphores s) <= Z.to_nat (image_counter s))%nat ->
  0 <= image_counter s ->
  sem_of s i = Some x -> i < image_counter s.
Proof.
  intros Hlen Hc H. apply sem_of_slot, slot_at_Some in H. lia.
Qed.

(** The parts of the shared state that [safe_inv] reads. *)
Record agree (s s' : shared) : Prop := {
  ag_queue : the_queue s' = the_queue s;
  ag_notify : sem_value queue_notify (sems s') = sem_value queue_notify (sems s);
  ag_counter : image_counter s' = image_counter s;
  ag_sems : img_semaphores s' = img_semaphores s
}.

Lemma frame_agree s s' : frame s s' -> agree s s'.
Proof. intros F. split; apply F. Qed.

Lemma safe_agree (s s' : shared) vs :
  safe_inv s vs -> agree s s' -> safe_inv s' vs.
Proof.
  intros H [Aq An Ac As]. open_safe H.
  assert (Es : forall i, sem_of s' i = sem_of s i).
  { intros i. unfold sem_of. now rewrite As. }
  split; try assumption.
  - now rewrite Ac.
  - now rewrite As, Ac.
  - intros i x Hx. rewrite Es in Hx. eauto.
  - intros k v Hk Hp. rewrite Es, Ac. eauto.
  - intros k v Hk Hp. rewrite Es. eauto.
  - destruct Hq as (lq & H1 & H2). exists lq. now rewrite Aq, An.
Qed.

(** A worker that holds the semaphore of its image moves on. *)
Lemma safe_move (s : shared) vs k v p' :
  safe_inv s vs -> vs !! k = Some v ->
  holding (v_ph v) = true -> v_ph v <> Releasing -> holding p' = true ->
  safe_inv s (<[k := set_ph p' v]> vs).
Proof.
  intros H Hk Hh Hnr Hh'. open_safe H.
  assert (Hlv : v_local v = tgt v).
  { apply (Hloc k v Hk); [|exact Hnr]. rewrite Hh. apply orb_true_r. }
  split; try assumption.
  - intros j u Hj. view_case Hj; [cbn|]; eauto.
  - intros j u Hj. view_case Hj; [|eauto]. cbn. auto.
  - intros j u Hj. view_case Hj; [|eauto]. cbn. intros _. left. exact Hlv.
  - intros j u Hj. view_case Hj; [|eauto]. cbn. intros _.
    exact (Hhold k v Hk Hh).
  - intros k1 k2 v1 v2 H1 H2 Hne. view_case H1; view_case H2; cbn.
    + contradiction.
    + intros _ Hu. apply (Hexcl k k2 v v2); auto.
    + intros Hu _. apply (Hexcl k1 k v1 v); auto.
    + now apply (Hexcl k1 k2).
Qed.

(** The result is published: the local [img_id] is the target, or a new
    ID. *)
Lemma safe_published (s : shared) vs k v l' :
  safe_inv s vs -> vs !! k = Some v ->
  holding (v_ph v) = true -> v_ph v <> Releasing ->
  l' = v_local v \/ (sem_of s l' = None /\ l' < image_counter s) ->
  safe_inv s (<[k := mk_view Releasing (v_req v) l' (v_done v)]> vs).
Proof.
  intros H Hk Hh Hnr Hl'. open_safe H.
  assert (Hlv : v_local v = tgt v).
  { apply (Hloc k v Hk); [|exact Hnr]. rewrite Hh. apply orb_true_r. }
  split; try assumption.
  - intros j u Hj. view_case Hj; [cbn|]; eauto.
  - intros j u Hj. view_case Hj; [|eauto]. cbn. intros _ E. now elim E.
  - intros j u Hj. view_case Hj; [|eauto]. cbn. intros _.
    destruct Hl' as [-> | Hl']; [left; exact Hlv | right; exact Hl'].
  - intros j u Hj. view_case Hj; [|eauto]. cbn. intros _.
    exact (Hhold k v Hk Hh).
  - intros k1 k2 v1 v2 H1 H2 Hne. view_case H1; view_case H2; cbn.
    + contradiction.
    + intros _ Hu. apply (Hexcl k k2 v v2); auto.
    + intros Hu _. apply (Hexcl k1 k v1 v); auto.
    + now apply (Hexcl k1 k2).
Qed.

Lemma safe_output (s : shared) vs img :
  safe_inv s vs -> image_counter s + 1 < 2 ^ 64 ->
  safe_inv (after_output img s) vs.
Proof.
  intros H Hn. open_safe H. split; try assumption.
  - cbn. lia.
  - cbn. lia.
  - intros j u Hj Hr. destruct (Hrel j u Hj Hr) as [E | [E1 E2]]; [now left|].
    right. split; [exact E1 | cbn; lia].
Qed.

Lemma safe_get (s s' : shared) vs k v e :
  safe_inv s vs -> vs !! k = Some v -> v_ph v = Idle ->
  get_from_queue s = Done (e, s') ->
  safe_inv s'
    (<[k := mk_view Waiting (request_of e) (img_id (request_of e)) (v_done v)]> vs).
Proof.
  intros H Hk Hph Hg. open_safe H.
  destruct Hq as (lq & H1 & H2).
  destruct (get_from_queue_inv _ _ _ _ H1 H2 Hg) as (lq' & -> & ->).
  split; try assumption.
  - intros j u Hj. view_case Hj; [cbn|]; eauto.
  - intros j u Hj. view_case Hj; [|eauto]. cbn. auto.
  - intros j u Hj. view_case Hj; [cbn; discriminate|]. eauto.
  - intros j u Hj. view_case Hj; [cbn; discriminate|]. eauto.
  - intros k1 k2 v1 v2 Hv1 Hv2 Hne. view_case Hv1; view_case Hv2; cbn;
      try discriminate; try (intros; discriminate).
    now apply (Hexcl k1 k2).
  - exists lq'. split; [now apply extracted_holds with e|].
    cbn. cbn in H2. now rewrite H2.
Qed.

Lemma safe_sem_wait (s : shared) vs k v n :
  safe_inv s vs -> vs !! k = Some v -> v_ph v = Waiting ->
  sem_of s (v_local v) = Some (S n) ->
  safe_inv (with_sem (v_local v) n s) (<[k := set_ph Testing v]> vs).
Proof.
  intros H Hk Hph Hs. open_safe H.
  assert (Hlv : v_local v = tgt v).
  { apply (Hloc k v Hk); rewrite Hph; [reflexivity | discriminate]. }
  rewrite Hlv in *.
  assert (Hn : n = 0%nat) by (specialize (Hsem _ _ Hs); lia). subst n.
  assert (Hfree : forall j u, vs !! j = Some u -> holding (v_ph u) = true ->
                    tgt u <> tgt v).
  { intros j u Hj Hh E. rewrite <- E, (Hhold j u Hj Hh) in Hs. discriminate. }
  assert (Hother : forall i, i <> tgt v ->
                     sem_of (with_sem (tgt v) 0 s) i = sem_of s i).
  { intros i Hi. apply sem_of_with_sem_ne with 1%nat; auto. }
  split; try assumption.
  - unfold with_sem. cbn. now rewrite length_slot_set.
  - intros i x Hx. destruct (Z.eq_dec i (tgt v)) as [->|Hi].
    + rewrite (sem_of_with_sem_eq _ _ _ _ Hs) in Hx. injection Hx as <-. lia.
    + rewrite Hother in Hx by exact Hi. eauto.
  - intros j u Hj. view_case Hj; [cbn|]; eauto.
  - intros j u Hj. view_case Hj; [|eauto]. cbn. auto.
  - intros j u Hj. view_case Hj; [cbn; discriminate|]. intros Hr.
    destruct (Hrel j u Hj Hr) as [E | [E1 E2]]; [now left | right].
    split; [|exact E2]. rewrite Hother; [exact E1|].
    intros E. rewrite E, Hs in E1. discriminate.
  - intros j u Hj. view_case Hj; cbn.
    + intros _. now apply sem_of_with_sem_eq with 1%nat.
    + intros Hh. rewrite Hother; eauto.
  - intros k1 k2 v1 v2 H1 H2 Hne. view_case H1; view_case H2; cbn.
    + contradiction.
    + intros _ Hh E. now apply (Hfree k2 v2).
    + intros Hh _ E. now apply (Hfree k1 v1).
    + now apply (Hexcl k1 k2).
Qed.

Lemma safe_sem_post (s : shared) vs k v p' x :
  safe_inv s vs -> vs !! k = Some v ->
  (v_ph v = Testing /\ p' = Waiting) \/ (v_ph v = Releasing /\ p' = Idle) ->
  sem_of s (v_local v) = Some x ->
  safe_inv (with_sem (v_local v) (S x) s) (<[k := set_ph p' v]> vs).
Proof.
  intros H Hk Hp Hs. open_safe H.
  assert (Hlv : v_local v = tgt v).
  { destruct Hp as [[Hph _]|[Hph _]].
    - apply (Hloc k v Hk); rewrite Hph; [reflexivity | discriminate].
    - destruct (Hrel k v Hk Hph) as [E | [E _]]; [exact E|].
      rewrite E in Hs. discriminate. }
  rewrite Hlv in *.
  assert (Hvh : holding (v_ph v) = true) by (destruct Hp as [[-> _]|[-> _]]; reflexivity).
  assert (Hnh : holding p' = false) by (destruct Hp as [[_ ->]|[_ ->]]; reflexivity).
  assert (Hnr : p' <> Releasing) by (destruct Hp as [[_ ->]|[_ ->]]; discriminate).
  assert (Hx : x = 0%nat).
  { rewrite (Hhold k v Hk Hvh) in Hs. now injection Hs. }
  subst x.
  assert (Hother : forall i, i <> tgt v ->
                     sem_of (with_sem (tgt v) 1 s) i = sem_of s i).
  { intros i Hi. apply sem_of_with_sem_ne with 0%nat; auto. }
  split; try assumption.
  - unfold with_sem. cbn. now rewrite length_slot_set.
  - intros i x Hx. destruct (Z.eq_dec i (tgt v)) as [->|Hi].
    + rewrite (sem_of_with_sem_eq _ _ _ _ Hs) in Hx. injection Hx as <-. lia.
    + rewrite Hother in Hx by exact Hi. eauto.
  - intros j u Hj. view_case Hj; [cbn|]; eauto.
  - intros j u Hj. view_case Hj; [|eauto]. cbn. intros _ _. exact Hlv.
  - intros j u Hj. view_case Hj; [cbn; contradiction|]. intros Hr.
    destruct (Hrel j u Hj Hr) as [E | [E1 E2]]; [now left | right].
    split; [|exact E2]. rewrite Hother; [exact E1|].
    intros E. rewrite E, Hs in E1. discriminate.
  - intros j u Hj. view_case Hj; cbn.
    + rewrite Hnh. discriminate.
    + intros Hh. rewrite Hother; eauto.
  - intros k1 k2 v1 v2 H1 H2 Hne. view_case H1; view_case H2; cbn;
      rewrite ?Hnh; try discriminate; try (intros; discriminate).
    now apply (Hexcl k1 k2).
Qed.

Lemma safe_register (s : shared) vs img rest :
  safe_inv s vs -> image_counter s + 1 < 2 ^ 64 ->
  safe_inv (after_register img rest s) vs.
Proof.
  intros H Hn. open_safe H.
  assert (Hsm : forall i, sem_of (after_register img rest s) i
                          = if i =? image_counter s then Some 1%nat else sem_of s i).
  { intros i. unfold sem_of, after_register. cbn.
    apply slot_at_registered; [lia|].
    intros j y Hj. apply sem_of_slot in Hj. now apply sem_of_below in Hj. }
  split; try assumption.
  - cbn. lia.
  - cbn. rewrite length_slot_set, length_realloc. lia.
  - intros i x Hx. rewrite Hsm in Hx.
    destruct (i =? image_counter s); [injection Hx as <-; lia | eauto].
  - intros j u Hj Hr. destruct (Hrel j u Hj Hr) as [E | [E1 E2]]; [now left|].
    right. rewrite Hsm. cbn.
    destruct (Z.eqb_spec (v_local u) (image_counter s)) as [E|_]; [lia|].
    split; [exact E1 | lia].
  - intros j u Hj Hh. specialize (Hhold j u Hj Hh). rewrite Hsm.
    destruct (Z.eqb_spec (tgt u) (image_counter s)) as [E|_]; [|exact Hhold].
    apply sem_of_below in Hhold; lia.
Qed.

Lemma safe_admit (s : shared) vs to_add img_arr :
  safe_inv s vs -> available (the_queue s) <> 0 ->
  safe_inv (admitted_ev to_add img_arr s) vs.
Proof.
  intros H Hav. open_safe H. split; try assumption.
  destruct Hq as (lq & H1 & H2). exists (lq ++ [to_add]).
  split; [now apply (admitted_holds to_add img_arr s lq)|].
  change (sem_value queue_notify (sems (admitted_ev to_add img_arr s)))
    with (S (sem_value queue_notify (sems s))).
  rewrite H2, length_app. cbn. lia.
Qed.

(** *** The steps of the threads keep [safe_inv] *)

(** Whatever a computation does, its result satisfies [Q]. *)
Definition yields {A} (c : SM shared A) (Q : A -> Prop) : Prop :=
  forall s a s', c s = Done (a, s') -> Q a.

Lemma yields_ret {A} (a : A) (Q : A -> Prop) : Q a -> yields (ret a) Q.
Proof. intros HQ s a' s' H. now injection H as <- _. Qed.

Lemma yields_bind {A B} (c : SM shared A) (f : A -> SM shared B) (Q : B -> Prop) :
  (forall a, yields (f a) Q) -> yields (bind c f) Q.
Proof.
  intros Hf s b s' H. unfold bind in H.
  destruct (c s) as [[a s1]| |]; try discriminate. now apply (Hf a s1 b s').
Qed.

Lemma yields_stuck {A} (c : SM shared A) (Q : A -> Prop) :
  (forall s, c s = Blocked \/ c s = Undefined) -> yields c Q.
Proof. intros Hc s a s' H. destruct (Hc s) as [E|E]; rewrite E in H; discriminate. Qed.

(** [worker_done] is never set: a worker does not leave its loop. *)
Lemma worker_step_alive (w : worker) :
  worker_done w = 0 ->
  yields (worker_step w) (fun w' => w_pc w' <> W_exit /\ worker_done w' = 0).
Proof.
  intros Hd. unfold worker_step.
  destruct (w_pc w); repeat (apply yields_bind; intros);
    try (apply yields_ret; cbn; rewrite ?Hd; cbn;
         split; [discriminate | (reflexivity || assumption)]).
  - apply yields_ret. cbn.
    match goal with
    | |- context [not_my_turn ?x ?y] => destruct (not_my_turn x y)
    end; split; (discriminate || assumption).
  - destruct (w_img w); [|apply yields_stuck; now right].
    apply yields_bind. intros. apply yields_ret. cbn. split; [discriminate | assumption].
  - apply yields_ret. cbn.
    match goal with
    | |- context [img_opcode_eqb ?x ?y] => destruct (img_opcode_eqb x y)
    end; split; (discriminate || assumption).
  - apply yields_stuck. now left.
Qed.

Lemma worker_step_safe (s s' : shared) (ws : list worker) k w w' :
  safe_inv s (map wview ws) ->
  ws !! k = Some w ->
  worker_step w s = Done (w', s') ->
  safe_inv s' (map wview (<[k := w']> ws)).
Proof.
  intros Hinv Hw H.
  assert (Hk : map wview ws !! k = Some (wview w)).
  { change (map wview ws) with (wview <$> ws). now rewrite list_lookup_fmap, Hw. }
  change (map wview (<[k := w']> ws)) with (wview <$> <[k := w']> ws).
  rewrite list_fmap_insert.
  change (wview <$> ws) with (map wview ws).
  destruct (quiet (w_pc w)) eqn:Eq.
  { destruct (worker_step_quiet w Eq _ _ _ H) as [F ->].
    rewrite list_insert_id by exact Hk.
    apply safe_agree with s; [exact Hinv | now apply frame_agree]. }
  assert (Hdone : worker_done w = 0) by apply (sf_done _ _ Hinv k _ Hk).
  unfold worker_step in H.
  destruct (w_pc w) eqn:Epc; try discriminate; unfold bind in H.
  - (* W_get *)
    destruct (get_from_queue s) as [[e s1]| |] eqn:G; try discriminate.
    injection H as <- <-.
    replace (wview _) with
      (mk_view Waiting (request_of e) (img_id (request_of e)) (v_done (wview w)))
      by (unfold wview; cbn; rewrite Hdone; reflexivity).
    apply safe_get with s; auto. unfold wview. cbn. now rewrite Epc.
  - (* W_sem_wait *)
    destruct (img_sem_wait (w_img_id w) s) as [[[] s1]| |] eqn:G; try discriminate.
    injection H as <- <-.
    apply img_sem_wait_inv in G as (n & Hn & ->).
    apply (safe_sem_wait s _ k (wview w) n); auto.
    unfold wview. cbn. now rewrite Epc.
  - (* W_turn_test *)
    cbn in H.
    destruct (slot_at (wait_op s) (w_img_id w)) as [[arr|]|] eqn:G; try discriminate.
    cbn in H. injection H as <- <-.
    destruct (not_my_turn arr (req_id (request_of (w_req w)))) eqn:Et.
    + replace (wview _) with (wview w)
        by (unfold wview; cbn; now rewrite Epc).
      now rewrite list_insert_id by exact Hk.
    + apply (safe_move s _ k (wview w) Taking); auto;
        unfold wview; cbn; rewrite Epc; (reflexivity || discriminate).
  - (* W_turn_post *)
    destruct (img_sem_post (w_img_id w) s) as [[[] s1]| |] eqn:G; try discriminate.
    injection H as <- <-.
    apply img_sem_post_inv in G as (x & Hx & ->).
    apply (safe_sem_post s _ k (wview w) Waiting x); auto.
    left. unfold wview. cbn. now rewrite Epc.
  - (* W_turn_wait *)
    destruct (img_sem_wait (w_img_id w) s) as [[[] s1]| |] eqn:G; try discriminate.
    injection H as <- <-.
    apply img_sem_wait_inv in G as (n & Hn & ->).
    apply (safe_sem_wait s _ k (wview w) n); auto.
    unfold wview. cbn. now rewrite Epc.
  - (* W_turn_take *)
    destruct (turn_take (w_img_id w) s) as [[[] s1]| |] eqn:G; try discriminate.
    injection H as <- <-.
    apply turn_take_inv in G as (arr & x & rest & Hs & Hids & ->).
    apply safe_agree with s; [|split; reflexivity].
    apply (safe_move s _ k (wview w) Stamping); auto;
      unfold wview; cbn; rewrite Epc; (reflexivity || discriminate).
  - (* W_stamp_start *)
    cbn in H. injection H as <- <-.
    apply safe_agree with s; [|split; reflexivity].
    apply (safe_move s _ k (wview w) Working); auto;
      unfold wview; cbn; rewrite Epc; (reflexivity || discriminate).
  - (* W_publish *)
    destruct (w_img w) as [img|]; [|discriminate].
    destruct (publish (request_of (w_req w)) (w_img_id w) img s)
      as [[id s1]| |] eqn:G; try discriminate.
    injection H as <- <-.
    assert (Hh : holding (v_ph (wview w)) = true)
      by (unfold wview; cbn; now rewrite Epc).
    assert (Hnr : v_ph (wview w) <> Releasing)
      by (unfold wview; cbn; rewrite Epc; discriminate).
    pose proof (sf_counter _ _ Hinv) as Hc.
    apply (publish_inv _ _ _ _ _ _ Hc) in G as [[-> F] | (-> & Hn & ->)].
    + apply safe_agree with s; [|now apply frame_agree].
      apply (safe_published s _ k (wview w)); auto.
    + apply (safe_published _ _ k (wview w) (image_counter s)); auto.
      * now apply safe_output.
      * right. split; [|cbn; lia].
        change (sem_of (after_output img s) (image_counter s))
          with (sem_of s (image_counter s)).
        destruct (sem_of s (image_counter s)) as [x|] eqn:Ex; [|reflexivity].
        apply sem_of_below in Ex; [lia | apply Hinv | lia].
  - (* W_sem_post *)
    destruct (img_sem_post (w_img_id w) s) as [[[] s1]| |] eqn:G; try discriminate.
    injection H as <- <-.
    apply img_sem_post_inv in G as (x & Hx & ->).
    apply (safe_sem_post s _ k (wview w) Idle x); auto.
    right. unfold wview. cbn. now rewrite Epc.
Qed.

Lemma dispatcher_step_safe (s s' : shared) vs (d d' : dispatcher) :
  safe_inv s vs ->
  dispatcher_step d s = Done (d', s') ->
  safe_inv s' vs.
Proof.
  intros Hinv H.
  destruct (calm (d_pc d)) eqn:Eq.
  { destruct (dispatcher_step_calm d Eq _ _ _ H) as [F _].
    apply safe_agree with s; [exact Hinv | now apply frame_agree]. }
  unfold dispatcher_step in H.
  destruct (d_pc d) eqn:Epc; try discriminate; unfold bind in H.
  - (* D_reg_store *)
    destruct (register_new_image_store s) as [[[] s1]| |] eqn:G; try discriminate.
    injection H as <- <-.
    apply register_new_image_store_inv in G as (img & rest & Ein & Hn & ->);
      [|apply (sf_counter _ _ Hinv)].
    apply safe_register; assumption.
  - (* D_add *)
    destruct (add_to_queue (d_req d) s) as [[v s1]| |] eqn:G; try discriminate.
    assert (Hok : queue_ok (the_queue s)).
    { destruct (sf_queue _ _ Hinv) as (lq & Hq & _). apply Hq. }
    apply (add_to_queue_inv _ _ _ _ Hok) in G
      as [[-> ->] | (-> & Hav & img_arr & Hs & ->)].
    + cbn in H. injection H as <- <-. exact Hinv.
    + cbn in H. injection H as <- <-.
      now apply (safe_admit s vs (d_req d) img_arr).
Qed.

(** The invariant of a state of the program. *)
Definition machine_safe (m : machine) : Prop :=
  safe_inv (sh m) (map wview (pool m)) /\
  Forall (fun w => w_pc w <> W_exit) (pool m).

Lemma step_safe (t : tid) (m m' : machine) :
  machine_safe m -> step t m = Done m' -> machine_safe m'.
Proof.
  unfold machine_safe. intros [Hinv Hal] H.
  assert (H' : match t with
               | Dispatcher =>
                   lift (dispatcher_step (disp m) (sh m))
                     (fun d s => mk_machine s d (pool m))
               | Worker i =>
                   match pool m !! i with
                   | None => Blocked
                   | Some w =>
                       lift (worker_step w (sh m))
                         (fun w' s => mk_machine s (disp m) (<[i := w']> (pool m)))
                   end
               | Tick =>
                   Done (mk_machine (set_clock (clock (sh m) + 1) (sh m))
                           (disp m) (pool m))
               end = Done m').
  { unfold step in H. destruct (d_pc (disp m)); (discriminate || exact H). }
  clear H. destruct t as [|i|]; cycle 2.
  - injection H' as <-. cbn. split; [|exact Hal].
    apply safe_agree with (sh m); [exact Hinv|].
    apply frame_agree, frame_tick.
  - destruct (dispatcher_step (disp m) (sh m)) as [[d' s']| |] eqn:G;
      try discriminate.
    cbn in H'. injection H' as <-. cbn. split; [|exact Hal].
    now apply dispatcher_step_safe with (sh m) (disp m) d'.
  - destruct (pool m !! i) as [w|] eqn:Hw; [|discriminate].
    destruct (worker_step w (sh m)) as [[w' s']| |] eqn:G; try discriminate.
    cbn in H'. injection H' as <-. cbn. split.
    + now apply worker_step_safe with (sh m) w.
    + apply Forall_insert; [exact Hal|].
      assert (Hd : worker_done w = 0).
      { apply (sf_done _ _ Hinv i (wview w)).
        change (map wview (pool m)) with (wview <$> pool m).
        now rewrite list_lookup_fmap, Hw. }
      apply (worker_step_alive w Hd _ _ _ G).
Qed.

Lemma run_safe (sched : list tid) : forall m m',
  machine_safe m -> run sched m = Done m' -> machine_safe m'.
Proof.
  induction sched as [|t sched IH]; intros m m' Hinv H; cbn in H.
  - now injection H as <-.
  - destruct (step t m) as [m1| |] eqn:E; try discriminate.
    apply (IH m1); [|exact H]. now apply step_safe with t m.
Qed.

Lemma init_safe (queue_size n_workers : Z) (pol : queue_policy) (input : list packet) :
  0 < queue_size < 2 ^ 64 ->
  machine_safe (init queue_size n_workers pol input).
Proof.
  intros Hq. unfold machine_safe, init. cbn [sh disp pool]. split.
  - split; cbn [image_counter img_semaphores the_queue sems].
    + lia.
    + cbn. lia.
    + intros i x H. unfold sem_of in H. cbn in H. now rewrite slot_at_nil in H.
    + intros k v H. now rewrite (init_view _ _ _ H).
    + intros k v H. rewrite (init_view _ _ _ H). discriminate.
    + intros k v H. rewrite (init_view _ _ _ H). discriminate.
    + intros k v H. rewrite (init_view _ _ _ H). discriminate.
    + intros k1 k2 v1 v2 H1 H2 _. rewrite (init_view _ _ _ H1). discriminate.
    + exists []. split; [now apply queue_init_holds | reflexivity].
  - apply Forall_forall. intros w Hw. apply list_elem_of_In in Hw.
    apply in_map_iff in Hw as (i & <- & _). discriminate.
Qed.

Lemma reachable_safe (queue_size n_workers : Z) (pol : queue_policy)
    (input : list packet) (sched : list tid) (m : machine) :
  0 < queue_size < 2 ^ 64 ->
  run sched (init queue_size n_workers pol input) = Done m ->
  machine_safe m.
Proof.
  intros Hq Hrun.
  apply (run_safe sched _ m (init_safe queue_size n_workers pol input Hq) Hrun).
Qed.

(** X11. Mutual exclusion on an image. In every execution, two workers that
    are both between the return of [sem_wait] on the semaphore of their
    image and the [sem_post] of line 338 work on different images. *)
Theorem image_exclusion (queue_size n_workers : Z) (pol : queue_policy)
    (input : list packet) (sched : list tid) (m : machine) :
  0 < queue_size < 2 ^ 64 ->
  run sched (init queue_size n_workers pol input) = Done m ->
  forall i j wi wj,
    pool m !! i = Some wi -> pool m !! j = Some wj -> i <> j ->
    in_section wi = true -> in_section wj = true ->
    img_id (request_of (w_req wi)) <> img_id (request_of (w_req wj)).
Proof.
  intros Hq Hrun i j wi wj Hi Hj Hne Hsi Hsj.
  destruct (reachable_safe _ _ _ _ _ _ Hq Hrun) as [Hinv _].
  apply (sf_excl _ _ Hinv i j (wview wi) (wview wj)); auto;
    change (map wview (pool m)) with (wview <$> pool m);
    rewrite list_lookup_fmap; (rewrite Hi || rewrite Hj); reflexivity.
Qed.

(** X12. The semaphores of the images are binary. In every execution, a
    semaphore of [img_semaphores] that is initialised has the value 0 or 1
    and belongs to an image ID below [image_counter]; and while a worker is
    between the return of its [sem_wait] and its [sem_post], the semaphore
    of its image has the value 0. *)
Theorem image_semaphores_binary (queue_size n_workers : Z) (pol : queue_policy)
    (input : list packet) (sched : list tid) (m : machine) :
  0 < queue_size < 2 ^ 64 ->
  run sched (init queue_size n_workers pol input) = Done m ->
  (forall i x, slot_at (img_semaphores (sh m)) i = Some (Some x) ->
     (x <= 1)%nat /\ 0 <= i < image_counter (sh m)) /\
  (forall k w, pool m !! k = Some w -> in_section w = true ->
     slot_at (img_semaphores (sh m)) (img_id (request_of (w_req w)))
     = Some (Some 0%nat)).
Proof.
  intros Hq Hrun.
  destruct (reachable_safe _ _ _ _ _ _ Hq Hrun) as [Hinv _]. split.
  - intros i x Hx. apply sem_of_slot in Hx. split.
    + apply (sf_sem _ _ Hinv i x Hx).
    + split.
      * apply sem_of_slot, slot_at_Some in Hx. lia.
      * apply (sem_of_below _ _ _ (sf_semlen _ _ Hinv)) in Hx; [exact Hx|].
        apply (sf_counter _ _ Hinv).
  - intros k w Hk Hs. apply sem_of_slot.
    apply (sf_hold _ _ Hinv k (wview w)); [|exact Hs].
    change (map wview (pool m)) with (wview <$> pool m).
    now rewrite list_lookup_fmap, Hk.
Qed.

(** X13. The accounting of the queue. In every execution, between the calls
    of [add_to_queue] and [get_from_queue] (each call is one step of its
    thread), the queue is a well-formed ring ([available] between 0 and
    [max_size], the positions within the ring) and the value of the
    semaphore [queue_notify] is the number of requests in the queue,
    [max_size - available]: a worker passes [sem_wait(queue_notify)] only
    when a request is there for it. *)
Theorem queue_accounting (queue_size n_workers : Z) (pol : queue_policy)
    (input : list packet) (sched : list tid) (m : machine) :
  0 < queue_size < 2 ^ 64 ->
  run sched (init queue_size n_workers pol input) = Done m ->
  queue_ok (the_queue (sh m)) /\
  Z.of_nat (sem_value queue_notify (sems (sh m)))
  = max_size (the_queue (sh m)) - available (the_queue (sh m)).
Proof.
  intros Hq Hrun.
  destruct (reachable_safe _ _ _ _ _ _ Hq Hrun) as [Hinv _].
  destruct (sf_queue _ _ Hinv) as (lq & Hh & Hn).
  split; [apply Hh|].
  rewrite Hn, (holds_avail _ _ Hh). lia.
Qed.


End Safety.

(** *** On a concrete execution

    Two images are registered, a blur of the image 0 and a sharpen of the
    image 1 are admitted, and each of two workers takes one of them up to
    the removal of the head of the ordering sequence. *)

#[local] Existing Instance sym_imglib.

Definition two_images : list packet :=
  [PktRequest (Hw7Runs.req 0 IMG_REGISTER 0 0); PktImage (Uploaded 10);
   PktRequest (Hw7Runs.req 1 IMG_REGISTER 0 0); PktImage (Uploaded 11);
   PktRequest (Hw7Runs.req 2 IMG_BLUR 1 0);
   PktRequest (Hw7Runs.req 3 IMG_SHARPEN 1 1)].

Definition both_in_section : list tid :=
  repeat Dispatcher 20 ++ repeat (Worker 0) 5 ++ repeat (Worker 1) 5.

Definition two_in_section : machine :=
  Eval vm_compute in
    Hw7More.state_after both_in_section (init 4 2 QUEUE_FIFO two_images).

Lemma image_exclusion_witness :
  run both_in_section (init 4 2 QUEUE_FIFO two_images) = Done two_in_section /\
  map in_section (pool two_in_section) = [true; true] /\
  map (fun w => img_id (request_of (w_req w))) (pool two_in_section) = [0; 1] /\
  (forall i j wi wj,
     pool two_in_section !! i = Some wi -> pool two_in_section !! j = Some wj ->
     i <> j -> in_section wi = true -> in_section wj = true ->
     img_id (request_of (w_req wi)) <> img_id (request_of (w_req wj))).
Proof.
  split; [vm_compute; reflexivity|]. split; [reflexivity|].
  split; [reflexivity|].
  apply (image_exclusion 4 2 QUEUE_FIFO two_images both_in_section two_in_section).
  - lia.
  - vm_compute. reflexivity.
Defined.

Lemma image_semaphores_binary_witness :
  img_semaphores (sh two_in_section) = [Some 0%nat; Some 0%nat] /\
  (forall i x, slot_at (img_semaphores (sh two_in_section)) i = Some (Some x) ->
     (x <= 1)%nat /\ 0 <= i < image_counter (sh two_in_section)).
Proof.
  split; [reflexivity|].
  apply (image_semaphores_binary 4 2 QUEUE_FIFO two_images both_in_section
           two_in_section).
  - lia.
  - vm_compute. reflexivity.
Defined.

(** The second request has been admitted and the first is taken by the
    worker 0. *)
Definition one_queued : machine :=
  Eval vm_compute in
    Hw7More.state_after (repeat Dispatcher 20 ++ repeat (Worker 0) 3)
      (init 4 2 QUEUE_FIFO two_images).

Lemma queue_accounting_witness :
  sem_value queue_notify (sems (sh one_queued)) = 1%nat /\
  available (the_queue (sh one_queued)) = 3 /\
  Z.of_nat (sem_value queue_notify (sems (sh one_queued)))
  = max_size (the_queue (sh one_queued)) - available (the_queue (sh one_queued)).
Proof.
  split; [reflexivity|]. split; [reflexivity|].
  apply (queue_accounting 4 2 QUEUE_FIFO two_images
           (repeat Dispatcher 20 ++ repeat (Worker 0) 3) one_queued).
  - lia.
  - vm_compute. reflexivity.
Defined.


End Hw7Safety.

(** * The queue of the policy server as a bounded FIFO ([hw5_src/server_pol.c])

    [add_to_queue] and [fifo_get_from_queue] on the queue in all its
    states: the empty queue, whose positions are -1, included. *)

Module Hw5More.
Import Hw5 Hw5Facts.

Section More.

Variable QUEUE_SIZE : Z.

(** The queue size of the command line fits the array of the queue. *)
Hypothesis QUEUE_SIZE_range : 0 < QUEUE_SIZE <= QUEUE_MAX.

#[local] Arguments slot_at : simpl never.
#[local] Arguments slot_set : simpl never.
#[local] Arguments Z.modulo : simpl never.
#[local] Arguments Z.rem : simpl never.
#[local] Arguments Z.sub : simpl never.
#[local] Arguments Z.add : simpl never.
#[local] Arguments Z.of_nat : simpl never.
#[local] Arguments Z.to_nat : simpl never.

#[local] Abbreviation add := (add_to_queue QUEUE_SIZE).
#[local] Abbreviation fifo := (fifo_get_from_queue QUEUE_SIZE).
#[local] Abbreviation holds := (queue_holds QUEUE_SIZE).
#[local] Abbreviation slot := (ring_slot QUEUE_SIZE).

(** The queue holds the sequence [l] of requests, oldest first. The empty
    queue is the one that [handle_connection] sets up (lines 259-262) and
    that an extraction of the last request leaves (lines 180-182): no
    request and both positions at -1. *)
Definition queue_has (q : queue) (l : list request_meta) : Prop :=
  match l with
  | [] => length (items q) = Z.to_nat QUEUE_MAX /\
          size q = 0 /\ head q = -1 /\ tail q = -1
  | _ :: _ => holds q l
  end.

Lemma queue_start_has : queue_has queue_start [].
Proof.
  unfold queue_has, queue_start. cbn [items size head tail].
  rewrite length_replicate. auto.
Qed.

Lemma queue_has_bound q l :
  queue_has q l -> Z.of_nat (length l) <= QUEUE_SIZE /\ size q = Z.of_nat (length l).
Proof.
  destruct l as [|e l]; cbn [queue_has].
  - intros (_ & -> & _). cbn. lia.
  - intros [_ _ Hs Hb _ _]. lia.
Qed.

(** The state after [to_add] is admitted to the queue [q]. *)
Definition admitted (to_add : request_meta) (s : shared) : shared :=
  let q := the_queue s in
  let q' :=
    if size q =? 0
    then mk_queue 0 0 (slot_set (items q) 0 (Some to_add)) (size q + 1)
    else mk_queue (head q) ((tail q + 1) mod QUEUE_SIZE)
           (slot_set (items q) ((tail q + 1) mod QUEUE_SIZE) (Some to_add))
           (size q + 1) in
  mk_shared q' (queue_mutex s) (S (queue_notify s)) (stdout s).

Lemma slot_at_in_array (a : list (option request_meta)) i :
  length a = Z.to_nat QUEUE_MAX -> 0 <= i < QUEUE_SIZE ->
  exists x, slot_at a i = Some x.
Proof.
  intros Hl Hi. unfold slot_at.
  destruct (0 <=? i) eqn:E; [|lia].
  apply lookup_lt_is_Some_2. lia.
Qed.

Lemma store_item_in_array (a : list (option request_meta)) i x (s : shared) :
  length a = Z.to_nat QUEUE_MAX -> 0 <= i < QUEUE_SIZE ->
  store_item a i x s = Done (slot_set a i (Some x), s).
Proof.
  intros Hl Hi. unfold store_item.
  destruct (slot_at_in_array a i Hl Hi) as [y ->]. reflexivity.
Qed.

Lemma add_to_queue_first (to_add : request_meta) (s : shared) :
  queue_has (the_queue s) [] ->
  (0 < queue_mutex s)%nat ->
  add to_add s = Done (0, admitted to_add s) /\
  queue_has (the_queue (admitted to_add s)) [to_add].
Proof.
  intros (Hlen & Hsz & Hhd & Htl) Hm.
  destruct s as [q m n out]. cbn [the_queue queue_mutex] in *.
  destruct m as [|m]; [lia|].
  split.
  - unfold add_to_queue, bind, sem_wait_mutex. cbn [queue_mutex].
    unfold gets at 1, set_queue_mutex.
    cbn [the_queue queue_mutex queue_notify stdout].
    rewrite Htl. unfold imod at 1.
    destruct (QUEUE_SIZE =? 0) eqn:E0; [lia|].
    unfold ret at 1. replace (Z.rem (-1 + 1) QUEUE_SIZE) with 0
      by (now rewrite Z.rem_0_l by lia).
    rewrite Hhd. cbn [Z.eqb]. rewrite Hsz. cbn [Z.eqb].
    rewrite store_item_in_array by (cbn [the_queue]; lia).
    unfold admitted. cbn. rewrite Hsz. reflexivity.
  - unfold admitted. cbn [the_queue]. rewrite Hsz. cbn [Z.eqb queue_has].
    split; cbn [items head tail size length].
    + now rewrite Hw7Facts.length_slot_set.
    + lia.
    + reflexivity.
    + cbn. lia.
    + unfold ring_slot. cbn [head length].
      rewrite Z.mod_small by lia. lia.
    + intros [|k] e Hk; [|discriminate]. cbn in Hk. injection Hk as <-.
      unfold ring_slot. cbn [head].
      rewrite Z.mod_small by lia. change (0 + Z.of_nat 0) with 0.
      apply Hw7Facts.slot_at_set_eq; [lia|]. rewrite Hlen.
      unfold QUEUE_MAX. lia.
Qed.

Lemma add_to_queue_more (to_add : request_meta) (s : shared) e l :
  queue_has (the_queue s) (e :: l) ->
  Z.of_nat (length (e :: l)) < QUEUE_SIZE ->
  (0 < queue_mutex s)%nat ->
  add to_add s = Done (0, admitted to_add s) /\
  queue_has (the_queue (admitted to_add s)) ((e :: l) ++ [to_add]).
Proof.
  intros Hh Hroom Hm. cbn [queue_has] in Hh.
  pose proof Hh as [Hlen Hhead Hsize Hbound Htail Hlive].
  destruct s as [q m n out]. cbn [the_queue queue_mutex] in *.
  destruct m as [|m]; [lia|].
  set (k := length (e :: l)) in *.
  assert (Hk : (0 < k)%nat) by (subst k; cbn; lia).
  assert (Hnext : (tail q + 1) mod QUEUE_SIZE = slot q k).
  { rewrite Htail. unfold ring_slot. rewrite Zplus_mod_idemp_l.
    f_equal. lia. }
  assert (Hne : slot q k <> head q).
  { rewrite <- (ring_slot_0 QUEUE_SIZE q Hhead).
    intros Heq. symmetry in Heq. revert Heq.
    apply ring_slot_ne; [exact QUEUE_SIZE_range|lia|lia]. }
  pose proof (ring_slot_range QUEUE_SIZE QUEUE_SIZE_range q (k - 1)) as Hr.
  pose proof (ring_slot_range QUEUE_SIZE QUEUE_SIZE_range q k) as Hrk.
  split.
  - unfold add_to_queue, bind, sem_wait_mutex. cbn [queue_mutex].
    unfold gets at 1, set_queue_mutex.
    cbn [the_queue queue_mutex queue_notify stdout].
    rewrite !(imod_nonneg QUEUE_SIZE QUEUE_SIZE_range) by lia.
    rewrite Hnext.
    destruct (slot q k =? head q) eqn:E; [lia|].
    destruct (size q =? 0) eqn:Es; [lia|].
    rewrite store_item_in_array by (cbn [the_queue]; lia).
    rewrite !(imod_nonneg QUEUE_SIZE QUEUE_SIZE_range) by lia.
    rewrite Hnext.
    unfold admitted. cbn. rewrite Es, Hnext. reflexivity.
  - unfold admitted. cbn [the_queue]. 
    destruct (size q =? 0) eqn:Es; [lia|].
    rewrite Hnext. change ((e :: l) ++ [to_add]) with (e :: (l ++ [to_add])).
    cbn [queue_has].
    assert (Hlen' : length (e :: l ++ [to_add]) = S k).
    { subst k. cbn. rewrite length_app. cbn. lia. }
    split; cbn [items head tail size].
    + now rewrite Hw7Facts.length_slot_set.
    + exact Hhead.
    + rewrite Hlen'. lia.
    + lia.
    + rewrite Hlen'. replace (S k - 1)%nat with k by lia. reflexivity.
    + intros j x Hj.
      change (ring_slot QUEUE_SIZE
                (mk_queue (head q) (slot q k)
                   (slot_set (items q) (slot q k) (Some to_add)) (size q + 1)) j)
        with (slot q j).
      change (e :: l ++ [to_add]) with ((e :: l) ++ [to_add]) in Hj.
      apply lookup_app_Some in Hj as [Hj | [Hge Hj]].
      * rewrite Hw7Facts.slot_at_set_ne.
        -- now apply Hlive.
        -- lia.
        -- intros Heq. symmetry in Heq. revert Heq.
           apply lookup_lt_Some in Hj. fold k in Hj.
           apply ring_slot_ne; [exact QUEUE_SIZE_range|lia|lia].
      * fold k in Hge, Hj.
        destruct (j - k)%nat as [|d] eqn:Ed; [|discriminate].
        cbn in Hj. injection Hj as <-.
        replace j with k by lia.
        apply Hw7Facts.slot_at_set_eq; [lia|]. rewrite Hlen. lia.
Qed.

Lemma add_to_queue_at_capacity (to_add : request_meta) (s : shared) l :
  queue_has (the_queue s) l ->
  Z.of_nat (length l) = QUEUE_SIZE ->
  (0 < queue_mutex s)%nat ->
  add to_add s = Done (-1, s).
Proof.
  intros Hh Hfull Hm.
  destruct l as [|e l]; [cbn in Hfull; lia|]. cbn [queue_has] in Hh.
  pose proof Hh as [Hlen Hhead Hsize Hbound Htail Hlive].
  destruct s as [q m n out]. cbn [the_queue queue_mutex] in *.
  destruct m as [|m]; [lia|].
  set (k := length (e :: l)) in *.
  pose proof (ring_slot_range QUEUE_SIZE QUEUE_SIZE_range q (k - 1)) as Hr.
  assert (Hnext : (tail q + 1) mod QUEUE_SIZE = head q).
  { rewrite Htail. unfold ring_slot. rewrite Zplus_mod_idemp_l.
    replace (head q + Z.of_nat (k - 1) + 1) with (head q + 1 * QUEUE_SIZE)
      by (subst k; cbn [length] in *; lia).
    rewrite Z.mod_add by lia. apply Z.mod_small. exact Hhead. }
  unfold add_to_queue, bind, sem_wait_mutex. cbn [queue_mutex].
  unfold gets at 1, set_queue_mutex.
  cbn [the_queue queue_mutex queue_notify stdout].
  rewrite !(imod_nonneg QUEUE_SIZE QUEUE_SIZE_range) by lia.
  rewrite Hnext, Z.eqb_refl. reflexivity.
Qed.

(** The state after the oldest request is extracted. *)
Definition extracted (s : shared) : shared :=
  let q := the_queue s in
  mk_shared
    (reset_if_empty
       (mk_queue ((head q + 1) mod QUEUE_SIZE) (tail q) (items q) (size q - 1)))
    (queue_mutex s) (Nat.pred (queue_notify s)) (stdout s).

Lemma fifo_get_from_queue_has (s : shared) e l :
  queue_has (the_queue s) (e :: l) ->
  (0 < queue_notify s)%nat ->
  (0 < queue_mutex s)%nat ->
  fifo s = Done (Some e, extracted s) /\
  queue_has (the_queue (extracted s)) l.
Proof.
  intros Hh Hn Hm. cbn [queue_has] in Hh.
  pose proof Hh as [Hlen Hhead Hsize Hbound Htail Hlive].
  destruct s as [q m n out]. cbn [the_queue queue_mutex queue_notify] in *.
  destruct m as [|m]; [lia|]. destruct n as [|n]; [lia|].
  assert (Hl0 : slot_at (items q) (head q) = Some (Some e)).
  { rewrite <- (ring_slot_0 QUEUE_SIZE q Hhead). now apply Hlive. }
  split.
  - unfold fifo_get_from_queue, bind, sem_wait_notify, sem_wait_mutex.
    cbn [queue_notify]. unfold set_queue_notify.
    cbn [the_queue queue_mutex queue_notify stdout].
    unfold gets at 1, set_queue_mutex.
    cbn [the_queue queue_mutex queue_notify stdout].
    destruct (size q =? 0) eqn:Es; [lia|].
    rewrite Hl0. cbn [defined]. unfold ret at 1.
    rewrite (imod_nonneg QUEUE_SIZE QUEUE_SIZE_range) by lia.
    reflexivity.
  - unfold extracted, reset_if_empty. cbn [the_queue size].
    cbn [length] in Hsize.
    destruct (size q - 1 =? 0) eqn:E1.
    + destruct l as [|e' l]; [|cbn [length] in Hsize; lia].
      cbn. repeat split; [exact Hlen | lia].
    + destruct l as [|e' l]; [cbn [length] in Hsize; lia|].
      cbn [queue_has].
      split; cbn [items head tail size].
      * exact Hlen.
      * apply Z.mod_pos_bound. lia.
      * cbn [length] in *. lia.
      * lia.
      * rewrite ring_slot_next, Htail. f_equal. cbn [length]. lia.
      * intros j x Hj. rewrite ring_slot_next.
        apply Hlive. exact Hj.
Qed.

Lemma fifo_get_from_queue_waits (s : shared) :
  queue_notify s = 0%nat -> fifo s = Blocked.
Proof.
  intros H. unfold fifo_get_from_queue, bind, sem_wait_notify. now rewrite H.
Qed.

Lemma bind_done {St A B} (c : SM St A) (f : A -> SM St B) s a s' :
  c s = Done (a, s') -> bind c f s = f a s'.
Proof. intros H. unfold bind. now rewrite H. Qed.

Lemma bind_blocked {St A B} (c : SM St A) (f : A -> SM St B) s :
  c s = Blocked -> bind c f s = Blocked.
Proof. intros H. unfold bind. now rewrite H. Qed.

(** X15. The queue of [server_pol.c] admits exactly [QUEUE_SIZE] requests.
    On a queue that holds the sequence [l], the empty one included,
    [add_to_queue] with fewer than [QUEUE_SIZE] requests held returns 0,
    appends the request and posts [queue_notify] once; with [QUEUE_SIZE]
    requests held it returns -1 and changes nothing. No more than
    [QUEUE_SIZE] requests are ever held. *)
Theorem pol_add_to_queue_bounded (to_add : request_meta) (s : shared) l :
  queue_has (the_queue s) l ->
  (0 < queue_mutex s)%nat ->
  Z.of_nat (length l) <= QUEUE_SIZE /\
  (Z.of_nat (length l) < QUEUE_SIZE ->
   exists s',
     add to_add s = Done (0, s') /\
     queue_has (the_queue s') (l ++ [to_add]) /\
     queue_notify s' = S (queue_notify s) /\
     queue_mutex s' = queue_mutex s /\
     stdout s' = stdout s) /\
  (Z.of_nat (length l) = QUEUE_SIZE -> add to_add s = Done (-1, s)).
Proof.
  intros Hh Hm. split; [apply (queue_has_bound _ _ Hh)|]. split.
  - intros Hroom. exists (admitted to_add s).
    destruct l as [|e l].
    + destruct (add_to_queue_first to_add s Hh Hm) as [-> H]. auto.
    + destruct (add_to_queue_more to_add s e l Hh Hroom Hm) as [-> H]. auto.
  - intros Hfull. now apply (add_to_queue_at_capacity to_add s l).
Qed.

(** *** The queue against a reference FIFO *)

Inductive queue_op :=
| OpAdd (r : request_meta)
| OpGet.

Inductive outcome :=
| Added (v : Z)
| Got (e : option request_meta).

(** The operations of [ops] run on the queue in order, by one thread, with
    the extraction of the FIFO policy. *)
Fixpoint run_ops (ops : list queue_op) : SM shared (list outcome) :=
  match ops with
  | [] => ret []
  | OpAdd r :: rest =>
      v <- add r ;;
      os <- run_ops rest ;;
      ret (Added v :: os)
  | OpGet :: rest =>
      e <- fifo ;;
      os <- run_ops rest ;;
      ret (Got e :: os)
  end.

(** The reference: a FIFO sequence of at most [cap] requests. An admission
    appends (0) or, when [cap] requests are held, is refused (-1); an
    extraction takes the oldest request and has no outcome on the empty
    sequence. *)
Fixpoint fifo_model (cap : nat) (l : list request_meta) (ops : list queue_op) :
    option (list outcome * list request_meta) :=
  match ops with
  | [] => Some ([], l)
  | OpAdd r :: rest =>
      if (length l <? cap)%nat then
        match fifo_model cap (l ++ [r]) rest with
        | Some (os, l') => Some (Added 0 :: os, l')
        | None => None
        end
      else
        match fifo_model cap l rest with
        | Some (os, l') => Some (Added (-1) :: os, l')
        | None => None
        end
  | OpGet :: rest =>
      match l with
      | [] => None
      | e :: l' =>
          match fifo_model cap l' rest with
          | Some (os, l'') => Some (Got (Some e) :: os, l'')
          | None => None
          end
      end
  end.

(** X16. The queue of [server_pol.c] under the FIFO policy is a bounded FIFO
    queue. From a queue that holds the sequence [l], with [queue_notify] at
    the number of requests held, any sequence of [add_to_queue] and
    [fifo_get_from_queue] calls has the outcomes of the reference FIFO of
    capacity [QUEUE_SIZE], through the resets of the positions of the
    emptied queue and the wrap-around of the ring; an extraction on the
    empty queue waits, and the message of line 174 is never printed. *)
Theorem pol_queue_refines_fifo (ops : list queue_op) : forall (s : shared) l,
  queue_has (the_queue s) l ->
  queue_notify s = length l ->
  (0 < queue_mutex s)%nat ->
  match fifo_model (Z.to_nat QUEUE_SIZE) l ops with
  | Some (outs, l') =>
      exists s',
        run_ops ops s = Done (outs, s') /\
        queue_has (the_queue s') l' /\
        queue_notify s' = length l' /\
        stdout s' = stdout s
  | None => run_ops ops s = Blocked
  end.
Proof.
  induction ops as [|[r|] ops IH]; intros s l Hh Hn Hm; cbn [fifo_model run_ops].
  - exists s. auto.
  - pose proof (queue_has_bound _ _ Hh) as [Hb _].
    destruct (length l <? Z.to_nat QUEUE_SIZE)%nat eqn:E.
    + apply Nat.ltb_lt in E.
      assert (Hroom : Z.of_nat (length l) < QUEUE_SIZE) by lia.
      assert (Hadd : add r s = Done (0, admitted r s) /\
                     queue_has (the_queue (admitted r s)) (l ++ [r])).
      { destruct l as [|e l].
        - now apply add_to_queue_first.
        - now apply add_to_queue_more. }
      destruct Hadd as [Hadd Hh'].
      specialize (IH (admitted r s) (l ++ [r]) Hh').
      cbn [admitted queue_notify queue_mutex] in IH.
      specialize (IH ltac:(rewrite length_app, Hn; cbn; lia) Hm).
      rewrite (bind_done _ _ _ _ _ Hadd).
      destruct (fifo_model (Z.to_nat QUEUE_SIZE) (l ++ [r]) ops) as [[os l']|].
      * destruct IH as (s' & Hrun & H1 & H2 & H3).
        exists s'. rewrite (bind_done _ _ _ _ _ Hrun). auto.
      * now apply bind_blocked.
    + apply Nat.ltb_ge in E.
      assert (Hfull : Z.of_nat (length l) = QUEUE_SIZE) by lia.
      pose proof (add_to_queue_at_capacity r s l Hh Hfull Hm) as Hadd.
      specialize (IH s l Hh Hn Hm).
      rewrite (bind_done _ _ _ _ _ Hadd).
      destruct (fifo_model (Z.to_nat QUEUE_SIZE) l ops) as [[os l']|].
      * destruct IH as (s' & Hrun & H1 & H2 & H3).
        exists s'. rewrite (bind_done _ _ _ _ _ Hrun). auto.
      * now apply bind_blocked.
  - destruct l as [|e l].
    + apply bind_blocked. now apply fifo_get_from_queue_waits.
    + destruct (fifo_get_from_queue_has s e l Hh ltac:(rewrite Hn; cbn; lia) Hm)
        as [Hget Hh'].
      specialize (IH (extracted s) l Hh').
      cbn [extracted queue_notify queue_mutex] in IH.
      specialize (IH ltac:(rewrite Hn; reflexivity) Hm).
      rewrite (bind_done _ _ _ _ _ Hget).
      destruct (fifo_model (Z.to_nat QUEUE_SIZE) l ops) as [[os l']|].
      * destruct IH as (s' & Hrun & H1 & H2 & H3).
        exists s'. rewrite (bind_done _ _ _ _ _ Hrun). auto.
      * now apply bind_blocked.
Qed.

End More.

(** *** The queue of a connection with [-q 2] *)

Definition fresh : shared := mk_shared queue_start 1 0 [].

Definition two : list request_meta := [meta 1 5; meta 2 1].

(** The state after two admissions: the queue is full. *)
Definition filled : shared :=
  Eval vm_compute in
    fold_left
      (fun s r => match add_to_queue 2 r s with Done (_, s') => s' | _ => s end)
      two fresh.

Lemma filled_has : queue_has 2 (the_queue filled) two.
Proof.
  split.
  - reflexivity.
  - vm_compute. split; [discriminate | reflexivity].
  - reflexivity.
  - vm_compute. split; [reflexivity | discriminate].
  - reflexivity.
  - intros [|[|k]] e Hk; try discriminate;
      cbn in Hk; injection Hk as <-; reflexivity.
Qed.

Lemma pol_add_to_queue_bounded_witness :
  (exists s',
     add_to_queue 2 (meta 1 5) fresh = Done (0, s') /\
     queue_has 2 (the_queue s') [meta 1 5] /\
     queue_notify s' = 1%nat) /\
  add_to_queue 2 (meta 3 1) filled = Done (-1, filled).
Proof.
  split.
  - destruct (pol_add_to_queue_bounded 2 ltac:(unfold QUEUE_MAX; lia)
                (meta 1 5) fresh [] (queue_start_has 2) ltac:(cbn; lia))
      as (_ & H & _).
    destruct (H ltac:(cbn; lia)) as (s' & H1 & H2 & H3 & _).
    exists s'. auto.
  - destruct (pol_add_to_queue_bounded 2 ltac:(unfold QUEUE_MAX; lia)
                (meta 3 1) filled two filled_has ltac:(cbn; lia))
      as (_ & _ & H).
    exact (H eq_refl).
Defined.

(** Two admissions, a rejection, and extractions and admissions that take
    the positions around the ring and through the reset of the emptied
    queue. *)
Definition session : list queue_op :=
  [OpAdd (meta 1 5); OpAdd (meta 2 1); OpAdd (meta 3 1); OpGet;
   OpAdd (meta 4 2); OpGet; OpGet; OpAdd (meta 5 1); OpGet].

Lemma pol_queue_refines_fifo_witness :
  exists s',
    run_ops 2 session fresh
    = Done ([Added 0; Added 0; Added (-1); Got (Some (meta 1 5));
             Added 0; Got (Some (meta 2 1)); Got (Some (meta 4 2));
             Added 0; Got (Some (meta 5 1))], s') /\
    queue_has 2 (the_queue s') [] /\
    queue_notify s' = 0%nat /\
    stdout s' = [].
Proof.
  exact (pol_queue_refines_fifo 2 ltac:(unfold QUEUE_MAX; lia) session fresh []
           (queue_start_has 2) eq_refl ltac:(cbn; lia)).
Defined.

End Hw5More.
